(** * SnipLink URL shortener: registry, allocator, rate limiter, lifecycle

    A shallow embedding of the storage layer (module [utils/storage],
    the last part of [src/types.ts]), of the URL helpers (module
    [utils/urlShortener], the last part of [src/utils/metadata.ts]) and
    of the creation handler of [src/components/ShortenForm.tsx],
    followed by the properties of the registry specification checked
    against them. Further parts of the code (the display helpers and
    the URL validation of [utils/urlShortener], the statistics of
    [utils/storage], the hash route of [App], the list view of
    [UrlList], [topUrls] of [Analytics] and the hook [useToast]) and
    properties of theirs come after these.

    Conventions
    - JavaScript numbers that hold millisecond timestamps and counters
      are integers ([Z]); [NaN] and infinities do not occur in values
      that went through JSON.
    - JavaScript strings are modelled by [string]; its 8-bit units
      stand for the UTF-8 bytes of the text. What the language counts
      in UTF-16 units ([length], [substring]) is counted in UTF-16
      units here as well ([jsLength], [substringTo]), and half a
      surrogate pair, which [substring] can leave behind, is written
      in the three bytes of its own number. [trim] removes the whole
      white space of the language. [toLowerCase] maps the letters A to Z, which is
      the method of the language on text whose cased letters are all
      in ASCII; the case table of the other letters belongs to the
      platform, and where a property depends on it the platform's
      method is a parameter or the text is taken in ASCII.
    - [localStorage] is a finite map from keys to items ([gmap]); an
      item is the JSON value a key holds, kept in parsed form.
    - [Date.now()] is an explicit argument [now] of every operation that
      reads the clock.
    - A failing [localStorage.setItem] is an explicit argument as well:
      the exception it throws. *)

From Stdlib Require Import ZArith NArith String Ascii List Lia Bool DecimalString.
From Stdlib Require DecimalPos DecimalN.
From stdpp Require Import base option list gmap strings.

Local Open Scope string_scope.
Local Open Scope list_scope.
Local Open Scope Z_scope.

(** ** Data model ([src/types.ts]) *)

Inductive DeviceType := mobile | tablet | desktop.

Record ClickEvent := mkClickEvent {
  timestamp : Z;
  referrer : option string;
  deviceType : option DeviceType;
  timezone : option string;
  userAgent : option string
}.

(** [customAlias] and [password] are optional ([undefined] in memory,
    [null] once written by [compressData]); [expiresAt] is
    [number | null]. [password] is the extra field that [handleSubmit]
    puts in the object it stores. *)
Record ShortenedUrl := mkShortenedUrl {
  id : string;
  originalUrl : string;
  normalizedUrl : string;
  shortCode : string;
  customAlias : option string;
  createdAt : Z;
  expiresAt : option Z;
  clicks : Z;
  clickHistory : list ClickEvent;
  password : option string
}.

(** ** JavaScript helpers *)

(** Truthiness of a [number | null]: [null] and [0] are falsy. *)
Definition truthyNum (x : option Z) : bool :=
  match x with
  | None => false
  | Some n => negb (n =? 0)
  end.

(** Truthiness of a [string | undefined]: the empty string is falsy. *)
Definition truthyStr (x : option string) : bool :=
  match x with
  | None => false
  | Some s => negb (String.eqb s "")
  end.

(** [arr.slice(-n)] for [n > 0]: the last [n] elements, all of them
    when the array is shorter. *)
Definition slice_last {A} (n : nat) (l : list A) : list A :=
  drop (length l - n)%nat l.

Definition lower_ascii (c : ascii) : ascii :=
  let n := nat_of_ascii c in
  if ((65 <=? n) && (n <=? 90))%nat then ascii_of_nat (n + 32) else c.

(** [s.toLowerCase()] on text whose cased letters are all in ASCII: the
    letters A to Z are mapped, every other byte is left as it is. It is
    also the folding that the URL parser applies to a host and that a
    regular expression with the flag [i] (and without [u]) applies to
    the ASCII letters of its pattern. *)
Fixpoint toLowerCase (s : string) : string :=
  match s with
  | EmptyString => EmptyString
  | String c s' => String (lower_ascii c) (toLowerCase s')
  end.

(** The white space and the line terminators of the language, which
    [String.prototype.trim] removes, by the number of bytes they take.
    One byte: TAB, LF, VT, FF, CR and space. *)
Definition is_js_space (c : ascii) : bool :=
  let n := nat_of_ascii c in
  (((9 <=? n) && (n <=? 13)) || (n =? 32))%nat.

(** Two bytes: U+00A0. *)
Definition isSpace2 (c1 c2 : ascii) : bool :=
  ((nat_of_ascii c1 =? 194) && (nat_of_ascii c2 =? 160))%nat.

(** Three bytes: U+1680, U+2000 to U+200A, U+2028, U+2029, U+202F,
    U+205F, U+3000 and U+FEFF. *)
Definition isSpace3 (c1 c2 c3 : ascii) : bool :=
  let a := nat_of_ascii c1 in
  let b := nat_of_ascii c2 in
  let c := nat_of_ascii c3 in
  (((a =? 225) && (b =? 154) && (c =? 128))
   || ((a =? 226) && (b =? 128)
       && (((128 <=? c) && (c <=? 138)) || (c =? 168) || (c =? 169) || (c =? 175)))
   || ((a =? 226) && (b =? 129) && (c =? 159))
   || ((a =? 227) && (b =? 128) && (c =? 128))
   || ((a =? 239) && (b =? 187) && (c =? 191)))%nat.

(** [s.trimStart()] *)
Fixpoint trimStart (s : string) : string :=
  match s with
  | EmptyString => EmptyString
  | String c1 r1 =>
      if is_js_space c1 then trimStart r1
      else
        match r1 with
        | EmptyString => s
        | String c2 r2 =>
            if isSpace2 c1 c2 then trimStart r2
            else
              match r2 with
              | EmptyString => s
              | String c3 r3 => if isSpace3 c1 c2 c3 then trimStart r3 else s
              end
        end
  end.

(** Nothing but white space. *)
Definition allSpace (s : string) : bool := String.eqb (trimStart s) "".

(** [s.trimEnd()]: the longest end of [s] that is white space goes. *)
Fixpoint trimEnd (s : string) : string :=
  match s with
  | EmptyString => EmptyString
  | String c s' => if allSpace s then EmptyString else String c (trimEnd s')
  end.

(** [s.trim()] *)
Definition trim (s : string) : string := trimEnd (trimStart s).

(** The number of UTF-16 units of the character that begins with the
    byte [c]: two beyond U+FFFF (a first byte of 240 or more), one
    otherwise, and none for a byte that continues a character. *)
Definition utf16Units (c : ascii) : nat :=
  let n := nat_of_ascii c in
  if (n <? 128)%nat then 1%nat
  else if (n <? 192)%nat then 0%nat
  else if (n <? 240)%nat then 1%nat
  else 2%nat.

(** [s.length] *)
Fixpoint jsLength (s : string) : nat :=
  match s with
  | EmptyString => 0%nat
  | String c s' => (utf16Units c + jsLength s')%nat
  end.

Definition byteAt (i : nat) (s : string) : nat :=
  match String.get i s with
  | Some c => nat_of_ascii c
  | None => 128%nat
  end.

(** The first half of the surrogate pair of the character whose four
    bytes are [c] and the start of [rest]: the number [0xD800 + top],
    [top] being the ten high bits of the code point less [0x10000],
    in three bytes. *)
Definition highSurrogate (c : ascii) (rest : string) : string :=
  let top := (((nat_of_ascii c mod 8) * 256 + (byteAt 0 rest mod 64) * 4
              + (byteAt 1 rest mod 64) / 16 - 64))%nat in
  String (ascii_of_nat 237)
    (String (ascii_of_nat (160 + (top / 64) mod 16))
       (String (ascii_of_nat (128 + top mod 64)) EmptyString)).

(** [s.substring(0, n)]: the first [n] units. When the cut falls
    inside a surrogate pair its first half stays. *)
Fixpoint substringTo (n : nat) (s : string) : string :=
  match s with
  | EmptyString => EmptyString
  | String c s' =>
      let w := utf16Units c in
      if (w <=? n)%nat then String c (substringTo (n - w) s')
      else if (n =? 1)%nat then highSurrogate c s'
      else EmptyString
  end.

(** [s] without its first [n] bytes. *)
Fixpoint dropS (n : nat) (s : string) : string :=
  match n, s with
  | O, _ => s
  | S n', String _ rest => dropS n' rest
  | S _, EmptyString => EmptyString
  end.

(** The number of bytes of the white space character that [s] begins
    with, [0] when it begins with none. *)
Definition spaceWidth (s : string) : nat :=
  match s with
  | EmptyString => 0%nat
  | String c1 r1 =>
      if is_js_space c1 then 1%nat
      else
        match r1 with
        | EmptyString => 0%nat
        | String c2 r2 =>
            if isSpace2 c1 c2 then 2%nat
            else
              match r2 with
              | EmptyString => 0%nat
              | String c3 _ => if isSpace3 c1 c2 c3 then 3%nat else 0%nat
              end
        end
  end.

(** A byte that can begin a white space character. *)
Definition spaceLead (c : ascii) : bool :=
  let n := nat_of_ascii c in
  (is_js_space c || (n =? 194) || (n =? 225) || (n =? 226) || (n =? 227)
   || (n =? 239))%nat.


Definition withinBMP (s : string) : bool :=
  forallb (fun c => (nat_of_ascii c <? 240)%nat) (list_ascii_of_string s).

(** The stripping of the URL parser, by a set of bytes. *)
Fixpoint stripStart (p : ascii → bool) (s : string) : string :=
  match s with
  | EmptyString => EmptyString
  | String c s' => if p c then stripStart p s' else s
  end.

Fixpoint stripEnd (p : ascii → bool) (s : string) : string :=
  match s with
  | EmptyString => EmptyString
  | String c s' =>
      match stripEnd p s' with
      | EmptyString => if p c then EmptyString else String c EmptyString
      | t => String c t
      end
  end.

(** ** [localStorage] and the effect monad *)

(** What a key of [localStorage] holds, as [JSON.parse] sees it: the
    array of records, the rate-limit entry, or text that does not
    parse. *)
Inductive Item :=
| UrlsJson (urls : list ShortenedUrl)
| RateJson (timestamps : list Z)
| Corrupt (text : string).

Record JsError := mkJsError {
  isDOMException : bool;
  errName : string
}.

Definition QuotaExceededError : JsError := mkJsError true "QuotaExceededError".
Definition SecurityError : JsError := mkJsError true "SecurityError".
Definition TypeError : JsError := mkJsError false "TypeError".

Inductive Outcome (A : Type) :=
| Returns (a : A)
| Throws (e : JsError).
Arguments Returns {A} a.
Arguments Throws {A} e.

(** A computation reads and writes [localStorage] and either returns or
    throws. *)
Definition M (A : Type) : Type := gmap string Item → Outcome A * gmap string Item.

#[export] Instance M_ret : MRet M := fun A (a : A) ls => (Returns a, ls).

#[export] Instance M_bind : MBind M := fun A B (k : A → M B) (m : M A) ls =>
  match m ls with
  | (Returns a, ls') => k a ls'
  | (Throws e, ls') => (Throws e, ls')
  end.

Definition throw {A} (e : JsError) : M A := fun ls => (Throws e, ls).

(** [try { m } catch (e) { h e }] *)
Definition try_catch {A} (m : M A) (h : JsError → M A) : M A :=
  fun ls =>
    match m ls with
    | (Returns a, ls') => (Returns a, ls')
    | (Throws e, ls') => h e ls'
    end.

Definition getItem (key : string) : M (option Item) :=
  fun ls => (Returns (ls !! key), ls).

(** [localStorage.setItem(key, value)]; with [fault = Some e] the call
    throws [e] and stores nothing. *)
Definition setItem (fault : option JsError) (key : string) (value : Item) : M unit :=
  fun ls =>
    match fault with
    | None => (Returns tt, <[key := value]> ls)
    | Some e => (Throws e, ls)
    end.

Definition result {A} (m : M A) (ls : gmap string Item) : Outcome A := fst (m ls).
Definition after {A} (m : M A) (ls : gmap string Item) : gmap string Item := snd (m ls).

(** ** Expiry predicate ([utils/urlShortener]) *)

Definition isExpired (now : Z) (expiresAt : option Z) : bool :=
  if negb (truthyNum expiresAt) then false
  else match expiresAt with
       | Some e => e <? now
       | None => false
       end.

(** ** Code generator ([utils/urlShortener]) *)

Definition BASE62_CHARS : string :=
  "abcdefghijklmnopqrstuvwxyzABCDEFGHIJKLMNOPQRSTUVWXYZ0123456789".

(** What one call of [generateShortCode] draws from its environment:
    the bytes [crypto.getRandomValues] writes into the array (taken
    modulo 256, the array being a [Uint8Array]) and the integer part of
    [timingEntropy = (performance.now() * 1000) % 62]. Since the random
    byte is an integer, [Math.floor((array[0] + timingEntropy) % 62)]
    depends on that integer part only. *)
Record Entropy := mkEntropy {
  randomByte : nat → Z;
  timingEntropy : Z
}.

(** [BASE62_CHARS[index]], appended to a string. *)
Definition base62At (index : Z) : string :=
  match String.get (Z.to_nat index) BASE62_CHARS with
  | Some c => String c EmptyString
  | None => "undefined"
  end.

Definition codeIndex (e : Entropy) (i : nat) : Z :=
  let byte := randomByte e i mod 256 in
  match i with
  | O => (byte + timingEntropy e mod 62) mod 62
  | S _ => byte mod 62
  end.

(** The loop of [generateShortCode], from position [i] for [n] more
    characters. *)
Fixpoint codeFrom (e : Entropy) (i n : nat) : string :=
  match n with
  | O => EmptyString
  | S n' => String.append (base62At (codeIndex e i)) (codeFrom e (S i) n')
  end.

(** [generateShortCode(length = 7)]; [None] is a call without
    argument. *)
Definition generateShortCode (e : Entropy) (length : option nat) : string :=
  codeFrom e 0 (default 7%nat length).

(** ** Storage layer ([utils/storage]) *)

Definition STORAGE_KEY : string := "sniplink_urls".
Definition RATE_LIMIT_KEY : string := "sniplink_rate_limit".
Definition RATE_LIMIT_WINDOW : Z := 60000.
Definition RATE_LIMIT_MAX : Z := 10.

(** The migration step of [loadUrls]: a missing (or empty)
    [normalizedUrl] is replaced by the lowercased original URL. An
    absent [clickHistory] is represented by the empty list, which is
    what the migration puts in its place. *)
Definition migrate (u : ShortenedUrl) : ShortenedUrl :=
  {| id := id u;
     originalUrl := originalUrl u;
     normalizedUrl :=
       if String.eqb (normalizedUrl u) "" then toLowerCase (originalUrl u)
       else normalizedUrl u;
     shortCode := shortCode u;
     customAlias := customAlias u;
     createdAt := createdAt u;
     expiresAt := expiresAt u;
     clicks := clicks u;
     clickHistory := clickHistory u;
     password := password u |}.

(** [loadUrls]: no data, data that does not parse and data that is not
    an array (its [map] call throws inside the [try]) all give [[]]. *)
Definition loadUrls : M (list ShortenedUrl) :=
  data ← getItem STORAGE_KEY;
  mret (match data with
        | Some (UrlsJson urls) => map migrate urls
        | Some (RateJson _) => []
        | Some (Corrupt _) => []
        | None => []
        end).

Definition isQuotaExceeded (e : JsError) : bool :=
  isDOMException e && String.eqb (errName e) "QuotaExceededError".

Definition gracePeriod : Z := 7 * 24 * 60 * 60 * 1000.

(** The filter callback of [cleanupExpiredUrls]. *)
Definition keepUrl (now : Z) (u : ShortenedUrl) : bool :=
  if negb (truthyNum (expiresAt u)) then true
  else match expiresAt u with
       | Some e =>
           let timeSinceExpiry := now - e in
           (now <? e) || (timeSinceExpiry <? gracePeriod)
       | None => true
       end.

Definition historyTooLong (u : ShortenedUrl) : bool :=
  (1000 <? length (clickHistory u))%nat.

(** The map callback of [cleanupExpiredUrls], without its counter. *)
Definition trimUrl (u : ShortenedUrl) : ShortenedUrl :=
  if historyTooLong u then
    {| id := id u;
       originalUrl := originalUrl u;
       normalizedUrl := normalizedUrl u;
       shortCode := shortCode u;
       customAlias := customAlias u;
       createdAt := createdAt u;
       expiresAt := expiresAt u;
       clicks := clicks u;
       clickHistory := slice_last 1000 (clickHistory u);
       password := password u |}
  else u.

Record CleanupResult := mkCleanupResult {
  removed : nat;
  trimmed : nat;
  urls : list ShortenedUrl
}.

(** [cleanupExpiredUrls] and [saveUrls] call each other. The body of
    [cleanupExpiredUrls] is written once, over the [saveUrls] it calls;
    [trimmedCount] is the number of times the map callback takes its
    trimming branch. *)
Definition cleanupExpiredUrls_with (now : Z)
    (saveUrls : list ShortenedUrl → M unit) : M CleanupResult :=
  all ← loadUrls;
  let active := List.filter (keepUrl now) all in
  let trimmedCount := length (List.filter historyTooLong active) in
  let trimmed := map trimUrl active in
  let removed := (length all - length active)%nat in
  (if (0 <? removed)%nat || (0 <? trimmedCount)%nat
   then saveUrls trimmed else mret tt);;
  mret {| removed := removed; trimmed := trimmedCount; urls := trimmed |}.

(** [saveUrls urls]. [faults] lists the exceptions thrown by the
    successive [localStorage.setItem(STORAGE_KEY, _)] attempts made
    during the call, the nested ones included; once the list is used up
    the write succeeds. A failed write is caught and logged; when it
    is a [QuotaExceededError] the handler runs [cleanupExpiredUrls],
    which may save in turn. Console output is not modelled. A run in
    which the writes never stop failing is not represented: there the
    two functions keep calling each other for as long as the sweep has
    something to remove or trim. *)
Fixpoint saveUrls (now : Z) (faults : list JsError)
    (urls : list ShortenedUrl) : M unit :=
  match faults with
  | [] => setItem None STORAGE_KEY (UrlsJson urls)
  | e :: rest =>
      try_catch (setItem (Some e) STORAGE_KEY (UrlsJson urls))
        (fun e =>
           if isQuotaExceeded e then
             cleanupExpiredUrls_with now (saveUrls now rest);; mret tt
           else mret tt)
  end.

Definition cleanupExpiredUrls (now : Z) (faults : list JsError) : M CleanupResult :=
  cleanupExpiredUrls_with now (saveUrls now faults).

Definition addUrl (now : Z) (faults : list JsError) (url : ShortenedUrl)
    : M (list ShortenedUrl) :=
  urls ← loadUrls;
  let urls := url :: urls in
  saveUrls now faults urls;;
  mret urls.

Definition deleteUrl (now : Z) (faults : list JsError) (target : string)
    : M (list ShortenedUrl) :=
  all ← loadUrls;
  let urls := List.filter (fun u => negb (String.eqb (id u) target)) all in
  saveUrls now faults urls;;
  mret urls.

Definition bulkDeleteUrls (now : Z) (faults : list JsError) (ids : gset string)
    : M (list ShortenedUrl) :=
  all ← loadUrls;
  let urls := List.filter (fun u => negb (bool_decide (id u ∈ ids))) all in
  saveUrls now faults urls;;
  mret urls.

(** What [incrementClicks] reads from [document] and [navigator]. *)
Record ClientInfo := mkClientInfo {
  ci_referrer : option string;
  ci_deviceType : DeviceType;
  ci_timezone : string;
  ci_userAgent : option string
}.

Definition recordClick (now : Z) (client : ClientInfo) (u : ShortenedUrl)
    : ShortenedUrl :=
  let clickEvent :=
    {| timestamp := now;
       referrer := ci_referrer client;
       deviceType := Some (ci_deviceType client);
       timezone := Some (ci_timezone client);
       userAgent := ci_userAgent client |} in
  {| id := id u;
     originalUrl := originalUrl u;
     normalizedUrl := normalizedUrl u;
     shortCode := shortCode u;
     customAlias := customAlias u;
     createdAt := createdAt u;
     expiresAt := expiresAt u;
     clicks := clicks u + 1;
     clickHistory := clickHistory u ++ [clickEvent];
     password := password u |}.

Definition incrementClicks (now : Z) (faults : list JsError)
    (client : ClientInfo) (target : string) : M (list ShortenedUrl) :=
  all ← loadUrls;
  let urls :=
    map (fun u => if String.eqb (id u) target then recordClick now client u else u)
        all in
  saveUrls now faults urls;;
  mret urls.

(** *** Uniqueness and deduplication *)

Definition isShortCodeUnique (code : string) : M bool :=
  urls ← loadUrls;
  mret (negb (existsb (fun u => String.eqb (shortCode u) code) urls)).

Definition findDuplicateUrl (normalized : string) : M (option ShortenedUrl) :=
  urls ← loadUrls;
  mret (List.find (fun u => String.eqb (normalizedUrl u) normalized) urls).

(** One [for] loop of [generateUniqueShortCode]: [n] more iterations,
    each calling the generator with the argument [len] ([None] for a
    call without argument). The generator is random; [generator k len]
    is what its [k]-th invocation returns, and the loop hands back the
    number of invocations made so far when it finds nothing. *)
Fixpoint retryLoop (generator : nat → option nat → string) (len : option nat)
    (n : nat) (k : nat) : M (string + nat) :=
  match n with
  | O => mret (inr k)
  | S n' =>
      let code := generator k len in
      free ← isShortCodeUnique code;
      if (free : bool) then mret (inl code)
      else retryLoop generator len n' (S k)
  end.

Definition generateUniqueShortCode (generator : nat → option nat → string)
    (maxRetries : nat) : M (option string) :=
  r1 ← retryLoop generator None maxRetries 0;
  match r1 with
  | inl code => mret (Some code)
  | inr k1 =>
      r2 ← retryLoop generator (Some 9%nat) 3 k1;
      match r2 with
      | inl longerCode => mret (Some longerCode)
      | inr k2 =>
          r3 ← retryLoop generator (Some 11%nat) 2 k2;
          match r3 with
          | inl evenLongerCode => mret (Some evenLongerCode)
          | inr _ => mret None
          end
      end
  end.

(** *** Rate limiting *)

(** The value [loadRateLimit] returns. [JSON.parse] is not checked
    against the type: when the key holds an array, the object has no
    [timestamps] property. *)
Record RateLimitEntry := mkRateLimitEntry {
  timestamps : option (list Z)
}.

Definition loadRateLimit : M RateLimitEntry :=
  data ← getItem RATE_LIMIT_KEY;
  mret (match data with
        | Some (RateJson ts) => {| timestamps := Some ts |}
        | Some (UrlsJson _) => {| timestamps := None |}
        | Some (Corrupt _) => {| timestamps := Some [] |}
        | None => {| timestamps := Some [] |}
        end).

(** [saveRateLimit] has no [try]: a failing write throws. *)
Definition saveRateLimit (fault : option JsError) (ts : list Z) : M unit :=
  setItem fault RATE_LIMIT_KEY (RateJson ts).

Record RateLimitStatus := mkRateLimitStatus {
  allowed : bool;
  remaining : Z;
  resetIn : Z;
  nextAvailable : option Z
}.

Definition inWindow (now : Z) (t : Z) : bool := now - t <? RATE_LIMIT_WINDOW.

(** [Math.ceil(x / 1000)] on integers. *)
Definition ceil_div (x d : Z) : Z := - ((- x) / d).

(** [Math.min(...recent)] for a non-empty array. *)
Definition Math_min (x : Z) (xs : list Z) : Z := fold_left Z.min xs x.

Definition checkRateLimit (now : Z) : M RateLimitStatus :=
  entry ← loadRateLimit;
  match timestamps entry with
  | None => throw TypeError
  | Some ts =>
      let recent := List.filter (inWindow now) ts in
      let allowed := Z.of_nat (length recent) <? RATE_LIMIT_MAX in
      let remaining := Z.max 0 (RATE_LIMIT_MAX - Z.of_nat (length recent)) in
      match recent with
      | [] =>
          mret {| allowed := allowed; remaining := remaining;
                  resetIn := 0; nextAvailable := None |}
      | t :: rest =>
          let oldestTimestamp := Math_min t rest in
          let resetIn := ceil_div (RATE_LIMIT_WINDOW - (now - oldestTimestamp)) 1000 in
          let nextAvailable :=
            if negb allowed && (Z.of_nat (length recent) =? RATE_LIMIT_MAX)
            then Some (oldestTimestamp + RATE_LIMIT_WINDOW) else None in
          mret {| allowed := allowed; remaining := remaining;
                  resetIn := resetIn; nextAvailable := nextAvailable |}
      end
  end.

Definition recordRateLimitHit (now : Z) (fault : option JsError) : M unit :=
  entry ← loadRateLimit;
  match timestamps entry with
  | None => throw TypeError
  | Some ts =>
      let recent := List.filter (inWindow now) ts in
      saveRateLimit fault (recent ++ [now])
  end.

(** ** The platform's [URL] and [URLSearchParams] objects

    [normalizeUrl] works on a [URL] object through its getters and
    setters. The object is modelled by the components of the URL
    Standard's URL record, with the serialized host and path. Strings
    stand for their UTF-8 bytes, which is what percent-encoding and
    percent-decoding work on. *)

Record URL := mkURL {
  url_scheme : string;
  url_username : string;
  url_password : string;
  url_host : option string;
  url_port : option N;
  url_path : string;
  url_opaque : bool;
  url_query : option string;
  url_fragment : option string
}.

Definition decimal (n : N) : string := NilZero.string_of_uint (N.to_uint n).

(** *** Getters *)

Definition protocol (u : URL) : string := url_scheme u +:+ ":".

Definition hostname (u : URL) : string := default "" (url_host u).

Definition port (u : URL) : string :=
  match url_port u with
  | Some n => decimal n
  | None => ""
  end.

Definition pathname (u : URL) : string := url_path u.

Fixpoint startsWith (prefix s : string) : bool :=
  match prefix, s with
  | EmptyString, _ => true
  | String a p, String b t => Ascii.eqb a b && startsWith p t
  | String _ _, EmptyString => false
  end.

(** The URL serializer, fragment included ([href], [toString()]). *)
Definition href (u : URL) : string :=
  let authority :=
    match url_host u with
    | Some h =>
        let credentials :=
          if String.eqb (url_username u) "" && String.eqb (url_password u) "" then ""
          else url_username u
               +:+ (if String.eqb (url_password u) "" then ""
                    else ":" +:+ url_password u)
               +:+ "@" in
        "//" +:+ credentials +:+ h
        +:+ match url_port u with
            | Some n => ":" +:+ decimal n
            | None => ""
            end
    | None =>
        if negb (url_opaque u) && startsWith "//" (url_path u) then "/." else ""
    end in
  url_scheme u +:+ ":" +:+ authority +:+ url_path u
  +:+ match url_query u with Some q => "?" +:+ q | None => "" end
  +:+ match url_fragment u with Some f => "#" +:+ f | None => "" end.

(** *** Percent-encoding *)

Definition hexDigit (n : nat) : ascii :=
  ascii_of_nat (if (n <? 10)%nat then 48 + n else 55 + n).

Definition percentEncodeByte (c : ascii) : string :=
  let n := nat_of_ascii c in
  String "%" (String (hexDigit (n / 16)) (String (hexDigit (n mod 16)) EmptyString)).

Definition hexValue (c : ascii) : option nat :=
  let n := nat_of_ascii c in
  if ((48 <=? n) && (n <=? 57))%nat then Some (n - 48)%nat
  else if ((65 <=? n) && (n <=? 70))%nat then Some (n - 55)%nat
  else if ((97 <=? n) && (n <=? 102))%nat then Some (n - 87)%nat
  else None.

Fixpoint percentDecode (s : string) : string :=
  match s with
  | EmptyString => EmptyString
  | String c rest =>
      match rest with
      | String h (String l rest') =>
          if Ascii.eqb c "%" then
            match hexValue h, hexValue l with
            | Some a, Some b =>
                String (ascii_of_nat (16 * a + b)) (percentDecode rest')
            | _, _ => String c (percentDecode rest)
            end
          else String c (percentDecode rest)
      | _ => String c (percentDecode rest)
      end
  end.

Definition isAlnum (c : ascii) : bool :=
  let n := nat_of_ascii c in
  (((48 <=? n) && (n <=? 57)) || ((65 <=? n) && (n <=? 90))
   || ((97 <=? n) && (n <=? 122)))%nat.

Definition isC0OrAbove7E (c : ascii) : bool :=
  let n := nat_of_ascii c in ((n <? 32) || (126 <? n))%nat.

Definition charIn (set : string) (c : ascii) : bool :=
  existsb (Ascii.eqb c) (list_ascii_of_string set).

Definition doubleQuote : ascii := ascii_of_nat 34.

(** The query percent-encode set of a special scheme, the path and the
    fragment percent-encode sets. *)
Definition inQuerySet (c : ascii) : bool :=
  isC0OrAbove7E c || Ascii.eqb c doubleQuote || charIn " #<>'" c.

Definition inPathSet (c : ascii) : bool :=
  isC0OrAbove7E c || Ascii.eqb c doubleQuote || charIn " #<>?^`{}" c.

Definition inFragmentSet (c : ascii) : bool :=
  isC0OrAbove7E c || Ascii.eqb c doubleQuote || charIn " <>`" c.

Fixpoint percentEncode (set : ascii → bool) (s : string) : string :=
  match s with
  | EmptyString => EmptyString
  | String c rest =>
      (if set c then percentEncodeByte c else String c EmptyString)
      +:+ percentEncode set rest
  end.

(** *** [URLSearchParams] *)

Fixpoint splitOn (sep : ascii) (s : string) : list string :=
  match s with
  | EmptyString => [EmptyString]
  | String c rest =>
      if Ascii.eqb c sep then EmptyString :: splitOn sep rest
      else match splitOn sep rest with
           | h :: t => String c h :: t
           | [] => [String c EmptyString]
           end
  end.

(** Name and value of one [name=value] sequence: split at the first
    [=]; without one the value is empty. *)
Fixpoint splitPair (s : string) : string * string :=
  match s with
  | EmptyString => (EmptyString, EmptyString)
  | String c rest =>
      if Ascii.eqb c "=" then (EmptyString, rest)
      else let (n, v) := splitPair rest in (String c n, v)
  end.

Fixpoint plusToSpace (s : string) : string :=
  match s with
  | EmptyString => EmptyString
  | String c rest => String (if Ascii.eqb c "+" then " "%char else c) (plusToSpace rest)
  end.

(** The [application/x-www-form-urlencoded] parser: the sequences
    between [&], the empty ones skipped. *)
Definition parseSequence (sequence : string) : list (string * string) :=
  if String.eqb sequence "" then []
  else let (n, v) := splitPair sequence in
       [(percentDecode (plusToSpace n), percentDecode (plusToSpace v))].

Definition parseParams (query : string) : list (string * string) :=
  flat_map parseSequence (splitOn "&" query).

Definition urlencodedSafe (c : ascii) : bool :=
  isAlnum c || charIn "*-._" c.

Fixpoint urlencodedSerialize (s : string) : string :=
  match s with
  | EmptyString => EmptyString
  | String c rest =>
      (if Ascii.eqb c " " then "+"
       else if urlencodedSafe c then String c EmptyString
       else percentEncodeByte c)
      +:+ urlencodedSerialize rest
  end.

(** [params.toString()] *)
Fixpoint serializeParams (l : list (string * string)) : string :=
  match l with
  | [] => EmptyString
  | (n, v) :: rest =>
      urlencodedSerialize n +:+ "=" +:+ urlencodedSerialize v
      +:+ match rest with
          | [] => EmptyString
          | _ :: _ => "&" +:+ serializeParams rest
          end
  end.

Definition searchParams (u : URL) : list (string * string) :=
  parseParams (default "" (url_query u)).

(** [Array.prototype.sort()] without a comparator, on [name, value]
    pairs: the elements are compared through their string conversion
    ["name,value"], by code units, and the sort is stable. *)
Definition entryKey (e : string * string) : string := fst e +:+ "," +:+ snd e.

Fixpoint insertEntry (e : string * string) (l : list (string * string))
    : list (string * string) :=
  match l with
  | [] => [e]
  | x :: rest =>
      if String.leb (entryKey e) (entryKey x) then e :: l
      else x :: insertEntry e rest
  end.

Fixpoint sortEntries (l : list (string * string)) : list (string * string) :=
  match l with
  | [] => []
  | e :: rest => insertEntry e (sortEntries rest)
  end.

(** *** Setters

    [normalizeUrl] only assigns values it has just read from the same
    object: the hostname in lower case, the pathname less one trailing
    slash, the serialized parameters. The host and path parsers read
    such a value back as it is, so these setters store it; the [search]
    setter runs the query encoder over its argument. A URL with an
    opaque path ignores [hostname] and [pathname]. *)

Definition set_hostname (v : string) (u : URL) : URL :=
  if url_opaque u then u
  else {| url_scheme := url_scheme u; url_username := url_username u;
          url_password := url_password u; url_host := Some v;
          url_port := url_port u; url_path := url_path u;
          url_opaque := url_opaque u; url_query := url_query u;
          url_fragment := url_fragment u |}.

(** [parsed.port = ''] *)
Definition clear_port (u : URL) : URL :=
  {| url_scheme := url_scheme u; url_username := url_username u;
     url_password := url_password u; url_host := url_host u;
     url_port := None; url_path := url_path u;
     url_opaque := url_opaque u; url_query := url_query u;
     url_fragment := url_fragment u |}.

(** [parsed.hash = ''] *)
Definition clear_hash (u : URL) : URL :=
  {| url_scheme := url_scheme u; url_username := url_username u;
     url_password := url_password u; url_host := url_host u;
     url_port := url_port u; url_path := url_path u;
     url_opaque := url_opaque u; url_query := url_query u;
     url_fragment := None |}.

Definition set_search (v : string) (u : URL) : URL :=
  let q :=
    match v with
    | EmptyString => None
    | String c rest =>
        Some (percentEncode inQuerySet (if Ascii.eqb c "?" then rest else v))
    end in
  {| url_scheme := url_scheme u; url_username := url_username u;
     url_password := url_password u; url_host := url_host u;
     url_port := url_port u; url_path := url_path u;
     url_opaque := url_opaque u; url_query := q;
     url_fragment := url_fragment u |}.

Definition set_pathname (v : string) (u : URL) : URL :=
  if url_opaque u then u
  else {| url_scheme := url_scheme u; url_username := url_username u;
          url_password := url_password u; url_host := url_host u;
          url_port := url_port u; url_path := v;
          url_opaque := url_opaque u; url_query := url_query u;
          url_fragment := url_fragment u |}.

(** ** URL normalization ([utils/urlShortener]) *)

Fixpoint endsWithSlash (s : string) : bool :=
  match s with
  | EmptyString => false
  | String c EmptyString => Ascii.eqb c "/"
  | String _ rest => endsWithSlash rest
  end.

(** [s.slice(0, -1)] *)
Fixpoint dropLast (s : string) : string :=
  match s with
  | EmptyString => EmptyString
  | String _ EmptyString => EmptyString
  | String c rest => String c (dropLast rest)
  end.

(** The body of the [try] block of [normalizeUrl], up to the final
    [toString]. A host name and a path of a parsed URL are in ASCII:
    the lower case of the one is the ASCII one, and the length of the
    other is its number of bytes. *)
Definition canonicalize (parsed : URL) : URL :=
  let parsed := set_hostname (toLowerCase (hostname parsed)) parsed in
  let parsed :=
    if (String.eqb (protocol parsed) "http:" && String.eqb (port parsed) "80")
       || (String.eqb (protocol parsed) "https:" && String.eqb (port parsed) "443")
    then clear_port parsed else parsed in
  let parsed := clear_hash parsed in
  let params := searchParams parsed in
  let sortedParams := sortEntries params in
  let parsed :=
    set_search
      (if negb (String.eqb (serializeParams sortedParams) "")
       then "?" +:+ serializeParams sortedParams else "")
      parsed in
  let path := pathname parsed in
  let path :=
    if (1 <? String.length path)%nat && endsWithSlash path
    then dropLast path else path in
  set_pathname path parsed.

Section Normalizer.

(** [new URL(url)]: the parsed URL, or [None] when the constructor
    throws. *)
Variable URL_new : string → option URL.

Definition normalizeUrl (url : string) : string :=
  match URL_new url with
  | Some parsed => href (canonicalize parsed)
  | None => trim (toLowerCase url)
  end.

End Normalizer.

(** ** A URL parser for the concrete checks

    [parseURL] follows the basic URL parser of the URL Standard (no base
    URL) on the URLs the registry deals with: a special scheme other
    than [file] ([http], [https], [ws], [wss], [ftp]), no credentials,
    and a host that is a plain ASCII domain name (no percent escapes,
    no IP literal, no number as last label, no [xn--] label). It
    answers [None] both where the Standard fails and where the input
    leaves this fragment; the concrete checks below only use inputs
    inside it or inputs without any scheme. *)

Fixpoint spanS (p : ascii → bool) (s : string) : string * string :=
  match s with
  | EmptyString => (EmptyString, EmptyString)
  | String c rest =>
      if p c then let (a, b) := spanS p rest in (String c a, b)
      else (EmptyString, s)
  end.

Fixpoint filterS (p : ascii → bool) (s : string) : string :=
  match s with
  | EmptyString => EmptyString
  | String c rest => if p c then String c (filterS p rest) else filterS p rest
  end.

Fixpoint allS (p : ascii → bool) (s : string) : bool :=
  match s with
  | EmptyString => true
  | String c rest => p c && allS p rest
  end.

Fixpoint splitWhere (p : ascii → bool) (s : string) : list string :=
  match s with
  | EmptyString => [EmptyString]
  | String c rest =>
      if p c then EmptyString :: splitWhere p rest
      else match splitWhere p rest with
           | h :: t => String c h :: t
           | [] => [String c EmptyString]
           end
  end.

Definition backslash : ascii := ascii_of_nat 92.

Definition isC0OrSpace (c : ascii) : bool := (nat_of_ascii c <=? 32)%nat.

Definition isTabOrNewline (c : ascii) : bool :=
  let n := nat_of_ascii c in ((n =? 9) || (n =? 10) || (n =? 13))%nat.

Definition isAlpha (c : ascii) : bool :=
  let n := nat_of_ascii c in
  (((65 <=? n) && (n <=? 90)) || ((97 <=? n) && (n <=? 122)))%nat.

Definition isDigit (c : ascii) : bool :=
  let n := nat_of_ascii c in ((48 <=? n) && (n <=? 57))%nat.

Definition isHexDigit (c : ascii) : bool :=
  match hexValue c with Some _ => true | None => false end.

Definition defaultPort (scheme : string) : option N :=
  if String.eqb scheme "http" then Some 80%N
  else if String.eqb scheme "https" then Some 443%N
  else if String.eqb scheme "ws" then Some 80%N
  else if String.eqb scheme "wss" then Some 443%N
  else if String.eqb scheme "ftp" then Some 21%N
  else None.

Definition parseScheme (s : string) : option (string * string) :=
  match s with
  | String c _ =>
      if isAlpha c then
        let (scheme, rest) := spanS (fun c => isAlnum c || charIn "+-." c) s in
        match rest with
        | String colon rest' =>
            if Ascii.eqb colon ":" then Some (toLowerCase scheme, rest') else None
        | EmptyString => None
        end
      else None
  | EmptyString => None
  end.

(** A character allowed in the domain names of the fragment: printable
    ASCII that is neither a forbidden domain code point nor [%]. *)
Definition isDomainChar (c : ascii) : bool :=
  let n := nat_of_ascii c in
  ((32 <? n) && (n <? 127))%nat
  && negb (charIn "#/:<>?@[]^|%" c || Ascii.eqb c backslash).

Definition endsInNumber (host : string) : bool :=
  let labels := splitOn "." host in
  let labels :=
    match rev labels with
    | EmptyString :: (_ :: _) as others => others
    | l => l
    end in
  match labels with
  | last :: _ =>
      (negb (String.eqb last "") && allS isDigit last)
      || match last with
         | String z (String x digits) =>
             Ascii.eqb z "0" && (Ascii.eqb x "x" || Ascii.eqb x "X")
             && allS isHexDigit digits
         | _ => false
         end
  | [] => false
  end.

Definition parseHost (input : string) : option string :=
  let host := toLowerCase input in
  if String.eqb host "" then None
  else if negb (allS isDomainChar host) then None
  else if endsInNumber host then None
  else if existsb (startsWith "xn--") (splitOn "." host) then None
  else Some host.

Fixpoint digitsValue (acc : N) (s : string) : N :=
  match s with
  | EmptyString => acc
  | String c rest => digitsValue (10 * acc + N.of_nat (nat_of_ascii c - 48)) rest
  end.

(** The port state: [None] is a failure, [Some None] no port (or the
    default one of the scheme). *)
Definition parsePort (scheme : string) (digits : string) : option (option N) :=
  if negb (allS isDigit digits) then None
  else if String.eqb digits "" then Some None
  else
    let n := digitsValue 0 digits in
    if (65535 <? n)%N then None
    else if bool_decide (Some n = defaultPort scheme) then Some None
    else Some (Some n).

Definition isSingleDot (segment : string) : bool :=
  let s := toLowerCase segment in
  String.eqb s "." || String.eqb s "%2e".

Definition isDoubleDot (segment : string) : bool :=
  let s := toLowerCase segment in
  String.eqb s ".." || String.eqb s ".%2e" || String.eqb s "%2e."
  || String.eqb s "%2e%2e".

(** The path state over the segments of the input, the path so far
    being kept in reverse. The last segment is the one that is not
    followed by a slash. *)
Fixpoint pathState (segments : list string) (path : list string) : list string :=
  match segments with
  | [] => rev path
  | [s] =>
      let buffer := percentEncode inPathSet s in
      if isDoubleDot buffer then rev (EmptyString :: tail path)
      else if isSingleDot buffer then rev (EmptyString :: path)
      else rev (buffer :: path)
  | s :: rest =>
      let buffer := percentEncode inPathSet s in
      if isDoubleDot buffer then pathState rest (tail path)
      else if isSingleDot buffer then pathState rest path
      else pathState rest (buffer :: path)
  end.

Definition isSlash (c : ascii) : bool :=
  Ascii.eqb c "/" || Ascii.eqb c backslash.

(** The path serializer. *)
Fixpoint joinPath (segments : list string) : string :=
  match segments with
  | [] => EmptyString
  | segment :: rest => String "/" (segment +:+ joinPath rest)
  end.

Definition parsePath (input : string) : string :=
  let input :=
    match input with
    | String c rest => if isSlash c then rest else input
    | EmptyString => input
    end in
  joinPath (pathState (splitWhere isSlash input) []).

Definition parseURL (input : string) : option URL :=
  let input :=
    filterS (fun c => negb (isTabOrNewline c))
            (stripEnd isC0OrSpace (stripStart isC0OrSpace input)) in
  match parseScheme input with
  | None => None
  | Some (scheme, rest) =>
      match defaultPort scheme with
      | None => None
      | Some _ =>
          let rest := stripStart isSlash rest in
          let (authority, rest) :=
            spanS (fun c => negb (isSlash c || charIn "?#" c)) rest in
          if negb (allS (fun c => negb (Ascii.eqb c "@")) authority) then None
          else
            let (hostPart, portPart) :=
              spanS (fun c => negb (Ascii.eqb c ":")) authority in
            match parseHost hostPart,
                  parsePort scheme
                    (match portPart with String _ d => d | EmptyString => EmptyString end)
            with
            | Some host, Some port =>
                let (pathPart, rest) := spanS (fun c => negb (charIn "?#" c)) rest in
                let (queryPart, fragmentPart) :=
                  spanS (fun c => negb (Ascii.eqb c "#")) rest in
                Some {| url_scheme := scheme;
                        url_username := EmptyString;
                        url_password := EmptyString;
                        url_host := Some host;
                        url_port := port;
                        url_path := parsePath pathPart;
                        url_opaque := false;
                        url_query :=
                          match queryPart with
                          | String _ q => Some (percentEncode inQuerySet q)
                          | EmptyString => None
                          end;
                        url_fragment :=
                          match fragmentPart with
                          | String _ f => Some (percentEncode inFragmentSet f)
                          | EmptyString => None
                          end |}
            | _, _ => None
            end
      end
  end.

(** ** Auxiliary notions for the normalizer *)

(** A string that does not start with a character of [p]. *)
Definition cleanStart (p : ascii → bool) (s : string) : Prop :=
  match s with
  | EmptyString => True
  | String c _ => p c = false
  end.

(** What [urlencodedSerialize] writes for one byte. *)
Definition urlencodedByte (c : ascii) : string :=
  if Ascii.eqb c " " then "+"
  else if urlencodedSafe c then String c EmptyString
  else percentEncodeByte c.

(** The serialization of one pair. *)
Definition serializedPair (n v : string) : string :=
  urlencodedSerialize n +:+ "=" +:+ urlencodedSerialize v.

(** The characters [serializeParams] can write. *)
Definition isParamChar (c : ascii) : bool :=
  urlencodedSafe c || charIn "+%=&" c.




(** The pathname [normalizeUrl] writes back. *)
Definition stripSlash (path : string) : string :=
  if (1 <? String.length path)%nat && endsWithSlash path
  then dropLast path else path.

(** The query [normalizeUrl] leaves: the parameters sorted and
    serialized again, no query at all when nothing is left. *)
Definition normalQuery (query : option string) : option string :=
  let s := serializeParams (sortEntries (parseParams (default "" query))) in
  if String.eqb s "" then None else Some s.

(** The test that makes [normalizeUrl] clear the port. *)
Definition hasDefaultPort (u : URL) : bool :=
  (String.eqb (protocol u) "http:" && String.eqb (port u) "80")
  || (String.eqb (protocol u) "https:" && String.eqb (port u) "443").

(** ** Alias validation and protocol prefix ([utils/urlShortener]) *)

(** [/^[a-zA-Z0-9_-]{3,30}$/] *)
Definition isValidAlias (alias : string) : bool :=
  (3 <=? String.length alias)%nat && (String.length alias <=? 30)%nat
  && allS (fun c => isAlnum c || charIn "_-" c) alias.

(** The test [/^https?:\/\//i]: with the flag [i], and without [u], a
    letter of the pattern matches its two ASCII forms and no other
    character. *)
Definition hasHttpPrefix (s : string) : bool :=
  startsWith "http://" (toLowerCase s) || startsWith "https://" (toLowerCase s).

Definition ensureProtocol (url : string) : string :=
  let trimmed := trim url in
  if String.eqb trimmed "" then trimmed
  else if negb (hasHttpPrefix trimmed) then "https://" +:+ trimmed
  else trimmed.

(** ** The creation handler ([src/components/ShortenForm.tsx]) *)

(** The state of the form that [handleSubmit] and its timer callback
    read. *)
Record FormState := mkFormState {
  form_url : string;
  form_customAlias : string;
  form_useCustomAlias : bool;
  form_expiration : string;
  form_duplicate : option ShortenedUrl;
  form_password : string;
  form_usePassword : bool
}.

Definition getExpirationTime (now : Z) (expiration : string) : option Z :=
  if String.eqb expiration "1h" then Some (now + 3600000)
  else if String.eqb expiration "24h" then Some (now + 86400000)
  else if String.eqb expiration "7d" then Some (now + 604800000)
  else if String.eqb expiration "30d" then Some (now + 2592000000)
  else None.

(** What [handleSubmit] has settled when it arms the timer. *)
Record Pending := mkPending {
  pending_finalUrl : string;
  pending_normalized : string;
  pending_shortCode : string
}.

Inductive SubmitOutcome :=
| RateLimited (status : RateLimitStatus)
| EmptyUrl
| InvalidUrl
| SelfReference
| DuplicateShown (existing : ShortenedUrl)
| AliasInvalid
| AliasTaken
| GenerationFailed
| Creating (pending : Pending).

Section ShortenForm.

(** [new URL(_)], and the two URL checks of [utils/urlShortener] that
    are not modelled: [isValidUrl] and [isSelfReferencing] (the
    latter reads [window.location]). *)
Variable URL_new : string → option URL.
Variable isValidUrl : string → bool.
Variable isSelfReferencing : string → bool.

(** [handleSubmit], up to the point where it sets [isCreating] and
    arms the timer. [generateShortCode] is passed as the generator:
    [entropy k] is what its [k]-th call draws. *)
Definition handleSubmit (now : Z) (entropy : nat → Entropy) (form : FormState)
    : M SubmitOutcome :=
  rateLimit ← checkRateLimit now;
  if negb (allowed rateLimit) then mret (RateLimited rateLimit)
  else
    let trimmedUrl := trim (form_url form) in
    if String.eqb trimmedUrl "" then mret EmptyUrl
    else
      let finalUrl := ensureProtocol trimmedUrl in
      if negb (isValidUrl finalUrl) then mret InvalidUrl
      else if isSelfReferencing finalUrl then mret SelfReference
      else
        let normalized := normalizeUrl URL_new finalUrl in
        existingUrl ← findDuplicateUrl normalized;
        match existingUrl, form_duplicate form with
        | Some existing, None => mret (DuplicateShown existing)
        | _, _ =>
            if form_useCustomAlias form
               && negb (String.eqb (trim (form_customAlias form)) "")
            then
              let alias := trim (form_customAlias form) in
              if negb (isValidAlias alias) then mret AliasInvalid
              else
                free ← isShortCodeUnique alias;
                if negb free then mret AliasTaken
                else mret (Creating {| pending_finalUrl := finalUrl;
                                       pending_normalized := normalized;
                                       pending_shortCode := alias |})
            else
              generated ←
                generateUniqueShortCode
                  (fun k => generateShortCode (entropy k)) 5;
              if negb (truthyStr generated) then mret GenerationFailed
              else mret (Creating {| pending_finalUrl := finalUrl;
                                     pending_normalized := normalized;
                                     pending_shortCode := default "" generated |})
        end.

End ShortenForm.

(** The record the timer callback builds; [uuid] is what
    [crypto.randomUUID()] returns. *)
Definition newUrl (now : Z) (uuid : string) (form : FormState) (p : Pending)
    : ShortenedUrl :=
  {| id := uuid;
     originalUrl := pending_finalUrl p;
     normalizedUrl := pending_normalized p;
     shortCode := pending_shortCode p;
     customAlias :=
       if form_useCustomAlias form then Some (trim (form_customAlias form))
       else None;
     createdAt := now;
     expiresAt := getExpirationTime now (form_expiration form);
     clicks := 0;
     clickHistory := [];
     password :=
       if form_usePassword form && negb (String.eqb (trim (form_password form)) "")
       then Some (trim (form_password form)) else None |}.

(** The timer callback of [handleSubmit], 400 ms later. *)
Definition createUrl (now : Z) (faults : list JsError) (fault : option JsError)
    (uuid : string) (form : FormState) (p : Pending)
    : M (ShortenedUrl * list ShortenedUrl) :=
  let url := newUrl now uuid form p in
  updatedUrls ← addUrl now faults url;
  recordRateLimitHit now fault;;
  mret (url, updatedUrls).

(** ** Pure readings of the storage layer *)

(** The list [loadUrls] returns for a given [localStorage]. *)
Definition urlsOf (ls : gmap string Item) : list ShortenedUrl :=
  match ls !! STORAGE_KEY with
  | Some (UrlsJson urls) => map migrate urls
  | _ => []
  end.

(** What a sweep makes of a list of records. *)
Definition sweepList (now : Z) (all : list ShortenedUrl) : list ShortenedUrl :=
  map trimUrl (List.filter (keepUrl now) all).

Definition sweepChanges (now : Z) (all : list ShortenedUrl) : bool :=
  (0 <? length all - length (List.filter (keepUrl now) all))%nat
  || (0 <? length (List.filter historyTooLong (List.filter (keepUrl now) all)))%nat.

Definition sweepResult (now : Z) (all : list ShortenedUrl) : CleanupResult :=
  {| removed := (length all - length (List.filter (keepUrl now) all))%nat;
     trimmed := length (List.filter historyTooLong (List.filter (keepUrl now) all));
     urls := sweepList now all |}.

(** ** Reference predicates of the lifecycle contract *)

(** Past the grace period: an expiry that is set (neither [null] nor
    [0]) and lies at least [gracePeriod] back. *)
Definition pastGrace (now : Z) (u : ShortenedUrl) : bool :=
  match expiresAt u with
  | Some e => negb (e =? 0) && (gracePeriod <=? now - e)
  | None => false
  end.

(** The same with the strict comparison [now - expiresAt > gracePeriod]. *)
Definition exceedsGrace (now : Z) (u : ShortenedUrl) : bool :=
  match expiresAt u with
  | Some e => gracePeriod <? now - e
  | None => false
  end.

(** [u'] is [u] after history trimming: every field but [clickHistory]
    is the same; a history of more than 1000 events is cut down to its
    last 1000, in order, and a shorter one is left alone. *)
Definition trimmedCopy (u u' : ShortenedUrl) : Prop :=
  id u' = id u ∧ originalUrl u' = originalUrl u
  ∧ normalizedUrl u' = normalizedUrl u ∧ shortCode u' = shortCode u
  ∧ customAlias u' = customAlias u ∧ createdAt u' = createdAt u
  ∧ expiresAt u' = expiresAt u ∧ password u' = password u
  ∧ clicks u' = clicks u
  ∧ if historyTooLong u
    then (∃ older, clickHistory u = older ++ clickHistory u')
         ∧ length (clickHistory u') = 1000%nat
    else u' = u.

(** ** Sample data for the concrete checks *)

Definition sampleUrl (ident code : string) (alias : option string)
    (expires : option Z) (history : list ClickEvent) : ShortenedUrl :=
  {| id := ident;
     originalUrl := "https://example.com/page";
     normalizedUrl := "https://example.com/page";
     shortCode := code;
     customAlias := alias;
     createdAt := 1000;
     expiresAt := expires;
     clicks := Z.of_nat (length history);
     clickHistory := history;
     password := None |}.

Definition storeOf (l : list ShortenedUrl) : gmap string Item :=
  {[ STORAGE_KEY := UrlsJson l ]}.

(** [n] click events with the timestamps [0], [1], ... *)
Definition sampleHistory (n : nat) : list ClickEvent :=
  map (fun i => {| timestamp := Z.of_nat i; referrer := None;
                   deviceType := Some desktop; timezone := Some "UTC";
                   userAgent := None |})
      (seq 0 n).

(** ** Reference definitions for the allocator and the rate limiter *)

(** [code] is carried by no record of the store. *)
Definition codeFree (ls : gmap string Item) (code : string) : bool :=
  negb (existsb (fun u => String.eqb (shortCode u) code) (urlsOf ls)).

(** One tier of the escalation: [count] attempts asking for [len],
    the first of them being invocation number [start] of the
    generator. *)
Definition tier (generator : nat → option nat → string) (len : option nat)
    (count start : nat) : list string :=
  map (fun i => generator (start + i)%nat len) (seq 0 count).

(** The attempts of the allocation policy, in order: five of the
    default length, three of length 9, two of length 11. *)
Definition attempts (generator : nat → option nat → string) : list string :=
  tier generator None 5 0
  ++ tier generator (Some 9%nat) 3 5
  ++ tier generator (Some 11%nat) 2 8.

(** [check(); record()] at each of the given times, in order, every
    write succeeding; the answers of the checks. *)
Fixpoint checkAndRecord (times : list Z) : M (list RateLimitStatus) :=
  match times with
  | [] => mret []
  | t :: rest =>
      s ← checkRateLimit t;
      recordRateLimitHit t None;;
      ss ← checkAndRecord rest;
      mret (s :: ss)
  end.

(** The window [loadRateLimit] reads. *)
Definition windowOf (ls : gmap string Item) : option (list Z) :=
  match ls !! RATE_LIMIT_KEY with
  | Some (RateJson ts) => Some ts
  | Some (UrlsJson _) => None
  | _ => Some []
  end.

(** ** The application as a transition system

    The state is [localStorage] and the creations that wait for their
    timers. A mounted form has one at most, since its submit button is
    disabled while [isCreating] is set. The timer is not cleared when
    the form goes, though: [App] renders [ShortenForm] on the tab
    [shorten] only, and a form that comes back starts with [isCreating]
    unset; and a second tab of the browser works on the same
    [localStorage]. So several creations can be under way, and
    [creating] lists them. Every other operation can run at any time.
    The URL checks made before the allocation are left open
    ([isValidUrl] and [isSelfReferencing] are arbitrary), as are the
    clock, the random draws and the write failures of each step. *)

Record AppState := mkAppState {
  storage : gmap string Item;
  creating : list (FormState * Pending)
}.

Inductive step : AppState → AppState → Prop :=
| step_submit URL_new isValidUrl isSelfReferencing now entropy form ls outcome ls' c :
    handleSubmit URL_new isValidUrl isSelfReferencing now entropy form ls
      = (Returns outcome, ls') →
    step {| storage := ls; creating := c |}
         {| storage := ls';
            creating := match outcome with
                        | Creating p => (form, p) :: c
                        | _ => c
                        end |}
| step_create now faults fault uuid form p ls earlier later :
    step {| storage := ls; creating := earlier ++ (form, p) :: later |}
         {| storage := after (createUrl now faults fault uuid form p) ls;
            creating := earlier ++ later |}
| step_delete now faults target ls c :
    step {| storage := ls; creating := c |}
         {| storage := after (deleteUrl now faults target) ls; creating := c |}
| step_bulkDelete now faults ids ls c :
    step {| storage := ls; creating := c |}
         {| storage := after (bulkDeleteUrls now faults ids) ls; creating := c |}
| step_visit now faults client target ls c :
    step {| storage := ls; creating := c |}
         {| storage := after (incrementClicks now faults client target) ls;
            creating := c |}
| step_sweep now faults ls c :
    step {| storage := ls; creating := c |}
         {| storage := after (cleanupExpiredUrls now faults) ls; creating := c |}.

(** The states reachable from a store without records. *)
Inductive reachable : AppState → Prop :=
| reachable_init ls :
    urlsOf ls = [] → reachable {| storage := ls; creating := [] |}
| reachable_step st st' :
    reachable st → step st st' → reachable st'.







(** A form filled in with an alias, and the creation it leads to. *)
Definition sampleForm : FormState :=
  {| form_url := "https://example.com/page";
     form_customAlias := "my-link";
     form_useCustomAlias := true;
     form_expiration := "7d";
     form_duplicate := None;
     form_password := "";
     form_usePassword := false |}.

Definition samplePending : Pending :=
  {| pending_finalUrl := "https://example.com/page";
     pending_normalized := "https://example.com/page";
     pending_shortCode := "my-link" |}.

Definition sampleState : AppState :=
  {| storage := after (createUrl 2000 [] None "uuid-1" sampleForm samplePending) ∅;
     creating := [] |}.








(** A character the parser neither strips nor removes from its input. *)
Definition visible (c : ascii) : bool :=
  negb (isC0OrSpace c) && negb (isTabOrNewline c).



(** A URL of the parser's fragment: a special scheme, no credentials,
    a host, no fragment; and the two optional parts of its
    serialization. *)
Definition specialUrl (scheme h : string) (port : option N) (path : string)
    (query : option string) : URL :=
  {| url_scheme := scheme; url_username := ""; url_password := "";
     url_host := Some h; url_port := port; url_path := path;
     url_opaque := false; url_query := query; url_fragment := None |}.




(** * Further parts of the code: display helpers, validation, the hash
    route, statistics, the list view and the toasts *)

(** ** Display helpers ([utils/urlShortener]) *)

(** String conversion of an integer-valued number, in the range where
    JavaScript writes all its digits (below [1e21]). *)
Definition numberToString (n : Z) : string :=
  if n <? 0 then "-" +:+ decimal (Z.to_N (- n)) else decimal (Z.to_N n).

(** [formatUrl(url, maxLength = 60)]; [None] is a call without the
    second argument, and [maxLength] is an integer. [substring] takes
    a negative end for [0]. *)
Definition formatUrl (url : string) (maxLength : option Z) : string :=
  let maxLength := default 60 maxLength in
  if maxLength <? Z.of_nat (jsLength url)
  then substringTo (Z.to_nat (maxLength - 3)) url +:+ "..."
  else url.

Section Display.

(** [new Date(timestamp).toLocaleDateString()], which depends on the
    locale and the time zone of the browser. *)
Variable toLocaleDateString : Z → string.

(** [Math.floor(x / d)] for a positive [d] is the quotient [x / d] of
    [Z], which rounds down. *)
Definition getTimeAgo (now : Z) (timestamp : Z) : string :=
  let seconds := (now - timestamp) / 1000 in
  if seconds <? 10 then "just now"
  else if seconds <? 60 then numberToString seconds +:+ "s ago"
  else
    let minutes := seconds / 60 in
    if minutes <? 60 then numberToString minutes +:+ "m ago"
    else
      let hours := minutes / 60 in
      if hours <? 24 then numberToString hours +:+ "h ago"
      else
        let days := hours / 24 in
        if days <? 7 then numberToString days +:+ "d ago"
        else if days <? 30 then numberToString (days / 7) +:+ "w ago"
        else toLocaleDateString timestamp.

End Display.

(** [isExpiringSoon] reads the clock twice: [now] is the first reading
    and [now'] the second. *)
Definition isExpiringSoon (now now' : Z) (expiresAt : option Z) : bool :=
  if negb (truthyNum expiresAt) then false
  else match expiresAt with
       | Some e =>
           let oneHour := 3600000 in
           (now <? e) && (e - now' <? oneHour)
       | None => false
       end.

Definition getTimeRemaining (now : Z) (expiresAt : option Z) : string :=
  if negb (truthyNum expiresAt) then "Never"
  else match expiresAt with
       | Some e =>
           let diff := e - now in
           if diff <=? 0 then "Expired"
           else
             let minutes := diff / 60000 in
             if minutes <? 60 then numberToString minutes +:+ "m left"
             else
               let hours := minutes / 60 in
               if hours <? 24 then numberToString hours +:+ "h left"
               else
                 let days := hours / 24 in
                 numberToString days +:+ "d left"
       | None => "Never"
       end.

(** ** URL validation ([utils/urlShortener]) *)

(** Some suffix of [s] satisfies [p]: a search that is not anchored. *)
Fixpoint existsSuffix (p : string → bool) (s : string) : bool :=
  p s
  || match s with
     | EmptyString => false
     | String _ rest => existsSuffix p rest
     end.

(** [s.includes(needle)] *)
Definition includes (s needle : string) : bool :=
  existsSuffix (startsWith needle) s.

Definition suspiciousKeywords : list string :=
  ["phishing"; "malware"; "virus"; "hack"; "crack";
   "keygen"; "warez"; "torrent-illegal"].

(** [/xn--[a-z0-9]{20,}/i] matching at the start of [s]: with the flag
    [i], and without [u], the ASCII letters of either case match and
    no other character does. *)
Definition punycodeAt (s : string) : bool :=
  startsWith "xn--" (toLowerCase s)
  && (20 <=? String.length (fst (spanS isAlnum (dropS 4 s))))%nat.

(** [/^(\d{1,3}\.){3}\d{1,3}$/]: four groups of one to three digits
    with dots between them. *)
Definition ipPattern (h : string) : bool :=
  let groups := splitOn "." h in
  (length groups =? 4)%nat
  && forallb (fun g => (1 <=? String.length g)%nat && (String.length g <=? 3)%nat
                       && allS isDigit g) groups.

Section Validation.

(** [new URL(url)]: the parsed URL, or [None] when the constructor
    throws. *)
Variable URL_new : string → option URL.

(** [String.prototype.toLowerCase] of the platform, with its case
    table for the letters outside ASCII. *)
Variable String_toLowerCase : string → string.

Definition containsSuspiciousPatterns (url : string) : bool :=
  let lowerUrl := String_toLowerCase url in
  if existsb (fun keyword => includes lowerUrl keyword) suspiciousKeywords then true
  else
    match URL_new url with
    | None => false
    | Some parsed =>
        let subdomains := splitOn "." (hostname parsed) in
        if (5 <? length subdomains)%nat then true
        else
          let punycode := includes url "xn--" in
          if punycode then
            let suspiciousPunycode := existsSuffix punycodeAt url in
            if suspiciousPunycode then true else false
          else false
    end.

Definition isValidUrl (url : string) : bool :=
  if (2000 <? jsLength url)%nat then false
  else
    match URL_new url with
    | None => false
    | Some parsed =>
        let allowedProtocols := ["http:"; "https:"; "ftp:"] in
        if negb (existsb (String.eqb (protocol parsed)) allowedProtocols) then false
        else if negb (includes (hostname parsed) ".")
                && negb (String.eqb (hostname parsed) "localhost") then false
        else if containsSuspiciousPatterns url then false
        else if ipPattern (hostname parsed)
                && (negb (startsWith "127." (hostname parsed))
                    && negb (startsWith "192.168." (hostname parsed))) then false
        else
          let domainParts := splitOn "." (hostname parsed) in
          if existsb (fun part => (jsLength part =? 0)%nat
                                  || (63 <? jsLength part)%nat) domainParts
          then false
          else true
    end.

(** [hostname.replace(/^www\./, '')] on the parsed URL, the argument
    itself when it does not parse. *)
Definition extractDomain (url : string) : string :=
  match URL_new url with
  | Some parsed =>
      if startsWith "www." (hostname parsed) then dropS 4 (hostname parsed)
      else hostname parsed
  | None => url
  end.

End Validation.

(** ** Short links and the hash route *)

(** What the helpers read from [window.location]. *)
Record Location := mkLocation {
  loc_origin : string;
  loc_pathname : string
}.

(** [getBaseUrl]; [None] is an environment without [window]. The
    replacement [/\/$/] removes one slash at the end. *)
Definition getBaseUrl (location : option Location) : string :=
  match location with
  | Some l =>
      loc_origin l
      +:+ (if endsWithSlash (loc_pathname l) then dropLast (loc_pathname l)
           else loc_pathname l)
  | None => "https://sniplink.app"
  end.

Definition getFullShortUrl (location : option Location) (code : string) : string :=
  getBaseUrl location +:+ "#/s/" +:+ code.

(** The line terminators, which [.] does not match: LF, CR, and the
    UTF-8 forms of U+2028 and U+2029. *)
Definition lineSeparator : string :=
  String (ascii_of_nat 226) (String (ascii_of_nat 128) (String (ascii_of_nat 168) "")).

Definition paragraphSeparator : string :=
  String (ascii_of_nat 226) (String (ascii_of_nat 128) (String (ascii_of_nat 169) "")).

Definition hasLineTerminator (s : string) : bool :=
  includes s (String (ascii_of_nat 10) "") || includes s (String (ascii_of_nat 13) "")
  || includes s lineSeparator || includes s paragraphSeparator.

(** [parseShortCode] of [App], on the value of [window.location.hash]:
    the match of [/^#\/s\/(.+)$/]. *)
Definition parseShortCode (hash : string) : option string :=
  if startsWith "#/s/" hash
     && negb (String.eqb (dropS 4 hash) "")
     && negb (hasLineTerminator (dropS 4 hash))
  then Some (dropS 4 hash) else None.

(** [location.hash] of a parsed URL: the fragment behind a [#], empty
    when there is no fragment or an empty one. *)
Definition locationHash (u : URL) : string :=
  match url_fragment u with
  | Some f => if String.eqb f "" then "" else "#" +:+ f
  | None => ""
  end.

(** The redirect state of [App]. *)
Inductive RedirectState :=
| RedirectNone
| Redirecting (url : ShortenedUrl) (code : string)
| NotFound (code : string)
| Expired (url : ShortenedUrl) (code : string).

(** The state of [App] that [handleHashRoute] sets: the list shown and
    the redirect state. *)
Record AppView := mkAppView {
  view_urls : list ShortenedUrl;
  view_redirect : RedirectState
}.

(** [u.shortCode === shortCode || u.customAlias === shortCode] *)
Definition answersTo (code : string) (u : ShortenedUrl) : bool :=
  String.eqb (shortCode u) code
  || match customAlias u with
     | Some a => String.eqb a code
     | None => false
     end.

(** [handleHashRoute], up to the point where it arms the redirect
    timer. The clock is read by [isExpired] ([now]) and then by
    [incrementClicks] ([now']). *)
Definition handleHashRoute (now now' : Z) (faults : list JsError)
    (client : ClientInfo) (hash : string) (view : AppView) : M AppView :=
  match parseShortCode hash with
  | None => mret {| view_urls := view_urls view; view_redirect := RedirectNone |}
  | Some code =>
      allUrls ← loadUrls;
      match List.find (answersTo code) allUrls with
      | None =>
          mret {| view_urls := view_urls view; view_redirect := NotFound code |}
      | Some found =>
          if isExpired now (expiresAt found) then
            mret {| view_urls := view_urls view; view_redirect := Expired found code |}
          else
            updated ← incrementClicks now' faults client (id found);
            mret {| view_urls := updated; view_redirect := Redirecting found code |}
      end
  end.

(** ** Statistics ([utils/storage]) *)

(** The integer fields of the object [getUrlStats] returns. Its
    [avgClicks], a rounded floating-point quotient, is not part of the
    model. *)
Record UrlStats := mkUrlStats {
  stats_total : nat;
  stats_totalClicks : Z;
  stats_activeCount : nat;
  stats_expiredCount : nat;
  stats_recentUrls : nat;
  stats_recentClicks : nat;
  stats_bestUrl : option ShortenedUrl
}.

Definition isActive (now : Z) (u : ShortenedUrl) : bool :=
  negb (truthyNum (expiresAt u))
  || match expiresAt u with
     | Some e => now <? e
     | None => false
     end.

Definition getUrlStats (now : Z) (all : list ShortenedUrl) : UrlStats :=
  let totalClicks := fold_left (fun sum u => sum + clicks u) all 0 in
  let activeUrls := List.filter (isActive now) all in
  let expiredUrls := (length all - length activeUrls)%nat in
  let recentUrls :=
    length (List.filter (fun u => now - createdAt u <? 86400000) all) in
  let recentClick := fun c : ClickEvent => now - timestamp c <? 86400000 in
  let recentClicks :=
    fold_left
      (fun sum u => (sum + length (List.filter recentClick (clickHistory u)))%nat)
      all 0%nat in
  let bestUrl :=
    match all with
    | first :: others =>
        Some (fold_left (fun best u => if clicks best <? clicks u then u else best)
                        others first)
    | [] => None
    end in
  {| stats_total := length all;
     stats_totalClicks := totalClicks;
     stats_activeCount := length activeUrls;
     stats_expiredCount := expiredUrls;
     stats_recentUrls := recentUrls;
     stats_recentClicks := recentClicks;
     stats_bestUrl := bestUrl |}.

(** ** The list view ([UrlList]) *)

(** [Array.prototype.sort(compare)]: the sort is stable, so with a
    consistent comparator the result is the one of a stable insertion
    sort: an element goes in front of the first one it does not
    exceed. *)
Fixpoint insertSorted {A} (compare : A → A → Z) (x : A) (l : list A) : list A :=
  match l with
  | [] => [x]
  | y :: rest =>
      if compare x y <=? 0 then x :: l else y :: insertSorted compare x rest
  end.

Fixpoint sortArray {A} (compare : A → A → Z) (l : list A) : list A :=
  match l with
  | [] => []
  | x :: rest => insertSorted compare x (sortArray compare rest)
  end.

Inductive SortOption := SortNewest | SortOldest | SortClicks | SortAlpha.

Section UrlList.

Variable URL_new : string → option URL.

(** [a.localeCompare(b)], which depends on the locale. *)
Variable localeCompare : string → string → Z.

Definition matchesQuery (searchQuery : string) (u : ShortenedUrl) : bool :=
  let q := toLowerCase searchQuery in
  includes (toLowerCase (originalUrl u)) q
  || includes (toLowerCase (shortCode u)) q
  || match customAlias u with
     | Some a => includes (toLowerCase a) q
     | None => false
     end
  || includes (toLowerCase (extractDomain URL_new (originalUrl u))) q.

Definition compareUrls (sortBy : SortOption) (a b : ShortenedUrl) : Z :=
  match sortBy with
  | SortOldest => createdAt a - createdAt b
  | SortClicks => clicks b - clicks a
  | SortAlpha => localeCompare (shortCode a) (shortCode b)
  | SortNewest => createdAt b - createdAt a
  end.

Definition filteredUrls (all : list ShortenedUrl) (searchQuery : string)
    (order : SortOption) : list ShortenedUrl :=
  sortArray (compareUrls order) (List.filter (matchesQuery searchQuery) all).

End UrlList.

(** [toggleSelect]: the update of the set of selected ids. *)
Definition toggleSelect (target : string) (selectedIds : gset string) : gset string :=
  if bool_decide (target ∈ selectedIds) then selectedIds ∖ {[target]}
  else selectedIds ∪ {[target]}.

(** [toggleSelectAll]: the selection it sets, given the list shown. *)
Definition toggleSelectAll (selectedIds : gset string)
    (shown : list ShortenedUrl) : gset string :=
  if (size selectedIds =? length shown)%nat then ∅
  else list_to_set (map id shown).

(** [topUrls] of [Analytics]: [[...urls].sort(...).slice(0, 5)]. *)
Definition topUrls (all : list ShortenedUrl) : list ShortenedUrl :=
  take 5 (sortArray (fun a b => clicks b - clicks a) all).

(** ** Toasts ([hooks/useToast]) *)

Inductive ToastType := ToastSuccess | ToastError | ToastWarning | ToastInfo.

Record Toast := mkToast {
  toast_id : string;
  toast_message : string;
  toast_type : ToastType;
  toast_duration : Z
}.

(** The state of the hook: the list of toasts and the counter kept in
    [counterRef]. *)
Record ToastState := mkToastState {
  toasts : list Toast;
  counter : Z
}.

(** [addToast(message, type = 'info', duration = 3000)]: the new state,
    and the id handed to the removal timer when one is armed. *)
Definition addToast (now : Z) (message : string) (type : option ToastType)
    (duration : option Z) (st : ToastState) : ToastState * option string :=
  let type := default ToastInfo type in
  let duration := default 3000 duration in
  let counter' := counter st + 1 in
  let ident := "toast-" +:+ numberToString counter' +:+ "-" +:+ numberToString now in
  let toast := {| toast_id := ident; toast_message := message;
                  toast_type := type; toast_duration := duration |} in
  ({| toasts := toasts st ++ [toast]; counter := counter' |},
   if 0 <? duration then Some ident else None).

(** [removeToast(id)], which is also what the removal timer does. *)
Definition removeToast (ident : string) (st : ToastState) : ToastState :=
  {| toasts := List.filter (fun t => negb (String.eqb (toast_id t) ident)) (toasts st);
     counter := counter st |}.

(** The states of the hook. A removal, by the button or by a timer, can
    come at any time and with any id: a timer outlives its toast when
    the button was quicker. *)
Inductive toastStep : ToastState → ToastState → Prop :=
| toast_add now message type duration st :
    toastStep st (fst (addToast now message type duration st))
| toast_remove ident st :
    toastStep st (removeToast ident st).

Inductive toastReachable : ToastState → Prop :=
| toast_init : toastReachable {| toasts := []; counter := 0 |}
| toast_next st st' : toastReachable st → toastStep st st' → toastReachable st'.

(** ** Reference definitions for the further properties *)

(** [deleteUrl] called for each id in turn, every write succeeding. *)
Fixpoint deleteEach (now : Z) (first : string) (others : list string)
    : M (list ShortenedUrl) :=
  match others with
  | [] => deleteUrl now [] first
  | next :: rest => deleteUrl now [] first;; deleteEach now next rest
  end.

(** The sum of the click counters. *)
Definition sumClicks (l : list ShortenedUrl) : Z :=
  fold_right (fun u sum => clicks u + sum) 0 l.

(** A record whose history is no longer than its counter says. *)
Definition historyWithinClicks (u : ShortenedUrl) : Prop :=
  Z.of_nat (length (clickHistory u)) ≤ clicks u.

(** The number of timestamps of the window at [now]. *)
Definition recentCount (now : Z) (ts : list Z) : Z :=
  Z.of_nat (length (List.filter (inWindow now) ts)).

(** A list in the order [sortArray compare] leaves it in. *)
Fixpoint ordered {A} (compare : A → A → Z) (l : list A) : Prop :=
  match l with
  | [] => True
  | x :: rest => Forall (fun y => compare x y ≤ 0) rest ∧ ordered compare rest
  end.

(** No comma in the name of any parameter. *)
Definition commaFree (entries : list (string * string)) : bool :=
  forallb (fun e => allS (fun c => negb (Ascii.eqb c ",")) (fst e)) entries.

(** A URL record with another query, another fragment, another host,
    another path. *)
Definition withQuery (q : option string) (u : URL) : URL :=
  {| url_scheme := url_scheme u; url_username := url_username u;
     url_password := url_password u; url_host := url_host u;
     url_port := url_port u; url_path := url_path u;
     url_opaque := url_opaque u; url_query := q;
     url_fragment := url_fragment u |}.

Definition withFragment (f : option string) (u : URL) : URL :=
  {| url_scheme := url_scheme u; url_username := url_username u;
     url_password := url_password u; url_host := url_host u;
     url_port := url_port u; url_path := url_path u;
     url_opaque := url_opaque u; url_query := url_query u;
     url_fragment := f |}.

Definition withHost (h : option string) (u : URL) : URL :=
  {| url_scheme := url_scheme u; url_username := url_username u;
     url_password := url_password u; url_host := h;
     url_port := url_port u; url_path := url_path u;
     url_opaque := url_opaque u; url_query := url_query u;
     url_fragment := url_fragment u |}.

Definition withPath (p : string) (u : URL) : URL :=
  {| url_scheme := url_scheme u; url_username := url_username u;
     url_password := url_password u; url_host := url_host u;
     url_port := url_port u; url_path := p;
     url_opaque := url_opaque u; url_query := url_query u;
     url_fragment := url_fragment u |}.

(** A record without its password. *)
Definition withoutPassword (u : ShortenedUrl) : ShortenedUrl :=
  {| id := id u;
     originalUrl := originalUrl u;
     normalizedUrl := normalizedUrl u;
     shortCode := shortCode u;
     customAlias := customAlias u;
     createdAt := createdAt u;
     expiresAt := expiresAt u;
     clicks := clicks u;
     clickHistory := clickHistory u;
     password := None |}.

(** [v] is [u] after one visit at [now]: the counter is one higher, the
    history has one more event, stamped [now], at its end, and every
    other field is the same. *)
Definition visited (now : Z) (u v : ShortenedUrl) : Prop :=
  id v = id u ∧ originalUrl v = originalUrl u
  ∧ normalizedUrl v = normalizedUrl u ∧ shortCode v = shortCode u
  ∧ customAlias v = customAlias u ∧ createdAt v = createdAt u
  ∧ expiresAt v = expiresAt u ∧ password v = password u
  ∧ clicks v = clicks u + 1
  ∧ ∃ event, clickHistory v = clickHistory u ++ [event] ∧ timestamp event = now.

(** The client data of the concrete checks. *)
Definition sampleClient : ClientInfo :=
  {| ci_referrer := None; ci_deviceType := desktop;
     ci_timezone := "UTC"; ci_userAgent := None |}.

(** The value a computation returns, if it returns. *)
Definition result_value {A} (m : M A) (ls : gmap string Item) : option A :=
  match result m ls with
  | Returns a => Some a
  | Throws _ => None
  end.

(** The id [addToast] makes from the counter and the clock. *)
Definition toastId (count now : Z) : string :=
  "toast-" +:+ numberToString count +:+ "-" +:+ numberToString now.

(** The ids of the toasts are distinct, and each was made from a
    counter value that has been used. *)
Definition toastInv (st : ToastState) : Prop :=
  0 ≤ counter st
  ∧ NoDup (map toast_id (toasts st))
  ∧ Forall (fun t => ∃ count now, 0 < count ≤ counter st
                                  ∧ toast_id t = toastId count now)
           (toasts st).

(** A record that counts as expired in the statistics although
    [isExpired] does not report it: it expires at this very
    millisecond. *)
Definition expiresNow (now : Z) (u : ShortenedUrl) : bool :=
  match expiresAt u with
  | Some e => negb (e =? 0) && (e =? now)
  | None => false
  end.

(** The redirect state with another record in it. *)
Definition mapRedirect (f : ShortenedUrl → ShortenedUrl) (r : RedirectState)
    : RedirectState :=
  match r with
  | RedirectNone => RedirectNone
  | Redirecting url code => Redirecting (f url) code
  | NotFound code => NotFound code
  | Expired url code => Expired (f url) code
  end.

(** * Properties *)

(** ** Running the storage layer *)

Lemma loadUrls_run ls : loadUrls ls = (Returns (urlsOf ls), ls).
Proof.
  unfold loadUrls, urlsOf, getItem, mbind, M_bind, mret, M_ret.
  destruct (ls !! STORAGE_KEY) as [[ | | ]|]; reflexivity.
Qed.

Lemma bind_run {A B} (m : M A) (k : A → M B) ls a ls' :
  m ls = (Returns a, ls') → (m ≫= k) ls = k a ls'.
Proof. intros H. unfold mbind, M_bind. rewrite H. reflexivity. Qed.

Lemma migrate_idemp u : migrate (migrate u) = migrate u.
Proof.
  destruct u as [i o n s c cr e cl h p]. unfold migrate. simpl.
  destruct (String.eqb n "") eqn:E; simpl.
  - destruct (String.eqb (toLowerCase o) "") eqn:E2; [|reflexivity].
    apply String.eqb_eq in E2. rewrite E2. reflexivity.
  - rewrite E. reflexivity.
Qed.

Lemma urlsOf_insert ls l :
  urlsOf (<[STORAGE_KEY := UrlsJson l]> ls) = map migrate l.
Proof. unfold urlsOf. rewrite lookup_insert_eq. reflexivity. Qed.

Lemma urlsOf_migrated ls : map migrate (urlsOf ls) = urlsOf ls.
Proof.
  unfold urlsOf. destruct (ls !! STORAGE_KEY) as [[l| | ]|]; try reflexivity.
  rewrite map_map. apply map_ext. intros u. apply migrate_idemp.
Qed.

Lemma bind_loadUrls {B} (k : list ShortenedUrl → M B) ls :
  (loadUrls ≫= k) ls = k (urlsOf ls) ls.
Proof. apply bind_run, loadUrls_run. Qed.

Lemma cleanup_with_run now save ls :
  cleanupExpiredUrls_with now save ls =
  (if sweepChanges now (urlsOf ls)
   then match save (sweepList now (urlsOf ls)) ls with
        | (Returns _, ls') => (Returns (sweepResult now (urlsOf ls)), ls')
        | (Throws e, ls') => (Throws e, ls')
        end
   else (Returns (sweepResult now (urlsOf ls)), ls)).
Proof.
  unfold cleanupExpiredUrls_with. rewrite bind_loadUrls.
  unfold sweepChanges, sweepResult, sweepList.
  destruct (_ || _); unfold mbind, M_bind; simpl.
  - destruct (save _ ls) as [[[]|e] ls']; reflexivity.
  - reflexivity.
Qed.

(** [saveUrls] swallows every failure: it always returns. *)
Lemma saveUrls_returns now faults : ∀ l ls,
  result (saveUrls now faults l) ls = Returns tt.
Proof.
  unfold result.
  induction faults as [|e rest IH]; intros l ls; simpl; [reflexivity|].
  unfold try_catch, setItem.
  destruct (isQuotaExceeded e); [|reflexivity].
  unfold mbind, M_bind. rewrite cleanup_with_run.
  destruct (sweepChanges now (urlsOf ls)); [|reflexivity].
  specialize (IH (sweepList now (urlsOf ls)) ls).
  destruct (saveUrls now rest _ ls) as [[[]|e'] ls']; simpl in *; [reflexivity|discriminate].
Qed.

(** The three things [saveUrls] can leave in [localStorage]: the old
    contents, the list it was given, or what a sweep made of the old
    contents. *)
Lemma saveUrls_cases now faults : ∀ l ls,
  after (saveUrls now faults l) ls = ls
  ∨ after (saveUrls now faults l) ls = <[STORAGE_KEY := UrlsJson l]> ls
  ∨ after (saveUrls now faults l) ls
    = <[STORAGE_KEY := UrlsJson (sweepList now (urlsOf ls))]> ls.
Proof.
  unfold after.
  induction faults as [|e rest IH]; intros l ls; simpl.
  - right; left; reflexivity.
  - unfold try_catch, setItem.
    destruct (isQuotaExceeded e); [|left; reflexivity].
    unfold mbind, M_bind. rewrite cleanup_with_run.
    destruct (sweepChanges now (urlsOf ls)); [|left; reflexivity].
    specialize (IH (sweepList now (urlsOf ls)) ls).
    pose proof (saveUrls_returns now rest (sweepList now (urlsOf ls)) ls) as R.
    unfold result in R.
    destruct (saveUrls now rest _ ls) as [[[]|e'] ls']; simpl in *; [|discriminate].
    destruct IH as [->|[->| ->]]; auto.
Qed.

Lemma cleanup_run now faults ls :
  result (cleanupExpiredUrls now faults) ls = Returns (sweepResult now (urlsOf ls)).
Proof.
  unfold result, cleanupExpiredUrls. rewrite cleanup_with_run.
  destruct (sweepChanges now (urlsOf ls)); [|reflexivity].
  pose proof (saveUrls_returns now faults (sweepList now (urlsOf ls)) ls) as R.
  unfold result in R.
  destruct (saveUrls now faults _ ls) as [[[]|e'] ls']; simpl in *; [reflexivity|discriminate].
Qed.

(** ** Expiry predicate *)

(** C5 (as amended). [isExpired] never reports a record without expiry
    ([null], and likewise [0]) as expired; for every other [expiresAt]
    it answers [expiresAt < now]: not expired one millisecond before
    [expiresAt], expired one millisecond after it, and still not
    expired at the instant [now = expiresAt]. It is a function of
    [now] and [expiresAt] alone; the grace period plays no part. *)
Theorem isExpired_characterization (now e : Z) :
  isExpired now None = false
  ∧ isExpired now (Some 0) = false
  ∧ isExpired now (Some e) = negb (e =? 0) && (e <? now)
  ∧ (now + 1 ≠ 0 → isExpired now (Some (now + 1)) = false)
  ∧ (now - 1 ≠ 0 → isExpired now (Some (now - 1)) = true)
  ∧ isExpired now (Some now) = false.
Proof.
  unfold isExpired, truthyNum. repeat split.
  - destruct (e =? 0); reflexivity.
  - intros H. destruct (now + 1 =? 0) eqn:E; simpl; [reflexivity|]. lia.
  - intros H. destruct (now - 1 =? 0) eqn:E; simpl; lia.
  - destruct (now =? 0); simpl; [reflexivity|]. lia.
Qed.

Lemma isExpired_characterization_witness :
  isExpired 5000 (Some (5000 + 1)) = false
  ∧ isExpired 5000 (Some (5000 - 1)) = true.
Proof.
  pose proof (isExpired_characterization 5000 4999) as (_ & _ & _ & H1 & H2 & _).
  split; [apply H1; lia | apply H2; lia].
Defined.

(** C5 as stated fails at the boundary: at the very instant
    [now = expiresAt] the predicate still answers "not expired". *)
Lemma isExpired_at_expiry_instant :
  isExpired 1700000000000 (Some 1700000000000) = false.
Proof. reflexivity. Qed.

(** An expiry of [0] is treated like [null], although [0 < now]. *)
Example isExpired_epoch_zero : isExpired 1700000000000 (Some 0) = false.
Proof. reflexivity. Qed.

(** ** Sweep *)

Lemma keepUrl_pastGrace now u : keepUrl now u = negb (pastGrace now u).
Proof.
  unfold keepUrl, pastGrace, truthyNum, gracePeriod.
  destruct (expiresAt u) as [e|]; [|reflexivity].
  destruct (e =? 0); simpl; [reflexivity|].
  destruct (now <? e) eqn:E1, (now - e <? 7 * 24 * 60 * 60 * 1000) eqn:E2,
    (7 * 24 * 60 * 60 * 1000 <=? now - e) eqn:E3; simpl; try reflexivity; lia.
Qed.

Lemma filter_keepUrl now l :
  List.filter (keepUrl now) l = List.filter (fun u => negb (pastGrace now u)) l.
Proof. apply List.filter_ext. intros u. apply keepUrl_pastGrace. Qed.

Lemma removed_count now l :
  (length l - length (List.filter (keepUrl now) l))%nat
  = length (List.filter (pastGrace now) l).
Proof.
  pose proof (List.filter_length (pastGrace now) l) as H.
  rewrite filter_keepUrl. lia.
Qed.

Lemma slice_last_suffix {A} n (l : list A) :
  (n < length l)%nat →
  (∃ older, l = older ++ slice_last n l) ∧ length (slice_last n l) = n.
Proof.
  intros H. unfold slice_last. split.
  - exists (take (length l - n) l). symmetry. apply take_drop.
  - rewrite length_drop. lia.
Qed.

Lemma trimUrl_trimmedCopy u : trimmedCopy u (trimUrl u).
Proof.
  unfold trimmedCopy, trimUrl.
  destruct (historyTooLong u) eqn:E; simpl; repeat split; try reflexivity.
  all: unfold historyTooLong in E; apply Nat.ltb_lt in E.
  all: apply (slice_last_suffix 1000 (clickHistory u) E).
Qed.

Lemma sweepList_trimmedCopy now l :
  Forall2 trimmedCopy (List.filter (fun u => negb (pastGrace now u)) l)
          (sweepList now l).
Proof.
  unfold sweepList. rewrite filter_keepUrl.
  induction (List.filter _ l) as [|u k IH]; simpl; constructor; auto.
  apply trimUrl_trimmedCopy.
Qed.

Lemma migrate_trimUrl u : migrate (trimUrl u) = trimUrl (migrate u).
Proof.
  unfold trimUrl, historyTooLong, migrate. simpl.
  destruct (1000 <? length (clickHistory u))%nat; reflexivity.
Qed.

Lemma sweepList_migrated now l :
  map migrate l = l → map migrate (sweepList now l) = sweepList now l.
Proof.
  intros H. unfold sweepList.
  assert (Hall : Forall (fun u => migrate u = u) l).
  { rewrite <- H at 1. clear H. induction l as [|u l IH]; simpl; constructor.
    - apply migrate_idemp.
    - exact IH. }
  clear H. induction Hall as [|u l Hu _ IH]; simpl; [reflexivity|].
  destruct (keepUrl now u); simpl; [|exact IH].
  rewrite migrate_trimUrl, Hu, IH. reflexivity.
Qed.

Lemma filter_all_length {A} (f : A → bool) l :
  length (List.filter f l) = length l → List.filter f l = l.
Proof.
  induction l as [|x l IH]; simpl; [reflexivity|].
  pose proof (List.filter_length_le f l).
  destruct (f x); simpl; intros H'; [f_equal; apply IH; lia | lia].
Qed.

Lemma map_trimUrl_id l :
  List.filter historyTooLong l = [] → map trimUrl l = l.
Proof.
  induction l as [|u l IH]; simpl; [reflexivity|].
  unfold trimUrl at 1. destruct (historyTooLong u); [discriminate|].
  intros H. rewrite IH; auto.
Qed.

Lemma sweep_unchanged now l :
  sweepChanges now l = false → sweepList now l = l.
Proof.
  unfold sweepChanges, sweepList. intros H.
  apply orb_false_iff in H as [H1 H2].
  apply Nat.ltb_ge in H1, H2.
  pose proof (List.filter_length_le (keepUrl now) l).
  assert (Hf : List.filter (keepUrl now) l = l) by (apply filter_all_length; lia).
  rewrite Hf in *.
  apply map_trimUrl_id.
  destruct (List.filter historyTooLong l); [reflexivity|simpl in H2; lia].
Qed.

(** A sweep whose write succeeds leaves exactly the list it returns. *)
Lemma cleanup_store now ls :
  urlsOf (after (cleanupExpiredUrls now []) ls) = sweepList now (urlsOf ls).
Proof.
  unfold after, cleanupExpiredUrls. rewrite cleanup_with_run.
  destruct (sweepChanges now (urlsOf ls)) eqn:E; simpl.
  - unfold setItem. simpl. rewrite urlsOf_insert.
    apply sweepList_migrated, urlsOf_migrated.
  - symmetry. apply sweep_unchanged, E.
Qed.

(** C4 (as amended). For every store and time [now], [cleanupExpiredUrls]
    removes exactly the records whose [expiresAt] is set (non-null,
    non-zero) and at least the 7-day grace period back
    ([now - expiresAt >= gracePeriod]); each survivor is returned as it
    was, or, when its history has more than 1000 events, with exactly
    its last 1000 events in their order and all other fields ([clicks]
    included) unchanged; [removed] and [trimmed] count the removed and
    the trimmed records; and when the write succeeds the store holds
    the returned list. *)
Theorem cleanupExpiredUrls_postcondition (now : Z) (faults : list JsError)
    (ls : gmap string Item) :
  ∃ r, result (cleanupExpiredUrls now faults) ls = Returns r
    ∧ Forall2 trimmedCopy
        (List.filter (fun u => negb (pastGrace now u)) (urlsOf ls)) (urls r)
    ∧ removed r = length (List.filter (pastGrace now) (urlsOf ls))
    ∧ trimmed r = length (List.filter historyTooLong
        (List.filter (fun u => negb (pastGrace now u)) (urlsOf ls)))
    ∧ urlsOf (after (cleanupExpiredUrls now []) ls) = urls r.
Proof.
  exists (sweepResult now (urlsOf ls)). split; [apply cleanup_run|].
  unfold sweepResult; simpl. repeat split.
  - apply sweepList_trimmedCopy.
  - apply removed_count.
  - rewrite filter_keepUrl. reflexivity.
  - apply cleanup_store.
Qed.

(** C4 as stated fails at the boundary. A record whose expiry lies
    exactly [gracePeriod] back has not exceeded the grace period
    ([now - expiresAt > gracePeriod] is false), yet the sweep removes
    it. *)
Lemma sweep_removes_at_grace_boundary :
  let u := sampleUrl "id-1" "abc1234" None (Some 1000) [] in
  let now := 1000 + gracePeriod in
  exceedsGrace now u = false
  ∧ result (cleanupExpiredUrls now []) (storeOf [u])
    = Returns {| removed := 1; trimmed := 0; urls := [] |}
  ∧ urlsOf (after (cleanupExpiredUrls now []) (storeOf [u])) = [].
Proof. vm_compute. repeat split; reflexivity. Qed.

(** The scenarios of the contract: six days after expiry a record
    survives, eight days after it is removed, and a record without
    expiry stays. *)
Example sweep_six_eight_days :
  let day := 24 * 60 * 60 * 1000 in
  let now := 1700000000000 in
  let six := sampleUrl "id-6" "sixdays" None (Some (now - 6 * day)) [] in
  let eight := sampleUrl "id-8" "eightdy" None (Some (now - 8 * day)) [] in
  let never := sampleUrl "id-n" "forever" None None [] in
  result (cleanupExpiredUrls now []) (storeOf [six; eight; never])
  = Returns {| removed := 1; trimmed := 0; urls := [six; never] |}.
Proof. vm_compute. reflexivity. Qed.

(** The trimming scenario of the contract: of 1500 events the last
    1000 stay, and [clicks] keeps counting 1500. *)
Example sweep_trims_history :
  let u := sampleUrl "id-1" "busyone" None None (sampleHistory 1500) in
  match result (cleanupExpiredUrls 5000 []) (storeOf [u]) with
  | Returns {| removed := 0; trimmed := 1; urls := [u'] |} =>
      clickHistory u' = drop 500 (sampleHistory 1500)
      ∧ length (clickHistory u') = 1000%nat
      ∧ clicks u' = 1500
  | _ => False
  end.
Proof. vm_compute. repeat split; reflexivity. Qed.

(** An expiry of [0] counts as "never expires" for the sweep. *)
Example sweep_keeps_epoch_zero :
  let u := sampleUrl "id-0" "zerozer" None (Some 0) [] in
  result (cleanupExpiredUrls 1700000000000 []) (storeOf [u])
  = Returns {| removed := 0; trimmed := 0; urls := [u] |}.
Proof. vm_compute. reflexivity. Qed.

(** ** Insertion and write failures *)

Lemma addUrl_result now faults url ls :
  result (addUrl now faults url) ls = Returns (url :: urlsOf ls).
Proof.
  unfold result, addUrl. rewrite bind_loadUrls. unfold mbind, M_bind.
  pose proof (saveUrls_returns now faults (url :: urlsOf ls) ls) as R.
  unfold result in R.
  destruct (saveUrls now faults _ ls) as [[[]|e] ls']; simpl in *;
    [reflexivity|discriminate].
Qed.

Lemma addUrl_after now faults url ls :
  after (addUrl now faults url) ls
  = after (saveUrls now faults (url :: urlsOf ls)) ls.
Proof.
  unfold after, addUrl. rewrite bind_loadUrls. unfold mbind, M_bind.
  destruct (saveUrls now faults _ ls) as [[[]|e] ls']; reflexivity.
Qed.

(** C2 (as amended). [addUrl] makes no uniqueness check. For every
    record, whether or not its code or alias is already in the store,
    it returns the loaded list with the record in front, never an
    error, and when the write succeeds the store holds exactly that
    list. *)
Theorem addUrl_unconditional (now : Z) (faults : list JsError)
    (url : ShortenedUrl) (ls : gmap string Item) :
  result (addUrl now faults url) ls = Returns (url :: urlsOf ls)
  ∧ after (addUrl now [] url) ls
    = <[STORAGE_KEY := UrlsJson (url :: urlsOf ls)]> ls.
Proof.
  split; [apply addUrl_result|].
  rewrite addUrl_after. reflexivity.
Qed.

(** C2 as stated fails: a record whose code is already taken is
    inserted all the same, and the store then holds two records with
    that code. *)
Lemma addUrl_accepts_taken_code :
  let u1 := sampleUrl "id-1" "abc1234" None None [] in
  let u2 := sampleUrl "id-2" "abc1234" None None [] in
  result (isShortCodeUnique "abc1234") (storeOf [u1]) = Returns false
  ∧ result (addUrl 5000 [] u2) (storeOf [u1]) = Returns [u2; u1]
  ∧ urlsOf (after (addUrl 5000 [] u2) (storeOf [u1])) = [u2; u1].
Proof. vm_compute. repeat split; reflexivity. Qed.

Lemma saveUrls_failed_write now e rest l ls :
  after (saveUrls now (e :: rest) l) ls
  = if isQuotaExceeded e then after (cleanupExpiredUrls now rest) ls else ls.
Proof.
  unfold after, cleanupExpiredUrls. simpl. unfold try_catch, setItem.
  destruct (isQuotaExceeded e); [|reflexivity].
  unfold mbind, M_bind.
  destruct (cleanupExpiredUrls_with now (saveUrls now rest) ls) as [[r|e'] ls'];
    reflexivity.
Qed.

(** C3 (as amended). A failing write of [saveUrls] is caught, not
    surfaced: however many of the writes of the call fail, the first
    one and those of a recovery, [saveUrls] returns normally, and so
    does [addUrl], with the list that has the new record in it, so that
    the caller cannot tell whether the record was stored. The recovery is
    kept for the quota: after a failure that is not a
    [QuotaExceededError] nothing more is tried and the store is as it
    was. *)
Theorem saveUrls_write_failure (now : Z) (faults : list JsError)
    (l : list ShortenedUrl) (url : ShortenedUrl) (ls : gmap string Item) :
  result (saveUrls now faults l) ls = Returns tt
  ∧ result (addUrl now faults url) ls = Returns (url :: urlsOf ls)
  ∧ ∀ e rest, faults = e :: rest → isQuotaExceeded e = false →
      after (saveUrls now faults l) ls = ls
      ∧ after (addUrl now faults url) ls = ls.
Proof.
  split; [apply saveUrls_returns|].
  split; [apply addUrl_result|].
  intros e rest -> He.
  rewrite addUrl_after, !saveUrls_failed_write, He. split; reflexivity.
Qed.

(** C3 as stated fails. The store has nothing to sweep and the quota is
    exhausted at every write that is made or could be made again: no
    error reaches the caller of [addUrl], which returns the list with
    the new record in it while the store is as it was. The same holds
    for a failure of another kind. *)
Lemma write_failure_not_surfaced :
  let live := sampleUrl "id-1" "liveone" None None [] in
  let new := sampleUrl "id-3" "newcode" None None [] in
  result (addUrl 5000 [QuotaExceededError; QuotaExceededError] new) (storeOf [live])
    = Returns [new; live]
  ∧ after (addUrl 5000 [QuotaExceededError; QuotaExceededError] new) (storeOf [live])
    = storeOf [live]
  ∧ result (addUrl 5000 [SecurityError; SecurityError] new) (storeOf [live])
    = Returns [new; live]
  ∧ after (addUrl 5000 [SecurityError; SecurityError] new) (storeOf [live])
    = storeOf [live].
Proof. vm_compute. repeat split; reflexivity. Qed.

(** What the handler does after a quota failure when the sweep has
    something to remove: the sweep runs and its list is written; the
    write that failed is not made again, although the comment in the
    handler announces a retry. *)
Example quota_failure_runs_sweep :
  let day := 24 * 60 * 60 * 1000 in
  let now := 1700000000000 in
  let live := sampleUrl "id-1" "liveone" None None [] in
  let old := sampleUrl "id-2" "expired" None (Some (now - 8 * day)) [] in
  let new := sampleUrl "id-3" "newcode" None None [] in
  result (addUrl now [QuotaExceededError] new) (storeOf [live; old])
    = Returns [new; live; old]
  ∧ urlsOf (after (addUrl now [QuotaExceededError] new) (storeOf [live; old]))
    = [live].
Proof. vm_compute. split; reflexivity. Qed.

(** ** Frame properties: who writes the rate-limit window *)

Lemma storage_key_ne : STORAGE_KEY ≠ RATE_LIMIT_KEY.
Proof. discriminate. Qed.

Lemma saveUrls_rate_key now faults l ls :
  after (saveUrls now faults l) ls !! RATE_LIMIT_KEY = ls !! RATE_LIMIT_KEY.
Proof.
  destruct (saveUrls_cases now faults l ls) as [->|[->| ->]];
    [reflexivity| |]; apply lookup_insert_ne, storage_key_ne.
Qed.

Lemma then_save_after {B} now faults (f : list ShortenedUrl → list ShortenedUrl)
    (k : list ShortenedUrl → B) ls :
  after (all ← loadUrls; saveUrls now faults (f all);; mret (k all)) ls
  = after (saveUrls now faults (f (urlsOf ls))) ls.
Proof.
  unfold after. rewrite bind_loadUrls. unfold mbind, M_bind.
  destruct (saveUrls now faults _ ls) as [[[]|e] ls']; reflexivity.
Qed.

Lemma deleteUrl_after now faults target ls :
  after (deleteUrl now faults target) ls
  = after (saveUrls now faults
      (List.filter (fun u => negb (String.eqb (id u) target)) (urlsOf ls))) ls.
Proof. apply (then_save_after now faults _ (fun l => List.filter _ l)). Qed.

Lemma bulkDeleteUrls_after now faults ids ls :
  after (bulkDeleteUrls now faults ids) ls
  = after (saveUrls now faults
      (List.filter (fun u => negb (bool_decide (id u ∈ ids))) (urlsOf ls))) ls.
Proof. apply (then_save_after now faults _ (fun l => List.filter _ l)). Qed.

Lemma incrementClicks_after now faults client target ls :
  after (incrementClicks now faults client target) ls
  = after (saveUrls now faults
      (map (fun u => if String.eqb (id u) target
                     then recordClick now client u else u) (urlsOf ls))) ls.
Proof. apply (then_save_after now faults _ (fun l => map _ l)). Qed.

Lemma cleanup_after now faults ls :
  after (cleanupExpiredUrls now faults) ls
  = if sweepChanges now (urlsOf ls)
    then after (saveUrls now faults (sweepList now (urlsOf ls))) ls
    else ls.
Proof.
  unfold after, cleanupExpiredUrls. rewrite cleanup_with_run.
  destruct (sweepChanges now (urlsOf ls)); [|reflexivity].
  destruct (saveUrls now faults _ ls) as [[[]|e] ls']; reflexivity.
Qed.

Lemma isShortCodeUnique_run code ls :
  isShortCodeUnique code ls = (Returns (codeFree ls code), ls).
Proof. unfold isShortCodeUnique. rewrite bind_loadUrls. reflexivity. Qed.

Lemma findDuplicateUrl_run n ls :
  findDuplicateUrl n ls
  = (Returns (List.find (fun u => String.eqb (normalizedUrl u) n) (urlsOf ls)), ls).
Proof. unfold findDuplicateUrl. rewrite bind_loadUrls. reflexivity. Qed.

Lemma loadRateLimit_run ls :
  loadRateLimit ls = (Returns {| timestamps := windowOf ls |}, ls).
Proof.
  unfold loadRateLimit, windowOf, getItem, mbind, M_bind, mret, M_ret.
  destruct (ls !! RATE_LIMIT_KEY) as [[ | | ]|]; reflexivity.
Qed.

Lemma checkRateLimit_after now ls : after (checkRateLimit now) ls = ls.
Proof.
  unfold after, checkRateLimit.
  rewrite (bind_run _ _ _ _ _ (loadRateLimit_run ls)). simpl.
  destruct (windowOf ls) as [ts|]; [|reflexivity].
  destruct (List.filter (inWindow now) ts); reflexivity.
Qed.

(** ** Allocator *)

Lemma tier_S generator len n k :
  tier generator len (S n) k = generator k len :: tier generator len n (S k).
Proof.
  unfold tier. simpl. rewrite Nat.add_0_r. f_equal.
  rewrite <- seq_shift, map_map. apply map_ext. intros i. f_equal. lia.
Qed.

Lemma retryLoop_run generator len n : ∀ k ls,
  retryLoop generator len n k ls
  = (Returns (match List.find (codeFree ls) (tier generator len n k) with
              | Some code => inl code
              | None => inr (k + n)%nat
              end), ls).
Proof.
  induction n as [|n IH]; intros k ls.
  - simpl. rewrite Nat.add_0_r. reflexivity.
  - rewrite tier_S. simpl.
    rewrite (bind_run _ _ _ _ _ (isShortCodeUnique_run (generator k len) ls)).
    destruct (codeFree ls (generator k len)); [reflexivity|].
    rewrite IH. repeat f_equal. destruct (List.find _ _); [reflexivity|].
    f_equal. lia.
Qed.

Lemma find_app_first {A} (f : A → bool) l1 l2 :
  List.find f (l1 ++ l2)
  = match List.find f l1 with Some x => Some x | None => List.find f l2 end.
Proof.
  induction l1 as [|x l1 IH]; simpl; [reflexivity|].
  destruct (f x); [reflexivity|exact IH].
Qed.

Lemma generateUniqueShortCode_run generator ls :
  generateUniqueShortCode generator 5 ls
  = (Returns (List.find (codeFree ls) (attempts generator)), ls).
Proof.
  unfold generateUniqueShortCode, attempts.
  rewrite (bind_run _ _ _ _ _ (retryLoop_run generator None 5 0 ls)).
  rewrite !find_app_first.
  destruct (List.find (codeFree ls) (tier generator None 5 0)); [reflexivity|].
  rewrite (bind_run _ _ _ _ _ (retryLoop_run generator (Some 9%nat) 3 _ ls)).
  cbn [Nat.add].
  destruct (List.find (codeFree ls) (tier generator (Some 9%nat) 3 5)); [reflexivity|].
  rewrite (bind_run _ _ _ _ _ (retryLoop_run generator (Some 11%nat) 2 _ ls)).
  cbn [Nat.add].
  destruct (List.find (codeFree ls) (tier generator (Some 11%nat) 2 8)); reflexivity.
Qed.

Lemma base62At_length i : 0 ≤ i < 62 → String.length (base62At i) = 1%nat.
Proof.
  intros H. unfold base62At.
  assert (Hn : (Z.to_nat i < 62)%nat) by lia.
  generalize dependent (Z.to_nat i). intros n Hn.
  do 62 (destruct n as [|n]; [reflexivity|]). lia.
Qed.

Lemma codeIndex_range e i : 0 ≤ codeIndex e i < 62.
Proof. unfold codeIndex. destruct i; apply Z.mod_pos_bound; lia. Qed.

Lemma append_length s1 s2 :
  String.length (String.append s1 s2) = (String.length s1 + String.length s2)%nat.
Proof. induction s1; simpl; auto. Qed.

Lemma codeFrom_length e n : ∀ i, String.length (codeFrom e i n) = n.
Proof.
  induction n as [|n IH]; intros i; simpl; [reflexivity|].
  rewrite append_length, IH, base62At_length by apply codeIndex_range.
  reflexivity.
Qed.

Lemma generateShortCode_length e len :
  String.length (generateShortCode e len) = default 7%nat len.
Proof. apply codeFrom_length. Qed.

(** C7. Whatever the store holds and whatever the generator draws,
    [generateUniqueShortCode] makes its attempts in the order of the
    escalation (five without a length argument, then three asking for
    9 characters, then two asking for 11), returns the first attempt
    that collides with no stored code, and returns [null] exactly when
    all ten attempts collide; it writes nothing. With
    [generateShortCode] as the generator the attempts have 7, 9 and 11
    characters. *)
Theorem generateUniqueShortCode_escalation
    (generator : nat → option nat → string) (entropy : nat → Entropy)
    (ls : gmap string Item) :
  generateUniqueShortCode generator 5 ls
    = (Returns (List.find (codeFree ls) (attempts generator)), ls)
  ∧ attempts generator
    = [generator 0 None; generator 1 None; generator 2 None;
       generator 3 None; generator 4 None;
       generator 5 (Some 9); generator 6 (Some 9); generator 7 (Some 9);
       generator 8 (Some 11); generator 9 (Some 11)]%nat
  ∧ (result (generateUniqueShortCode generator 5) ls = Returns None
     ↔ Forall (fun code => codeFree ls code = false) (attempts generator))
  ∧ map String.length (attempts (fun k => generateShortCode (entropy k)))
    = [7; 7; 7; 7; 7; 9; 9; 9; 11; 11]%nat.
Proof.
  split; [apply generateUniqueShortCode_run|].
  split; [reflexivity|].
  split.
  - unfold result. rewrite generateUniqueShortCode_run. cbn [fst].
    split.
    + intros H. apply Forall_forall. intros code Hin.
      destruct (codeFree ls code) eqn:E; [|reflexivity].
      assert (Hnone : List.find (codeFree ls) (attempts generator) = None)
        by (injection H; auto).
      apply list_elem_of_In in Hin.
      apply (List.find_none _ _ Hnone) in Hin. congruence.
    + intros H. f_equal.
      destruct (List.find (codeFree ls) (attempts generator)) as [c|] eqn:E;
        [|reflexivity].
      apply List.find_some in E as [Hin Hfree].
      rewrite Forall_forall in H. apply list_elem_of_In in Hin.
      rewrite (H c) in Hfree; [discriminate|exact Hin].
  - unfold attempts, tier. simpl map.
    rewrite !generateShortCode_length. reflexivity.
Qed.

(** The escalation scenario of the contract: when every 7-character
    code collides, the 9-character tier is tried next. *)
Example escalation_to_nine :
  let generator := fun (k : nat) (len : option nat) =>
    match len with
    | None => "aaaaaaa"
    | Some 9%nat => "bbbbbbbbb"
    | Some _ => "ccccccccccc"
    end in
  let taken := sampleUrl "id-1" "aaaaaaa" None None [] in
  result (generateUniqueShortCode generator 5) (storeOf [taken])
  = Returns (Some "bbbbbbbbb").
Proof. vm_compute. reflexivity. Qed.

(** ** Rate limiter *)

Lemma recordRateLimitHit_run now fault ls :
  recordRateLimitHit now fault ls
  = match windowOf ls with
    | None => (Throws TypeError, ls)
    | Some ts =>
        setItem fault RATE_LIMIT_KEY
          (RateJson (List.filter (inWindow now) ts ++ [now])) ls
    end.
Proof.
  unfold recordRateLimitHit.
  rewrite (bind_run _ _ _ _ _ (loadRateLimit_run ls)). simpl.
  destruct (windowOf ls); reflexivity.
Qed.

Lemma recordRateLimitHit_urls now fault ls :
  after (recordRateLimitHit now fault) ls !! STORAGE_KEY = ls !! STORAGE_KEY.
Proof.
  unfold after. rewrite recordRateLimitHit_run.
  destruct (windowOf ls); [|reflexivity].
  unfold setItem. destruct fault; simpl; [reflexivity|].
  apply lookup_insert_ne. intros H. symmetry in H. exact (storage_key_ne H).
Qed.

(** C10. [checkRateLimit] leaves [localStorage] exactly as it found
    it: the purge of old timestamps stays in its result. The window is
    written by [recordRateLimitHit] only, which in turn leaves the
    stored records alone: every other operation of the storage layer
    leaves the rate-limit key untouched. *)
Theorem checkRateLimit_read_only (now : Z) (faults : list JsError)
    (fault : option JsError) (url : ShortenedUrl) (target code : string)
    (ids : gset string) (client : ClientInfo) (l : list ShortenedUrl)
    (generator : nat → option nat → string) (ls : gmap string Item) :
  after (checkRateLimit now) ls = ls
  ∧ after (recordRateLimitHit now fault) ls !! STORAGE_KEY = ls !! STORAGE_KEY
  ∧ after (recordRateLimitHit now None) ls
    = match windowOf ls with
      | Some ts =>
          <[RATE_LIMIT_KEY := RateJson (List.filter (inWindow now) ts ++ [now])]> ls
      | None => ls
      end
  ∧ Forall (fun ls' : gmap string Item => ls' !! RATE_LIMIT_KEY = ls !! RATE_LIMIT_KEY)
      [ after (saveUrls now faults l) ls;
        after (addUrl now faults url) ls;
        after (deleteUrl now faults target) ls;
        after (bulkDeleteUrls now faults ids) ls;
        after (incrementClicks now faults client target) ls;
        after (cleanupExpiredUrls now faults) ls;
        after loadUrls ls;
        after (isShortCodeUnique code) ls;
        after (findDuplicateUrl code) ls;
        after (generateUniqueShortCode generator 5) ls ].
Proof.
  split; [apply checkRateLimit_after|].
  split; [apply recordRateLimitHit_urls|].
  split.
  { unfold after. rewrite recordRateLimitHit_run.
    destruct (windowOf ls); reflexivity. }
  repeat apply Forall_cons_2; try apply Forall_nil_2.
  - apply saveUrls_rate_key.
  - rewrite addUrl_after. apply saveUrls_rate_key.
  - rewrite deleteUrl_after. apply saveUrls_rate_key.
  - rewrite bulkDeleteUrls_after. apply saveUrls_rate_key.
  - rewrite incrementClicks_after. apply saveUrls_rate_key.
  - rewrite cleanup_after. destruct (sweepChanges _ _); [|reflexivity].
    apply saveUrls_rate_key.
  - unfold after. rewrite loadUrls_run. reflexivity.
  - unfold after. rewrite isShortCodeUnique_run. reflexivity.
  - unfold after. rewrite findDuplicateUrl_run. reflexivity.
  - unfold after. rewrite generateUniqueShortCode_run. reflexivity.
Qed.

Lemma inWindow_all lo now ts :
  Forall (fun x => lo ≤ x) ts → now < lo + RATE_LIMIT_WINDOW →
  List.filter (inWindow now) ts = ts.
Proof.
  intros Hts Hnow. induction Hts as [|x ts Hx _ IH]; simpl; [reflexivity|].
  unfold inWindow at 1.
  destruct (now - x <? RATE_LIMIT_WINDOW) eqn:E; [f_equal; exact IH|].
  apply Z.ltb_ge in E. lia.
Qed.

Lemma Math_min_least t rest :
  Forall (fun x => t ≤ x) rest → Math_min t rest = t.
Proof.
  unfold Math_min. intros H.
  induction H as [|x rest Hx _ IH]; simpl; [reflexivity|].
  rewrite Z.min_l by exact Hx. exact IH.
Qed.

Lemma checkRateLimit_run now ls ts :
  windowOf ls = Some ts →
  ∃ s, checkRateLimit now ls = (Returns s, ls)
    ∧ allowed s = (Z.of_nat (length (List.filter (inWindow now) ts)) <? RATE_LIMIT_MAX)
    ∧ nextAvailable s
      = match List.filter (inWindow now) ts with
        | [] => None
        | t :: rest =>
            if negb (allowed s)
               && (Z.of_nat (length (List.filter (inWindow now) ts)) =? RATE_LIMIT_MAX)
            then Some (Math_min t rest + RATE_LIMIT_WINDOW) else None
        end.
Proof.
  intros Hw. unfold checkRateLimit.
  rewrite (bind_run _ _ _ _ _ (loadRateLimit_run ls)). simpl. rewrite Hw.
  destruct (List.filter (inWindow now) ts) as [|t rest]; eexists; split;
    try reflexivity; simpl; split; reflexivity.
Qed.

Lemma windowOf_insert ls ts :
  windowOf (<[RATE_LIMIT_KEY := RateJson ts]> ls) = Some ts.
Proof. unfold windowOf. rewrite lookup_insert_eq. reflexivity. Qed.

Lemma checkAndRecord_run lo : ∀ times acc ls,
  windowOf ls = Some acc →
  Forall (fun x => lo ≤ x < lo + RATE_LIMIT_WINDOW) acc →
  Forall (fun x => lo ≤ x < lo + RATE_LIMIT_WINDOW) times →
  (length acc + length times ≤ 10)%nat →
  ∃ ss ls', checkAndRecord times ls = (Returns ss, ls')
    ∧ windowOf ls' = Some (acc ++ times)
    ∧ length ss = length times
    ∧ Forall (fun s => allowed s = true) ss.
Proof.
  induction times as [|t times IH]; intros acc ls Hw Hacc Htimes Hlen.
  - exists [], ls. rewrite app_nil_r. repeat split; auto.
  - apply Forall_cons_1 in Htimes as [Ht Htimes]. simpl in Hlen.
    assert (Hkeep : List.filter (inWindow t) acc = acc).
    { apply (inWindow_all lo); [|lia].
      eapply Forall_impl; [exact Hacc|]. simpl. intros; lia. }
    destruct (checkRateLimit_run t ls acc Hw) as (s & Hs & Hallowed & _).
    rewrite Hkeep in Hallowed.
    assert (Hrec : recordRateLimitHit t None ls
                   = (Returns tt, <[RATE_LIMIT_KEY := RateJson (acc ++ [t])]> ls)).
    { rewrite recordRateLimitHit_run, Hw, Hkeep. reflexivity. }
    destruct (IH (acc ++ [t]) (<[RATE_LIMIT_KEY := RateJson (acc ++ [t])]> ls))
      as (ss & ls' & Hrun & Hw' & Hlen' & Hall).
    + apply windowOf_insert.
    + apply Forall_app_2; [exact Hacc|]. constructor; [exact Ht|constructor].
    + exact Htimes.
    + rewrite length_app. simpl. lia.
    + exists (s :: ss), ls'. split.
      { simpl. rewrite (bind_run _ _ _ _ _ Hs).
        rewrite (bind_run _ _ _ _ _ Hrec).
        rewrite (bind_run _ _ _ _ _ Hrun). reflexivity. }
      split; [rewrite Hw', <- app_assoc; reflexivity|].
      split; [simpl; congruence|].
      constructor; [|exact Hall].
      rewrite Hallowed. unfold RATE_LIMIT_MAX. apply Z.ltb_lt. lia.
Qed.

(** C6. From an empty window, ten [check]+[record] pairs made within
    60 s of the first are all allowed; an eleventh check within the
    same 60 s is refused, with [nextAvailable] one window after the
    first recorded timestamp; and a check at any time strictly after
    that instant is allowed again. *)
Theorem rate_limiter_window (t1 : Z) (rest : list Z) (t11 later : Z)
    (ls : gmap string Item) :
  ls !! RATE_LIMIT_KEY = None →
  length rest = 9%nat →
  Forall (fun t => t1 ≤ t < t1 + RATE_LIMIT_WINDOW) (rest ++ [t11]) →
  t1 + RATE_LIMIT_WINDOW < later →
  ∃ ss ls',
    checkAndRecord (t1 :: rest) ls = (Returns ss, ls')
    ∧ length ss = 10%nat
    ∧ Forall (fun s => allowed s = true) ss
    ∧ (∃ s11, checkRateLimit t11 ls' = (Returns s11, ls')
         ∧ allowed s11 = false
         ∧ nextAvailable s11 = Some (t1 + RATE_LIMIT_WINDOW))
    ∧ (∃ s, checkRateLimit later ls' = (Returns s, ls') ∧ allowed s = true).
Proof.
  intros Hempty Hlen Hin Hlater.
  apply Forall_app in Hin as [Hrest H11]. apply Forall_cons_1 in H11 as [H11 _].
  assert (Hw : windowOf ls = Some []) by (unfold windowOf; rewrite Hempty; reflexivity).
  destruct (checkAndRecord_run t1 (t1 :: rest) [] ls Hw) as (ss & ls' & Hrun & Hw' & Hss & Hall).
  { constructor. }
  { constructor; [unfold RATE_LIMIT_WINDOW; lia|exact Hrest]. }
  { simpl. lia. }
  simpl in Hw', Hss.
  exists ss, ls'. split; [exact Hrun|]. split; [lia|]. split; [exact Hall|].
  split.
  - destruct (checkRateLimit_run t11 ls' _ Hw') as (s & Hs & Hallowed & Hnext).
    exists s. split; [exact Hs|].
    assert (Hkeep : List.filter (inWindow t11) (t1 :: rest) = t1 :: rest).
    { apply (inWindow_all t1); [|lia].
      constructor; [lia|]. eapply Forall_impl; [exact Hrest|]. simpl. intros; lia. }
    rewrite Hkeep in Hallowed, Hnext. simpl length in *.
    rewrite Hlen in *. split; [exact Hallowed|].
    rewrite Hnext, Hallowed. simpl. f_equal. f_equal.
    apply Math_min_least. eapply Forall_impl; [exact Hrest|]. simpl. intros; lia.
  - destruct (checkRateLimit_run later ls' _ Hw') as (s & Hs & Hallowed & _).
    exists s. split; [exact Hs|].
    rewrite Hallowed. simpl.
    replace (inWindow later t1) with false
      by (symmetry; apply Z.ltb_ge; lia).
    pose proof (List.filter_length_le (inWindow later) rest).
    unfold RATE_LIMIT_MAX. apply Z.ltb_lt. lia.
Qed.

Lemma rate_limiter_window_witness :
  ∃ ss ls',
    checkAndRecord [1000; 1001; 1002; 1003; 1004; 1005; 1006; 1007; 1008; 1009] ∅
      = (Returns ss, ls')
    ∧ length ss = 10%nat
    ∧ Forall (fun s => allowed s = true) ss
    ∧ (∃ s11, checkRateLimit 1010 ls' = (Returns s11, ls')
         ∧ allowed s11 = false
         ∧ nextAvailable s11 = Some (1000 + RATE_LIMIT_WINDOW))
    ∧ (∃ s, checkRateLimit 61001 ls' = (Returns s, ls') ∧ allowed s = true).
Proof.
  apply (rate_limiter_window 1000
           [1001; 1002; 1003; 1004; 1005; 1006; 1007; 1008; 1009] 1010 61001 ∅).
  - reflexivity.
  - reflexivity.
  - unfold RATE_LIMIT_WINDOW. repeat constructor; lia.
  - unfold RATE_LIMIT_WINDOW. lia.
Defined.

(** The scenario computed: the eleventh check is refused until
    [1000 + 60000], and allowed from then on. *)
Example rate_limiter_scenario :
  let times := [1000; 1001; 1002; 1003; 1004; 1005; 1006; 1007; 1008; 1009] in
  let ls := after (checkAndRecord times) ∅ in
  match result (checkAndRecord times) ∅ with
  | Returns ss => map allowed ss = repeat true 10
  | Throws _ => False
  end
  ∧ result (checkRateLimit 1010) ls
    = Returns {| allowed := false; remaining := 0; resetIn := 60;
                 nextAvailable := Some 61000 |}
  ∧ result (checkRateLimit 60999) ls
    = Returns {| allowed := false; remaining := 0; resetIn := 1;
                 nextAvailable := Some 61000 |}
  ∧ result (checkRateLimit 61000) ls
    = Returns {| allowed := true; remaining := 1; resetIn := 1;
                 nextAvailable := None |}.
Proof. vm_compute. repeat split; reflexivity. Qed.

(** ** URL normalization *)

Example normalize_end_to_end :
  normalizeUrl parseURL "https://example.com/path/?b=2&a=1#frag"
  = "https://example.com/path?a=1&b=2".
Proof. vm_compute. reflexivity. Qed.

(** *** The fallback: lower case and trim *)

Lemma append_cons x (a b : string) : String x a +:+ b = String x (a +:+ b).
Proof. reflexivity. Qed.

Lemma append_nil_l (a : string) : "" +:+ a = a.
Proof. reflexivity. Qed.




Lemma stripEnd_idemp p s : stripEnd p (stripEnd p s) = stripEnd p s.
Proof.
  induction s as [|c s IH]; simpl; [reflexivity|].
  destruct (stripEnd p s) as [|d t] eqn:E.
  - destruct (p c) eqn:Ec; simpl; [reflexivity|]. rewrite Ec. reflexivity.
  - change (stripEnd p (String c (String d t)))
      with (match stripEnd p (String d t) with
            | EmptyString => if p c then EmptyString else String c EmptyString
            | String a b => String c (String a b)
            end).
    rewrite IH. reflexivity.
Qed.

Lemma stripStart_cleanStart p s : cleanStart p (stripStart p s).
Proof.
  induction s as [|c s IH]; simpl; [exact I|].
  destruct (p c) eqn:E; [exact IH|exact E].
Qed.

Lemma stripStart_clean p s : cleanStart p s → stripStart p s = s.
Proof. destruct s as [|c s]; simpl; [reflexivity|]. intros ->. reflexivity. Qed.

Lemma stripEnd_cleanStart p s : cleanStart p s → cleanStart p (stripEnd p s).
Proof.
  destruct s as [|c s]; simpl; [auto|]. intros Hc.
  destruct (stripEnd p s); [rewrite Hc|]; exact Hc.
Qed.

(** *** White space *)

Lemma string_length_ind (P : string → Prop) :
  (∀ s, (∀ t, (String.length t < String.length s)%nat → P t) → P s) → ∀ s, P s.
Proof.
  intros H s. remember (String.length s) as n eqn:E.
  revert s E. induction n as [n IH] using lt_wf_ind. intros s ->.
  apply H. intros t Ht. apply (IH _ Ht). reflexivity.
Qed.

Lemma trimStart_unfold s :
  trimStart s
  = match spaceWidth s with
    | O => s
    | S w => trimStart (dropS (S w) s)
    end.
Proof.
  destruct s as [|c1 [|c2 [|c3 r3]]]; cbn [trimStart spaceWidth].
  - reflexivity.
  - destruct (is_js_space c1); reflexivity.
  - destruct (is_js_space c1); [reflexivity|].
    destruct (isSpace2 c1 c2); reflexivity.
  - destruct (is_js_space c1); [reflexivity|].
    destruct (isSpace2 c1 c2); [reflexivity|].
    destruct (isSpace3 c1 c2 c3); reflexivity.
Qed.

Lemma spaceWidth_bound s : (spaceWidth s ≤ String.length s)%nat.
Proof.
  destruct s as [|c1 [|c2 [|c3 r3]]]; cbn [spaceWidth String.length].
  - lia.
  - destruct (is_js_space c1); lia.
  - destruct (is_js_space c1); [lia|]. destruct (isSpace2 c1 c2); lia.
  - destruct (is_js_space c1); [lia|]. destruct (isSpace2 c1 c2); [lia|].
    destruct (isSpace3 c1 c2 c3); lia.
Qed.

Lemma dropS_length n s : String.length (dropS n s) = (String.length s - n)%nat.
Proof.
  revert s. induction n as [|n IH]; intros [|c s]; cbn [dropS String.length];
    try lia. apply IH.
Qed.

Lemma trimStart_clean s : spaceWidth (trimStart s) = 0%nat.
Proof.
  induction s as [s IH] using string_length_ind.
  rewrite trimStart_unfold. destruct (spaceWidth s) as [|w] eqn:E; [exact E|].
  apply IH. rewrite dropS_length.
  pose proof (spaceWidth_bound s). lia.
Qed.

Lemma trimStart_fixed s : spaceWidth s = 0%nat → trimStart s = s.
Proof. intros H. rewrite trimStart_unfold, H. reflexivity. Qed.

Lemma trimStart_idemp s : trimStart (trimStart s) = trimStart s.
Proof. apply trimStart_fixed, trimStart_clean. Qed.

(** What starts with no white space has no beginning that does. *)
Lemma spaceWidth_prefix p q : spaceWidth (p +:+ q) = 0%nat → spaceWidth p = 0%nat.
Proof.
  destruct p as [|c1 [|c2 [|c3 r3]]]; try reflexivity.
  - rewrite append_cons, append_nil_l. cbn [spaceWidth].
    destruct (is_js_space c1); [destruct q; discriminate|reflexivity].
  - rewrite !append_cons, append_nil_l. cbn [spaceWidth].
    destruct (is_js_space c1); [discriminate|].
    destruct (isSpace2 c1 c2); [discriminate|reflexivity].
  - rewrite !append_cons. cbn [spaceWidth]. auto.
Qed.

(** White space in front stays in front when text is added behind. *)
Lemma spaceWidth_append a b w :
  spaceWidth a = S w →
  spaceWidth (a +:+ b) = S w ∧ dropS (S w) (a +:+ b) = dropS (S w) a +:+ b.
Proof.
  destruct a as [|c1 [|c2 [|c3 r3]]]; cbn [spaceWidth].
  - discriminate.
  - rewrite append_cons, append_nil_l. cbn [spaceWidth].
    destruct (is_js_space c1); [|discriminate].
    intros [= <-]. split; reflexivity.
  - rewrite !append_cons, append_nil_l. cbn [spaceWidth].
    destruct (is_js_space c1); [intros [= <-]; split; reflexivity|].
    destruct (isSpace2 c1 c2); [|discriminate].
    intros [= <-]. split; reflexivity.
  - rewrite !append_cons. cbn [spaceWidth].
    destruct (is_js_space c1); [intros [= <-]; split; reflexivity|].
    destruct (isSpace2 c1 c2); [intros [= <-]; split; reflexivity|].
    destruct (isSpace3 c1 c2 c3); [|discriminate].
    intros [= <-]. split; reflexivity.
Qed.

Lemma allSpace_spec s : allSpace s = true ↔ trimStart s = "".
Proof. unfold allSpace. apply String.eqb_eq. Qed.

Lemma trimStart_allSpace_app a b :
  allSpace a = true → trimStart (a +:+ b) = trimStart b.
Proof.
  induction a as [a IH] using string_length_ind. intros Ha.
  apply allSpace_spec in Ha. rewrite trimStart_unfold in Ha.
  destruct (spaceWidth a) as [|w] eqn:E.
  - subst a. reflexivity.
  - destruct (spaceWidth_append a b w E) as [Hw Hd].
    rewrite (trimStart_unfold (a +:+ b)), Hw, Hd.
    apply IH; [|apply allSpace_spec, Ha].
    rewrite dropS_length. pose proof (spaceWidth_bound a). lia.
Qed.

Lemma allSpace_app a b :
  allSpace a = true → allSpace b = true → allSpace (a +:+ b) = true.
Proof.
  intros Ha Hb. apply allSpace_spec. rewrite trimStart_allSpace_app by exact Ha.
  apply allSpace_spec, Hb.
Qed.

Lemma trimEnd_split s : ∃ q, s = trimEnd s +:+ q ∧ allSpace q = true.
Proof.
  induction s as [|c s IH].
  - exists "". split; reflexivity.
  - cbn [trimEnd]. destruct (allSpace (String c s)) eqn:E.
    + exists (String c s). split; [reflexivity|exact E].
    + destruct IH as (q & Hs & Hq). exists q.
      rewrite append_cons. split; [f_equal; exact Hs|exact Hq].
Qed.

Lemma trimEnd_idemp s : trimEnd (trimEnd s) = trimEnd s.
Proof.
  induction s as [|c s IH]; [reflexivity|].
  cbn [trimEnd]. destruct (allSpace (String c s)) eqn:E; [reflexivity|].
  cbn [trimEnd]. rewrite IH.
  destruct (allSpace (String c (trimEnd s))) eqn:E'; [|reflexivity].
  destruct (trimEnd_split s) as (q & Hs & Hq).
  pose proof (allSpace_app _ _ E' Hq) as H.
  rewrite append_cons, <- Hs, E in H. discriminate.
Qed.

Lemma trimEnd_clean s : spaceWidth s = 0%nat → spaceWidth (trimEnd s) = 0%nat.
Proof.
  intros H. destruct (trimEnd_split s) as (q & Hs & _).
  rewrite Hs in H. apply spaceWidth_prefix in H. exact H.
Qed.

Lemma trim_idemp s : trim (trim s) = trim s.
Proof.
  unfold trim. rewrite (trimStart_fixed (trimEnd _)).
  - apply trimEnd_idemp.
  - apply trimEnd_clean, trimStart_clean.
Qed.

Lemma trim_trimEnd s : trimEnd (trim s) = trim s.
Proof. apply trimEnd_idemp. Qed.

Lemma trimEnd_empty s : trimEnd s = "" ↔ allSpace s = true.
Proof.
  destruct s as [|c s]; [split; reflexivity|].
  cbn [trimEnd]. destruct (allSpace (String c s)); split; try reflexivity;
    discriminate.
Qed.

(** A blank text is one that [trim] leaves nothing of. *)
Lemma allSpace_trim s : allSpace s = true ↔ trim s = "".
Proof.
  unfold trim. rewrite trimEnd_empty. unfold allSpace.
  rewrite trimStart_idemp. reflexivity.
Qed.

Lemma isSpace2_lead c1 c2 : spaceLead c1 = false → isSpace2 c1 c2 = false.
Proof.
  unfold spaceLead, isSpace2. cbv zeta. intros H.
  repeat (apply orb_false_iff in H as [H ?]).
  rewrite H4. reflexivity.
Qed.

Lemma isSpace3_lead c1 c2 c3 : spaceLead c1 = false → isSpace3 c1 c2 c3 = false.
Proof.
  unfold spaceLead, isSpace3. cbv zeta. intros H.
  repeat (apply orb_false_iff in H as [H ?]).
  rewrite H0, H1, H2, H3. reflexivity.
Qed.

Lemma spaceWidth_lead c r : spaceLead c = false → spaceWidth (String c r) = 0%nat.
Proof.
  intros H. cbn [spaceWidth].
  assert (H1 : is_js_space c = false).
  { destruct (is_js_space c) eqn:E; [|reflexivity].
    unfold spaceLead in H. cbv zeta in H. rewrite E in H. discriminate. }
  rewrite H1. destruct r as [|c2 [|c3 r3]]; [reflexivity| |].
  - rewrite isSpace2_lead by exact H. reflexivity.
  - rewrite isSpace2_lead, isSpace3_lead by exact H. reflexivity.
Qed.

Lemma trimEnd_cons_lead c t :
  spaceLead c = false → trimEnd t = t → trimEnd (String c t) = String c t.
Proof.
  intros Hc Ht. cbn [trimEnd]. unfold allSpace.
  rewrite (trimStart_fixed (String c t)) by (apply spaceWidth_lead, Hc).
  cbn [String.eqb]. rewrite Ht. reflexivity.
Qed.

(** *** Lower case and white space *)







Lemma toLowerCase_length s : String.length (toLowerCase s) = String.length s.
Proof. induction s as [|c s IH]; simpl; [reflexivity|]. rewrite IH. reflexivity. Qed.

Lemma toLowerCase_app a b : toLowerCase (a +:+ b) = toLowerCase a +:+ toLowerCase b.
Proof.
  induction a as [|c a IH]; [reflexivity|].
  rewrite append_cons. cbn [toLowerCase]. rewrite append_cons, IH. reflexivity.
Qed.








(** *** Lengths in UTF-16 units *)

Lemma jsLength_app a b : jsLength (a +:+ b) = (jsLength a + jsLength b)%nat.
Proof.
  induction a as [|c a IH]; [reflexivity|].
  rewrite append_cons. cbn [jsLength]. rewrite IH. lia.
Qed.

Lemma highSurrogate_length c rest : jsLength (highSurrogate c rest) = 1%nat.
Proof.
  unfold highSurrogate. cbv zeta. cbn [jsLength]. unfold utf16Units.
  rewrite !nat_ascii_embedding.
  - set (top := (_ - 64)%nat).
    change ((237 <? 128)%nat) with false. change ((237 <? 192)%nat) with false.
    change ((237 <? 240)%nat) with true. cbv iota.
    assert (H1 : (160 + (top / 64) mod 16 <? 128)%nat = false)
      by (apply Nat.ltb_ge; lia).
    assert (H2 : (160 + (top / 64) mod 16 <? 192)%nat = true).
    { apply Nat.ltb_lt. pose proof (Nat.mod_upper_bound (top / 64) 16). lia. }
    assert (H3 : (128 + top mod 64 <? 128)%nat = false)
      by (apply Nat.ltb_ge; lia).
    assert (H4 : (128 + top mod 64 <? 192)%nat = true).
    { apply Nat.ltb_lt. pose proof (Nat.mod_upper_bound top 64). lia. }
    rewrite H1, H2, H3, H4. reflexivity.
  - pose proof (Nat.mod_upper_bound
      ((nat_of_ascii c mod 8 * 256 + byteAt 0 rest mod 64 * 4
        + byteAt 1 rest mod 64 / 16 - 64)) 64). lia.
  - pose proof (Nat.mod_upper_bound
      ((nat_of_ascii c mod 8 * 256 + byteAt 0 rest mod 64 * 4
        + byteAt 1 rest mod 64 / 16 - 64) / 64) 16). lia.
  - lia.
Qed.

Lemma utf16Units_bound c : (utf16Units c ≤ 2)%nat.
Proof.
  unfold utf16Units. cbv zeta.
  destruct (_ <? 128)%nat; [lia|]. destruct (_ <? 192)%nat; [lia|].
  destruct (_ <? 240)%nat; lia.
Qed.

Lemma substringTo_length n s :
  jsLength (substringTo n s) = Nat.min n (jsLength s).
Proof.
  revert n. induction s as [|c s IH]; intros n; cbn [substringTo jsLength].
  - lia.
  - cbv zeta. destruct (Nat.leb_spec (utf16Units c) n) as [Hw|Hw].
    + cbn [jsLength]. rewrite IH. lia.
    + pose proof (utf16Units_bound c).
      destruct (Nat.eqb_spec n 1) as [->|Hn].
      * rewrite highSurrogate_length. lia.
      * cbn [jsLength]. lia.
Qed.

Lemma substringTo_prefix n s :
  withinBMP s = true → ∃ rest, s = substringTo n s +:+ rest.
Proof.
  unfold withinBMP. revert n. induction s as [|c s IH]; intros n H.
  - exists "". reflexivity.
  - cbn [list_ascii_of_string forallb] in H. apply andb_true_iff in H as [Hc Hs].
    cbn [substringTo]. cbv zeta.
    destruct (Nat.leb_spec (utf16Units c) n) as [Hw|Hw].
    + destruct (IH (n - utf16Units c)%nat Hs) as (rest & Hr).
      exists rest. rewrite append_cons. f_equal. exact Hr.
    + assert (Hu : (utf16Units c ≤ 1)%nat).
      { unfold utf16Units. cbv zeta. rewrite Hc.
        destruct (_ <? 128)%nat; [lia|]. destruct (_ <? 192)%nat; lia. }
      destruct (Nat.eqb_spec n 1) as [->|Hn]; [lia|].
      exists (String c s). reflexivity.
Qed.


(** *** [URLSearchParams]: parsing what was serialized *)


Lemma append_assoc (a b c : string) : (a +:+ b) +:+ c = a +:+ (b +:+ c).
Proof.
  induction a as [|x a IH]; [reflexivity|].
  rewrite !append_cons, IH. reflexivity.
Qed.

Lemma append_nil_r (a : string) : a +:+ "" = a.
Proof.
  induction a as [|x a IH]; [reflexivity|].
  rewrite append_cons, IH. reflexivity.
Qed.


Lemma urlencodedSerialize_cons c s :
  urlencodedSerialize (String c s) = urlencodedByte c +:+ urlencodedSerialize s.
Proof. reflexivity. Qed.



Lemma allS_app p a b : allS p (a +:+ b) = allS p a && allS p b.
Proof.
  induction a as [|x a IH]; [reflexivity|].
  rewrite append_cons. simpl. rewrite IH, andb_assoc. reflexivity.
Qed.

(** One encoded byte holds safe characters, [+] and [%] only. *)
Lemma urlencodedByte_chars c :
  allS (fun x => urlencodedSafe x || charIn "+%" x) (urlencodedByte c) = true.
Proof. destruct c as [[] [] [] [] [] [] [] []]; reflexivity. Qed.

Lemma urlencodedSerialize_chars s :
  allS (fun x => urlencodedSafe x || charIn "+%" x) (urlencodedSerialize s) = true.
Proof.
  induction s as [|c s IH]; [reflexivity|].
  rewrite urlencodedSerialize_cons, allS_app, urlencodedByte_chars, IH. reflexivity.
Qed.

Lemma allS_impl (p q : ascii → bool) s :
  (∀ c, p c = true → q c = true) → allS p s = true → allS q s = true.
Proof.
  intros Hpq. induction s as [|c s IH]; simpl; [reflexivity|].
  intros H. apply andb_true_iff in H as [Hc Hs].
  rewrite (Hpq c Hc), (IH Hs). reflexivity.
Qed.









Lemma serializeParams_cons n v rest :
  serializeParams ((n, v) :: rest)
  = match rest with
    | [] => serializedPair n v
    | _ :: _ => serializedPair n v +:+ String "&" (serializeParams rest)
    end.
Proof.
  unfold serializedPair. cbn [serializeParams]. destruct rest.
  - rewrite append_nil_r. reflexivity.
  - rewrite !append_assoc. reflexivity.
Qed.


(** *** Sorting the parameters *)





(** *** What [normalizeUrl] does to the components *)

Lemma paramChar_not_encoded c : isParamChar c = true → inQuerySet c = false.
Proof. destruct c as [[] [] [] [] [] [] [] []]; intros H; first [reflexivity|discriminate H]. Qed.

Lemma percentEncode_fixed set s :
  allS (fun c => negb (set c)) s = true → percentEncode set s = s.
Proof.
  induction s as [|c s IH]; [reflexivity|]. simpl.
  intros H. apply andb_true_iff in H as [Hc Hs].
  apply negb_true_iff in Hc. rewrite Hc, (IH Hs). reflexivity.
Qed.

Lemma serializedPair_chars n v : allS isParamChar (serializedPair n v) = true.
Proof.
  unfold serializedPair. rewrite !allS_app.
  assert (H : ∀ s, allS isParamChar (urlencodedSerialize s) = true).
  { intros s. eapply allS_impl; [|apply urlencodedSerialize_chars].
    intros c Hc. unfold isParamChar.
    apply orb_true_iff in Hc as [->|Hc]; [reflexivity|].
    apply orb_true_iff. right.
    destruct c as [[] [] [] [] [] [] [] []]; first [reflexivity|discriminate Hc]. }
  rewrite !H. reflexivity.
Qed.

Lemma serializeParams_chars l : allS isParamChar (serializeParams l) = true.
Proof.
  induction l as [|[n v] rest IH]; [reflexivity|].
  rewrite serializeParams_cons. destruct rest as [|e rest].
  - apply serializedPair_chars.
  - rewrite allS_app, serializedPair_chars. cbn [allS andb].
    rewrite IH. reflexivity.
Qed.

Lemma encode_serializeParams l :
  percentEncode inQuerySet (serializeParams l) = serializeParams l.
Proof.
  apply percentEncode_fixed.
  eapply allS_impl; [|apply serializeParams_chars].
  intros c Hc. rewrite (paramChar_not_encoded c Hc). reflexivity.
Qed.

Lemma canonicalize_fields r :
  canonicalize r
  = {| url_scheme := url_scheme r;
       url_username := url_username r;
       url_password := url_password r;
       url_host := if url_opaque r then url_host r
                   else Some (toLowerCase (hostname r));
       url_port := if hasDefaultPort r then None else url_port r;
       url_path := if url_opaque r then url_path r else stripSlash (url_path r);
       url_opaque := url_opaque r;
       url_query := normalQuery (url_query r);
       url_fragment := None |}.
Proof.
  destruct r as [sch us pw h n p o q f].
  unfold canonicalize, normalQuery, stripSlash, hasDefaultPort.
  unfold set_hostname, set_pathname, set_search, clear_hash, clear_port,
    searchParams, pathname, protocol, port, hostname.
  cbn [url_scheme url_username url_password url_host url_port url_path
       url_opaque url_query url_fragment].
  set (s := serializeParams (sortEntries (parseParams (default "" q)))).
  assert (Hq : match (if negb (String.eqb s "") then "?" +:+ s else "") with
               | EmptyString => None
               | String c rest =>
                   Some (percentEncode inQuerySet (if Ascii.eqb c "?" then rest else
                          (if negb (String.eqb s "") then "?" +:+ s else "")))
               end = if String.eqb s "" then None else Some s).
  { destruct (String.eqb s ""); [reflexivity|].
    change ("?" +:+ s) with (String "?" s). cbn [negb].
    rewrite Ascii.eqb_refl. unfold s. rewrite encode_serializeParams.
    reflexivity. }
  destruct o; cbn [url_scheme url_username url_password url_host url_port url_path
       url_opaque url_query url_fragment];
    destruct (_ || _); cbn [url_scheme url_username url_password url_host
       url_port url_path url_opaque url_query url_fragment];
    fold s; rewrite ?Hq; try reflexivity.
Qed.





(** *** Reading a normalized URL back *)

Ltac by_bytes c := destruct c as [[] [] [] [] [] [] [] []].


Lemma stripEnd_all p s :
  allS (fun c => negb (p c)) s = true → stripEnd p s = s.
Proof.
  induction s as [|c s IH]; [reflexivity|]. simpl.
  intros H. apply andb_true_iff in H as [Hc Hs].
  apply negb_true_iff in Hc. rewrite (IH Hs), Hc.
  destruct s; reflexivity.
Qed.

Lemma filterS_all p s : allS p s = true → filterS p s = s.
Proof.
  induction s as [|c s IH]; [reflexivity|]. simpl.
  intros H. apply andb_true_iff in H as [Hc Hs].
  rewrite Hc, (IH Hs). reflexivity.
Qed.

Lemma allS_forall p s :
  allS p s = true ↔ ∀ c, In c (list_ascii_of_string s) → p c = true.
Proof.
  induction s as [|d s IH]; simpl.
  - split; [intros _ c []|reflexivity].
  - rewrite andb_true_iff, IH. split.
    + intros [Hd Hs] c [<-|Hc]; auto.
    + intros H. split; [apply H; left; reflexivity|].
      intros c Hc. apply H. right. exact Hc.
Qed.

(** **** Paths *)





















Lemma joinPath_nonempty segs : segs ≠ [] → (1 <=? String.length (joinPath segs))%nat = true.
Proof. destruct segs; [congruence|reflexivity]. Qed.




(** **** Host and port *)








(** **** Character classes *)





Lemma stripStart_all p s :
  allS (fun c => negb (p c)) s = true → stripStart p s = s.
Proof.
  destruct s as [|c s]; [reflexivity|]. simpl.
  intros H. apply andb_true_iff in H as [Hc _].
  apply negb_true_iff in Hc. rewrite Hc. reflexivity.
Qed.


(** The input is taken as it is when all of it is visible. *)
Lemma visible_input s :
  allS visible s = true →
  filterS (fun c => negb (isTabOrNewline c))
          (stripEnd isC0OrSpace (stripStart isC0OrSpace s)) = s.
Proof.
  intros H.
  assert (H1 : allS (fun c => negb (isC0OrSpace c)) s = true).
  { eapply allS_impl; [|exact H]. intros c Hc.
    apply andb_true_iff in Hc as [Hc _]. exact Hc. }
  assert (H2 : allS (fun c => negb (isTabOrNewline c)) s = true).
  { eapply allS_impl; [|exact H]. intros c Hc.
    apply andb_true_iff in Hc as [_ Hc]. exact Hc. }
  rewrite stripStart_all, stripEnd_all, filterS_all by assumption.
  reflexivity.
Qed.

(** **** The whole URL *)








(** **** A second application on a parsed URL *)









(** The lowercased, trimmed copy of an input that does not parse can
    parse: a no-break space in front stops the parser and not [trim].
    The second application then takes the other branch and strips
    the slash. *)
Example fallback_copy_parses :
  let nbsp := String (ascii_of_nat 194) (String (ascii_of_nat 160) "") in
  let u := nbsp +:+ "HTTP://Example.com/A/" in
  parseURL u = None
  ∧ normalizeUrl parseURL u = "http://example.com/a/"
  ∧ normalizeUrl parseURL (normalizeUrl parseURL u) = "http://example.com/a".
Proof. vm_compute. repeat split; reflexivity. Qed.

(** C9 (as amended). With the trailing slash on the path, the two
    inputs of the contract normalize to the same string: scheme and
    host case, the explicit default port, the order of the parameters
    and the trailing slash of the path are all erased. *)
Theorem normalizeUrl_equivalent_pair :
  normalizeUrl parseURL "HTTP://Example.com:80/a/?b=2&a=1"
  = normalizeUrl parseURL "http://example.com/a?a=1&b=2"
  ∧ normalizeUrl parseURL "http://example.com/a?a=1&b=2"
    = "http://example.com/a?a=1&b=2".
Proof. vm_compute. split; reflexivity. Qed.

(** C9 as stated fails: in [.../a?b=2&a=1/] the slash ends the query,
    not the path; it belongs to the value of [a] and comes out as
    [%2F]. *)
Lemma normalizeUrl_pair_differs :
  normalizeUrl parseURL "HTTP://Example.com:80/a?b=2&a=1/"
  = "http://example.com/a?a=1%2F&b=2"
  ∧ normalizeUrl parseURL "http://example.com/a?a=1&b=2"
    = "http://example.com/a?a=1&b=2"
  ∧ String.eqb (normalizeUrl parseURL "HTTP://Example.com:80/a?b=2&a=1/")
               (normalizeUrl parseURL "http://example.com/a?a=1&b=2") = false.
Proof. vm_compute. repeat split; reflexivity. Qed.


(** ** Uniqueness of codes and aliases *)














Lemma urlsOf_rate_insert ls ts :
  urlsOf (<[RATE_LIMIT_KEY := RateJson ts]> ls) = urlsOf ls.
Proof.
  unfold urlsOf. rewrite lookup_insert_ne; [reflexivity|].
  intros H. symmetry in H. exact (storage_key_ne H).
Qed.

Lemma recordRateLimitHit_urlsOf now fault ls :
  urlsOf (after (recordRateLimitHit now fault) ls) = urlsOf ls.
Proof.
  unfold urlsOf. rewrite recordRateLimitHit_urls. reflexivity.
Qed.

Lemma createUrl_after now faults fault uuid form p ls :
  urlsOf (after (createUrl now faults fault uuid form p) ls)
  = urlsOf (after (addUrl now faults (newUrl now uuid form p)) ls).
Proof.
  unfold createUrl, after at 1.
  pose proof (addUrl_result now faults (newUrl now uuid form p) ls) as R.
  unfold result, after in *. unfold mbind at 1, M_bind.
  destruct (addUrl now faults _ ls) as [[l|e] ls1]; simpl in *; [|discriminate].
  unfold mbind, M_bind.
  pose proof (recordRateLimitHit_urlsOf now fault ls1) as Hr. unfold after in Hr.
  destruct (recordRateLimitHit now fault ls1) as [[[]|e] ls2]; simpl in *; exact Hr.
Qed.


(** When [handleSubmit] arms the timer, it has written nothing to the
    records, the code it settled on is carried by no stored record,
    and the alias the new record will get is that code or empty. *)
Lemma handleSubmit_creating URL_new isValidUrl isSelfReferencing now entropy
    form ls outcome ls' :
  handleSubmit URL_new isValidUrl isSelfReferencing now entropy form ls
    = (Returns outcome, ls') →
  ls' = ls
  ∧ ∀ p, outcome = Creating p →
      codeFree ls (pending_shortCode p) = true
      ∧ ∀ a, customAlias (newUrl 0 "" form p) = Some a →
             a = "" ∨ a = pending_shortCode p.
Proof.
  unfold handleSubmit. intros H.
  pose proof (checkRateLimit_after now ls) as Hc. unfold after in Hc.
  unfold mbind at 1, M_bind in H.
  destruct (checkRateLimit now ls) as [[status|e] ls0]; simpl in Hc; subst ls0;
    [|discriminate].
  destruct (negb (allowed status)).
  { inversion H; subst. split; [reflexivity|]. intros p Hp. discriminate. }
  destruct (String.eqb (trim (form_url form)) "").
  { inversion H; subst. split; [reflexivity|]. intros p Hp. discriminate. }
  destruct (negb (isValidUrl _)).
  { inversion H; subst. split; [reflexivity|]. intros p Hp. discriminate. }
  destruct (isSelfReferencing _).
  { inversion H; subst. split; [reflexivity|]. intros p Hp. discriminate. }
  rewrite (bind_run _ _ _ _ _ (findDuplicateUrl_run _ ls)) in H.
  set (finalUrl := ensureProtocol _) in *.
  set (normalized := normalizeUrl URL_new finalUrl) in *.
  assert (Hrest :
    (if form_useCustomAlias form
        && negb (String.eqb (trim (form_customAlias form)) "")
     then
       if negb (isValidAlias (trim (form_customAlias form))) then mret AliasInvalid
       else
         free ← isShortCodeUnique (trim (form_customAlias form));
         if negb free then mret AliasTaken
         else mret (Creating {| pending_finalUrl := finalUrl;
                                pending_normalized := normalized;
                                pending_shortCode := trim (form_customAlias form) |})
     else
       generated ←
         generateUniqueShortCode (fun k => generateShortCode (entropy k)) 5;
       if negb (truthyStr generated) then mret GenerationFailed
       else mret (Creating {| pending_finalUrl := finalUrl;
                              pending_normalized := normalized;
                              pending_shortCode := default "" generated |})) ls
    = (Returns outcome, ls')
    ∨ ∃ existing, (Returns (DuplicateShown existing), ls) = (Returns outcome, ls')).
  { destruct (List.find _ (urlsOf ls)) as [existing|];
      [destruct (form_duplicate form)|]; eauto. }
  clear H. destruct Hrest as [H|[existing H]].
  2:{ inversion H; subst. split; [reflexivity|]. intros p Hp. discriminate. }
  destruct (form_useCustomAlias form) eqn:Huse; cbn [andb] in H.
  - destruct (String.eqb (trim (form_customAlias form)) "") eqn:Hblank; cbn [negb] in H.
    + (* alias switched on but blank: a generated code *)
      rewrite (bind_run _ _ _ _ _ (generateUniqueShortCode_run _ ls)) in H.
      destruct (List.find _ _) as [code|] eqn:Hfind; cbn in H.
      * destruct (String.eqb code ""); cbn in H; inversion H; subst;
          (split; [reflexivity|]); intros p Hp; [discriminate|].
        inversion Hp; subst p. cbn.
        apply List.find_some in Hfind as [_ Hfree]. split; [exact Hfree|].
        rewrite Huse. intros a Ha. inversion Ha; subst a.
        left. apply String.eqb_eq, Hblank.
      * inversion H; subst. split; [reflexivity|]. intros p Hp. discriminate.
    + destruct (negb (isValidAlias _)).
      { inversion H; subst. split; [reflexivity|]. intros p Hp. discriminate. }
      rewrite (bind_run _ _ _ _ _ (isShortCodeUnique_run _ ls)) in H.
      destruct (codeFree ls (trim (form_customAlias form))) eqn:Hfree; cbn in H;
        inversion H; subst; (split; [reflexivity|]); intros p Hp; [|discriminate].
      inversion Hp; subst p. cbn. split; [exact Hfree|].
      rewrite Huse. intros a Ha. inversion Ha; subst a. right. reflexivity.
  - rewrite (bind_run _ _ _ _ _ (generateUniqueShortCode_run _ ls)) in H.
    destruct (List.find _ _) as [code|] eqn:Hfind; cbn in H.
    + destruct (String.eqb code ""); cbn in H; inversion H; subst;
        (split; [reflexivity|]); intros p Hp; [discriminate|].
      inversion Hp; subst p. cbn.
      apply List.find_some in Hfind as [_ Hfree]. split; [exact Hfree|].
      rewrite Huse. intros a Ha. discriminate.
    + inversion H; subst. split; [reflexivity|]. intros p Hp. discriminate.
Qed.













(** The alias path refuses a code that is taken, and the generated
    path skips one. *)
Example taken_alias_refused :
  result (handleSubmit parseURL (fun _ => true) (fun _ => false) 3000
            (fun _ => {| randomByte := fun _ => 0; timingEntropy := 0 |})
            {| form_url := "https://example.org/other";
               form_customAlias := "my-link";
               form_useCustomAlias := true;
               form_expiration := "never";
               form_duplicate := None;
               form_password := "";
               form_usePassword := false |})
         (storage sampleState)
  = Returns AliasTaken.
Proof. vm_compute. reflexivity. Qed.

(** * Further properties of the code *)

(** ** Display helpers *)

(** X1. For a limit of at least 3, [formatUrl] never returns more than
    the limit, counted as [length] counts: a URL within the limit is
    returned as it is, a longer one is cut to its first [maxLength - 3]
    units followed by three dots, which makes exactly [maxLength]
    units. What stays is a beginning of the URL, unless the cut falls
    inside a character beyond U+FFFF, of which half a pair stays. *)
Theorem formatUrl_bound (url : string) (maxLength : Z) :
  3 ≤ maxLength →
  Z.of_nat (jsLength (formatUrl url (Some maxLength)))
    = Z.min (Z.of_nat (jsLength url)) maxLength
  ∧ (Z.of_nat (jsLength url) ≤ maxLength →
     formatUrl url (Some maxLength) = url)
  ∧ (maxLength < Z.of_nat (jsLength url) →
     ∃ head, formatUrl url (Some maxLength) = head +:+ "..."
       ∧ Z.of_nat (jsLength head) = maxLength - 3
       ∧ (withinBMP url = true → ∃ rest, url = head +:+ rest)).
Proof.
  intros Hmax. unfold formatUrl. cbn [default from_option Datatypes.id].
  pose proof (substringTo_length (Z.to_nat (maxLength - 3)) url) as Hlen.
  destruct (maxLength <? Z.of_nat (jsLength url)) eqn:E.
  - apply Z.ltb_lt in E. split; [|split].
    + rewrite jsLength_app, Hlen. change (jsLength "...") with 3%nat. lia.
    + lia.
    + intros _. exists (substringTo (Z.to_nat (maxLength - 3)) url).
      split; [reflexivity|]. split; [rewrite Hlen; lia|].
      apply substringTo_prefix.
  - apply Z.ltb_ge in E. split; [lia|]. split; [reflexivity|lia].
Qed.

Lemma formatUrl_bound_witness :
  3 ≤ 24
  ∧ Z.of_nat (jsLength (formatUrl "https://example.com/café/menu" (Some 24)))
    = Z.min (Z.of_nat (jsLength "https://example.com/café/menu")) 24.
Proof.
  split; [lia|].
  apply (formatUrl_bound "https://example.com/café/menu" 24). lia.
Defined.

(** Units, not bytes: a URL of 24 units and 25 bytes is within a limit
    of 24; and a cut inside a character beyond U+FFFF leaves its first
    half, so that the result has the units of the limit. *)
Example formatUrl_counts_units :
  formatUrl "https://example.com/café" (Some 24) = "https://example.com/café"
  ∧ String.length "https://example.com/café" = 25%nat
  ∧ jsLength (formatUrl "ab😀cdef" (Some 6)) = 6%nat
  ∧ formatUrl "ab😀cdef" (Some 6)
    = "ab" +:+ highSurrogate (ascii_of_nat 240) (dropS 3 "ab😀") +:+ "...".
Proof. vm_compute. repeat split; reflexivity. Qed.

(** Below 3 the limit is not kept: the three dots alone are longer. *)
Example formatUrl_small_limit :
  formatUrl "https://example.com" (Some 2) = "..."
  ∧ formatUrl "https://example.com" (Some (-5)) = "...".
Proof. split; reflexivity. Qed.

(** [getTimeAgo] by the elapsed milliseconds: the nested
    roundings of seconds, minutes, hours and days amount to one
    division of the elapsed time by the length of the unit shown, and
    the units change at 10 s, 1 min, 1 h, 1 day, 7 days and 30 days; a
    timestamp in the future reads "just now". *)
Lemma getTimeAgo_thresholds (toLocaleDateString : Z → string) (now timestamp : Z) :
  getTimeAgo toLocaleDateString now timestamp
  = let elapsed := now - timestamp in
    if elapsed <? 10000 then "just now"
    else if elapsed <? 60000 then numberToString (elapsed / 1000) +:+ "s ago"
    else if elapsed <? 3600000 then numberToString (elapsed / 60000) +:+ "m ago"
    else if elapsed <? 86400000 then numberToString (elapsed / 3600000) +:+ "h ago"
    else if elapsed <? 604800000 then numberToString (elapsed / 86400000) +:+ "d ago"
    else if elapsed <? 2592000000 then numberToString (elapsed / 604800000) +:+ "w ago"
    else toLocaleDateString timestamp.
Proof.
  unfold getTimeAgo. cbv zeta.
  set (elapsed := now - timestamp).
  rewrite !Z.div_div by lia.
  change (1000 * 60) with 60000. change (60000 * 60) with 3600000.
  change (3600000 * 24) with 86400000. change (86400000 * 7) with 604800000.
  assert (H1 : (elapsed / 1000 <? 10) = (elapsed <? 10000)).
  { apply eq_true_iff_eq. rewrite !Z.ltb_lt.
    pose proof (Z.div_lt_upper_bound elapsed 1000 10).
    pose proof (Z.div_le_lower_bound elapsed 1000 10). lia. }
  assert (H2 : (elapsed / 1000 <? 60) = (elapsed <? 60000)).
  { apply eq_true_iff_eq. rewrite !Z.ltb_lt.
    pose proof (Z.div_lt_upper_bound elapsed 1000 60).
    pose proof (Z.div_le_lower_bound elapsed 1000 60). lia. }
  assert (H3 : (elapsed / 60000 <? 60) = (elapsed <? 3600000)).
  { apply eq_true_iff_eq. rewrite !Z.ltb_lt.
    pose proof (Z.div_lt_upper_bound elapsed 60000 60).
    pose proof (Z.div_le_lower_bound elapsed 60000 60). lia. }
  assert (H4 : (elapsed / 3600000 <? 24) = (elapsed <? 86400000)).
  { apply eq_true_iff_eq. rewrite !Z.ltb_lt.
    pose proof (Z.div_lt_upper_bound elapsed 3600000 24).
    pose proof (Z.div_le_lower_bound elapsed 3600000 24). lia. }
  assert (H5 : (elapsed / 86400000 <? 7) = (elapsed <? 604800000)).
  { apply eq_true_iff_eq. rewrite !Z.ltb_lt.
    pose proof (Z.div_lt_upper_bound elapsed 86400000 7).
    pose proof (Z.div_le_lower_bound elapsed 86400000 7). lia. }
  assert (H6 : (elapsed / 86400000 <? 30) = (elapsed <? 2592000000)).
  { apply eq_true_iff_eq. rewrite !Z.ltb_lt.
    pose proof (Z.div_lt_upper_bound elapsed 86400000 30).
    pose proof (Z.div_le_lower_bound elapsed 86400000 30). lia. }
  rewrite H1, H2, H3, H4, H5, H6. reflexivity.
Qed.

(** ** Expiry helpers *)

Lemma decimal_first_digit n :
  ∃ c rest, decimal n = String c rest ∧ isDigit c = true.
Proof.
  unfold decimal. destruct n as [|p]; [exists "0"%char, ""; split; reflexivity|].
  cbn [N.to_uint]. pose proof (DecimalPos.Unsigned.to_uint_nonnil p) as Hnil.
  destruct (Pos.to_uint p); [contradiction|..]; eexists _, _; split; reflexivity.
Qed.

Lemma numberToString_first_digit m suffix :
  0 ≤ m →
  ∃ c rest, numberToString m +:+ suffix = String c rest ∧ isDigit c = true.
Proof.
  intros Hm. unfold numberToString.
  destruct (m <? 0) eqn:E; [apply Z.ltb_lt in E; lia|].
  destruct (decimal_first_digit (Z.to_N m)) as (c & rest & -> & Hc).
  exists c, (rest +:+ suffix). split; [apply append_cons|exact Hc].
Qed.

Lemma label_not_expired m suffix :
  0 ≤ m → numberToString m +:+ suffix ≠ "Expired".
Proof.
  intros Hm H. destruct (numberToString_first_digit m suffix Hm) as (c & rest & Heq & Hc).
  rewrite Heq in H. injection H as -> _. discriminate.
Qed.

(** X2. The three expiry helpers read at one clock value. A record
    that [isExpired] reports is labelled "Expired" and is never
    "expiring soon"; the label "Expired" is shown exactly when
    [expiresAt] is set and not later than [now], so it is already shown
    at the instant [now = expiresAt], where [isExpired] is still false;
    a record that is expiring soon is not expired and its label counts
    the minutes left, fewer than 60; and a record without expiry
    ([null] or [0]) is labelled "Never" and is neither. *)
Theorem expiry_helpers_consistent (now : Z) (expiresAt : option Z) :
  (isExpired now expiresAt = true →
   getTimeRemaining now expiresAt = "Expired"
   ∧ isExpiringSoon now now expiresAt = false)
  ∧ (getTimeRemaining now expiresAt = "Expired"
     ↔ ∃ e, expiresAt = Some e ∧ e ≠ 0 ∧ e ≤ now)
  ∧ (isExpiringSoon now now expiresAt = true →
     isExpired now expiresAt = false
     ∧ ∃ minutes, 0 ≤ minutes < 60
         ∧ getTimeRemaining now expiresAt = numberToString minutes +:+ "m left")
  ∧ (truthyNum expiresAt = false →
     getTimeRemaining now expiresAt = "Never"
     ∧ isExpired now expiresAt = false
     ∧ isExpiringSoon now now expiresAt = false).
Proof.
  unfold isExpired, isExpiringSoon, getTimeRemaining, truthyNum.
  destruct expiresAt as [e|]; cbn [negb].
  2:{ repeat split; try discriminate; try reflexivity.
      intros (e & He & _); discriminate. }
  destruct (e =? 0) eqn:E0; cbn [negb].
  { apply Z.eqb_eq in E0. repeat split; try discriminate; try reflexivity.
    intros (e' & He & Hne & _). injection He as <-. contradiction. }
  apply Z.eqb_neq in E0.
  assert (Hdiv : 0 < e - now → 0 ≤ (e - now) / 60000) by (intros; apply Z.div_pos; lia).
  split; [|split; [|split]].
  - intros H. apply Z.ltb_lt in H.
    destruct (e - now <=? 0) eqn:E1; [|apply Z.leb_gt in E1; lia].
    split; [reflexivity|].
    destruct (now <? e) eqn:E2; [apply Z.ltb_lt in E2; lia|reflexivity].
  - split.
    + intros H. exists e. split; [reflexivity|]. split; [exact E0|].
      destruct (e - now <=? 0) eqn:E1; [apply Z.leb_le in E1; lia|].
      apply Z.leb_gt in E1. exfalso.
      destruct (_ <? 60); [|destruct (_ <? 24)];
        revert H; apply label_not_expired.
      * apply Hdiv; lia.
      * apply Z.div_pos; [apply Hdiv|]; lia.
      * apply Z.div_pos; [apply Z.div_pos; [apply Hdiv|]|]; lia.
    + intros (e' & He & _ & Hle). injection He as <-.
      destruct (e - now <=? 0) eqn:E1; [reflexivity|apply Z.leb_gt in E1; lia].
  - intros H. apply andb_true_iff in H as [H1 H2].
    apply Z.ltb_lt in H1, H2.
    split; [apply Z.ltb_ge; lia|].
    exists ((e - now) / 60000).
    assert (Hlt : (e - now) / 60000 < 60)
      by (apply Z.div_lt_upper_bound; lia).
    split; [split; [apply Hdiv; lia|exact Hlt]|].
    destruct (e - now <=? 0) eqn:E1; [apply Z.leb_le in E1; lia|].
    destruct (_ <? 60) eqn:E2; [reflexivity|apply Z.ltb_ge in E2; lia].
  - discriminate.
Qed.

(** The test file's expectations, at a clock value of the test's own
    choosing. *)
Example expiry_test_expectations :
  let now := 1700000000000 in
  let oneHour := 3600000 in
  isExpired now (Some (now - oneHour)) = true
  ∧ isExpired now (Some (now + oneHour)) = false
  ∧ isExpired now None = false
  ∧ isExpiringSoon now now (Some (now + oneHour - 1000)) = true
  ∧ isExpiringSoon now now (Some (now + oneHour * 2)) = false.
Proof. vm_compute. repeat split; reflexivity. Qed.

(** ** Protocol prefix *)

Lemma trim_after_https t :
  trimEnd t = t → trim ("https://" +:+ t) = "https://" +:+ t.
Proof.
  intros Ht. unfold trim.
  change ("https://" +:+ t)
    with (String "h" (String "t" (String "t" (String "p" (String "s"
           (String ":" (String "/" (String "/" t)))))))).
  rewrite trimStart_fixed by (apply spaceWidth_lead; reflexivity).
  do 8 (apply trimEnd_cons_lead; [reflexivity|]). exact Ht.
Qed.

(** X3. [ensureProtocol] is idempotent; it returns the empty string
    exactly for an input that is blank, and every other result starts
    with [http://] or [https://] (in any letter case) and has no white
    space at either end. *)
Theorem ensureProtocol_idempotent (url : string) :
  ensureProtocol (ensureProtocol url) = ensureProtocol url
  ∧ (ensureProtocol url = "" ↔ allSpace url = true)
  ∧ (ensureProtocol url = "" ∨ hasHttpPrefix (ensureProtocol url) = true)
  ∧ trim (ensureProtocol url) = ensureProtocol url.
Proof.
  assert (Hfix : trim (ensureProtocol url) = ensureProtocol url).
  { unfold ensureProtocol.
    destruct (String.eqb (trim url) "") eqn:E; [apply trim_idemp|].
    destruct (negb (hasHttpPrefix (trim url))); [|apply trim_idemp].
    apply trim_after_https, trim_trimEnd. }
  assert (Hprefix : ensureProtocol url = ""
                    ∨ hasHttpPrefix (ensureProtocol url) = true).
  { unfold ensureProtocol.
    destruct (String.eqb (trim url) "") eqn:E;
      [left; apply String.eqb_eq, E|right].
    destruct (hasHttpPrefix (trim url)) eqn:Hp; cbn [negb]; [exact Hp|reflexivity]. }
  split; [|split; [|split; [exact Hprefix|exact Hfix]]].
  - unfold ensureProtocol at 1. rewrite Hfix.
    destruct (String.eqb (ensureProtocol url) "") eqn:E; [reflexivity|].
    destruct Hprefix as [H|H]; [rewrite H in E; discriminate|].
    rewrite H. reflexivity.
  - rewrite allSpace_trim. unfold ensureProtocol.
    destruct (String.eqb (trim url) "") eqn:E.
    + apply String.eqb_eq in E. rewrite E. split; reflexivity.
    + apply String.eqb_neq in E.
      destruct (negb (hasHttpPrefix (trim url))); split; intros H;
        try contradiction; try discriminate; exact H.
Qed.

(** The white space outside ASCII is white space too: a no-break space
    alone is a blank input, and one in front of an address goes. *)
Example ensureProtocol_no_break_space :
  let nbsp := String (ascii_of_nat 194) (String (ascii_of_nat 160) "") in
  ensureProtocol nbsp = ""
  ∧ ensureProtocol (nbsp +:+ "example.com ") = "https://example.com"
  ∧ ensureProtocol (" HTTP://Example.com" +:+ nbsp) = "HTTP://Example.com".
Proof. vm_compute. repeat split; reflexivity. Qed.

(** ** Generated codes and aliases *)

Lemma base62At_alnum i : 0 ≤ i < 62 → allS isAlnum (base62At i) = true.
Proof.
  intros H. unfold base62At.
  assert (Hn : (Z.to_nat i < 62)%nat) by lia.
  generalize dependent (Z.to_nat i). intros n Hn.
  do 62 (destruct n as [|n]; [reflexivity|]). lia.
Qed.

Lemma codeFrom_alnum e n : ∀ i, allS isAlnum (codeFrom e i n) = true.
Proof.
  induction n as [|n IH]; intros i; simpl; [reflexivity|].
  change (String.append ?a ?b) with (a +:+ b).
  rewrite allS_app, IH, base62At_alnum by apply codeIndex_range.
  reflexivity.
Qed.

Lemma generated_code_alias e len :
  (3 ≤ default 7 len ≤ 30)%nat → isValidAlias (generateShortCode e len) = true.
Proof.
  intros Hlen. unfold isValidAlias. rewrite generateShortCode_length.
  apply andb_true_iff. split; [apply andb_true_iff; split|].
  - apply Nat.leb_le. lia.
  - apply Nat.leb_le. lia.
  - eapply allS_impl; [|apply codeFrom_alnum]. intros c Hc. rewrite Hc. reflexivity.
Qed.

(** X4. Whatever the random bytes and the timing value, a code made
    by [generateShortCode] has exactly the requested number of
    characters (7 without argument), all of them letters and digits of
    the Base62 alphabet (the index never leaves the alphabet); with a
    length from 3 to 30, as the three lengths the allocator asks for,
    the code passes [isValidAlias]. *)
Theorem generateShortCode_valid_alias (e : Entropy) (len : option nat) :
  (3 ≤ default 7 len ≤ 30)%nat →
  String.length (generateShortCode e len) = default 7%nat len
  ∧ allS isAlnum (generateShortCode e len) = true
  ∧ isValidAlias (generateShortCode e len) = true.
Proof.
  intros Hlen.
  pose proof (generateShortCode_length e len) as Hl.
  assert (Ha : allS isAlnum (generateShortCode e len) = true)
    by apply codeFrom_alnum.
  split; [exact Hl|]. split; [exact Ha|].
  apply generated_code_alias, Hlen.
Qed.

Lemma generateShortCode_valid_alias_witness :
  (3 ≤ 7 ≤ 30)%nat
  ∧ isValidAlias
      (generateShortCode {| randomByte := fun i => Z.of_nat i * 37;
                            timingEntropy := 11 |} None) = true.
Proof.
  split; [lia|].
  apply (generateShortCode_valid_alias
           {| randomByte := fun i => Z.of_nat i * 37; timingEntropy := 11 |} None).
  cbn. lia.
Defined.

(** ** URL validation *)

Lemma existsb_false_Forall {A} (f : A → bool) l :
  existsb f l = false → Forall (fun x => f x = false) l.
Proof.
  induction l as [|x l IH]; simpl; intros H; constructor;
    apply orb_false_iff in H as [H1 H2]; auto.
Qed.

(** X5. What [isValidUrl] accepts, whatever the URL parser and the
    lower-casing of the platform: the text has at most 2000 units and
    its lower case contains none of the suspicious keywords; it
    parses; the protocol is [http:], [https:] or [ftp:]; the host name
    contains a dot or is [localhost], has at most five labels, each of
    1 to 63 units; and a host name made of four groups of digits
    starts with [127.] or [192.168.]. *)
Theorem isValidUrl_accepts_only (URL_new : string → option URL)
    (String_toLowerCase : string → string) (url : string) :
  isValidUrl URL_new String_toLowerCase url = true →
  (jsLength url ≤ 2000)%nat
  ∧ Forall (fun keyword => includes (String_toLowerCase url) keyword = false)
           suspiciousKeywords
  ∧ ∃ parsed, URL_new url = Some parsed
      ∧ In (protocol parsed) ["http:"; "https:"; "ftp:"]
      ∧ (includes (hostname parsed) "." = true ∨ hostname parsed = "localhost")
      ∧ (length (splitOn "." (hostname parsed)) ≤ 5)%nat
      ∧ Forall (fun label => (1 ≤ jsLength label ≤ 63)%nat)
               (splitOn "." (hostname parsed))
      ∧ (ipPattern (hostname parsed) = true →
         startsWith "127." (hostname parsed) = true
         ∨ startsWith "192.168." (hostname parsed) = true).
Proof.
  unfold isValidUrl. intros H.
  destruct (2000 <? jsLength url)%nat eqn:Elen; [discriminate|].
  apply Nat.ltb_ge in Elen.
  destruct (URL_new url) as [parsed|] eqn:Eparse; [|discriminate].
  destruct (existsb (String.eqb (protocol parsed)) _) eqn:Eproto;
    cbn [negb] in H; [|discriminate].
  destruct (negb (includes (hostname parsed) ".")
            && negb (String.eqb (hostname parsed) "localhost")) eqn:Ehost;
    [discriminate|].
  destruct (containsSuspiciousPatterns URL_new String_toLowerCase url) eqn:Esusp;
    [discriminate|].
  destruct (ipPattern (hostname parsed) && _) eqn:Eip; [discriminate|].
  destruct (existsb _ (splitOn "." (hostname parsed))) eqn:Eparts; [discriminate|].
  clear H. unfold containsSuspiciousPatterns in Esusp. rewrite Eparse in Esusp.
  destruct (existsb _ suspiciousKeywords) eqn:Ekw; [discriminate|].
  destruct (5 <? length (splitOn "." (hostname parsed)))%nat eqn:Esub;
    [discriminate|].
  apply Nat.ltb_ge in Esub.
  split; [exact Elen|]. split; [apply existsb_false_Forall, Ekw|].
  exists parsed. split; [reflexivity|]. split; [|split; [|split; [exact Esub|split]]].
  - apply existsb_exists in Eproto as (x & Hin & Heq).
    apply String.eqb_eq in Heq. rewrite Heq. exact Hin.
  - destruct (includes (hostname parsed) "."); [left; reflexivity|right].
    cbn [negb andb] in Ehost. apply negb_false_iff, String.eqb_eq in Ehost.
    exact Ehost.
  - apply existsb_false_Forall in Eparts.
    eapply Forall_impl; [exact Eparts|]. cbn beta. intros label Hl.
    apply orb_false_iff in Hl as [H0 H63].
    apply Nat.eqb_neq in H0. apply Nat.ltb_ge in H63. lia.
  - intros Hip. rewrite Hip in Eip. cbn [andb] in Eip.
    destruct (startsWith "127." (hostname parsed)); [left; reflexivity|right].
    cbn [negb andb] in Eip. apply negb_false_iff in Eip. exact Eip.
Qed.

Lemma isValidUrl_accepts_only_witness :
  isValidUrl parseURL toLowerCase "https://Google.com/Search" = true
  ∧ (jsLength "https://Google.com/Search" ≤ 2000)%nat.
Proof.
  split; [reflexivity|].
  apply (isValidUrl_accepts_only parseURL toLowerCase "https://Google.com/Search").
  reflexivity.
Defined.

(** The expectations of the test file, and three rejections: a keyword
    inside a longer word, a public IP address, a host of six labels.
    The addresses are in ASCII, where [toLowerCase] is the method of
    the platform. *)
Example isValidUrl_examples :
  isValidUrl parseURL toLowerCase "https://google.com" = true
  ∧ isValidUrl parseURL toLowerCase "http://example.org" = true
  ∧ isValidUrl parseURL toLowerCase "not-a-url" = false
  ∧ isValidUrl parseURL toLowerCase "ftp://example.com" = true
  ∧ isValidUrl parseURL toLowerCase "https://hackernoon.com/story" = false
  ∧ isValidUrl parseURL toLowerCase "https://a.b.c.d.example.com/" = false.
Proof. vm_compute. repeat split; reflexivity. Qed.

(** The limit of 2000 is one of units: an address of 1020 units that
    takes 2020 bytes is within it. *)
Example isValidUrl_counts_units :
  let url := "https://example.com/" +:+ String.concat "" (repeat "é" 1000) in
  jsLength url = 1020%nat
  ∧ String.length url = 2020%nat
  ∧ isValidUrl parseURL toLowerCase url = true.
Proof. vm_compute. repeat split; reflexivity. Qed.

(** ** Storage: round trips and composition *)

Lemma then_save_result {B} now faults (f : list ShortenedUrl → list ShortenedUrl)
    (k : list ShortenedUrl → B) ls :
  result (all ← loadUrls; saveUrls now faults (f all);; mret (k all)) ls
  = Returns (k (urlsOf ls)).
Proof.
  unfold result. rewrite bind_loadUrls. unfold mbind, M_bind.
  pose proof (saveUrls_returns now faults (f (urlsOf ls)) ls) as R.
  unfold result in R.
  destruct (saveUrls now faults _ ls) as [[[]|e] ls']; simpl in *;
    [reflexivity|discriminate].
Qed.

Lemma then_save_run {B} now (f : list ShortenedUrl → list ShortenedUrl)
    (k : list ShortenedUrl → B) ls :
  (all ← loadUrls; saveUrls now [] (f all);; mret (k all)) ls
  = (Returns (k (urlsOf ls)), <[STORAGE_KEY := UrlsJson (f (urlsOf ls))]> ls).
Proof. rewrite bind_loadUrls. reflexivity. Qed.

Lemma migrate_fixed u :
  String.eqb (normalizedUrl u) "" = false → migrate u = u.
Proof. destruct u. unfold migrate. simpl. intros ->. reflexivity. Qed.

Lemma map_migrate_fixed l :
  forallb (fun u => negb (String.eqb (normalizedUrl u) "")) l = true →
  map migrate l = l.
Proof.
  induction l as [|u l IH]; simpl; [reflexivity|].
  intros H. apply andb_true_iff in H as [Hu Hl].
  apply negb_true_iff in Hu. rewrite migrate_fixed, IH; auto.
Qed.

Lemma map_migrate_filter (f : ShortenedUrl → bool) l :
  (∀ u, f (migrate u) = f u) →
  map migrate (List.filter f l) = List.filter f (map migrate l).
Proof.
  intros Hf. induction l as [|u l IH]; simpl; [reflexivity|].
  rewrite Hf. destruct (f u); simpl; rewrite IH; reflexivity.
Qed.

Lemma filter_migrated (f : ShortenedUrl → bool) ls :
  (∀ u, f (migrate u) = f u) →
  map migrate (List.filter f (urlsOf ls)) = List.filter f (urlsOf ls).
Proof.
  intros Hf. rewrite map_migrate_filter, urlsOf_migrated by exact Hf. reflexivity.
Qed.

(** X6. What [saveUrls] writes, [loadUrls] reads back: after a
    successful save of a list whose records all have a normalized URL,
    [loadUrls] returns that very list and the store holds it. (A
    record without normalized URL comes back with the lower-cased
    original URL in its place; an optional field that was [undefined]
    comes back as [null], which the model does not tell apart.) *)
Theorem saveUrls_loadUrls_round_trip (now : Z) (l : list ShortenedUrl)
    (ls : gmap string Item) :
  forallb (fun u => negb (String.eqb (normalizedUrl u) "")) l = true →
  (saveUrls now [] l;; loadUrls) ls
  = (Returns l, <[STORAGE_KEY := UrlsJson l]> ls).
Proof.
  intros Hl. cbn [saveUrls]. unfold mbind, M_bind, setItem.
  rewrite loadUrls_run, urlsOf_insert, map_migrate_fixed by exact Hl.
  reflexivity.
Qed.

Lemma saveUrls_loadUrls_round_trip_witness :
  let l := [sampleUrl "id-1" "abc1234" None None [];
            sampleUrl "id-2" "my-link" (Some "my-link") (Some 5000) []] in
  (saveUrls 1000 [] l;; loadUrls) ∅
  = (Returns l, <[STORAGE_KEY := UrlsJson l]> ∅).
Proof.
  apply (saveUrls_loadUrls_round_trip 1000
           [sampleUrl "id-1" "abc1234" None None [];
            sampleUrl "id-2" "my-link" (Some "my-link") (Some 5000) []] ∅).
  reflexivity.
Defined.

Lemma deleteUrl_run now target ls :
  deleteUrl now [] target ls
  = (Returns (List.filter (fun u => negb (String.eqb (id u) target)) (urlsOf ls)),
     <[STORAGE_KEY :=
         UrlsJson (List.filter (fun u => negb (String.eqb (id u) target)) (urlsOf ls))]> ls).
Proof. apply (then_save_run now (fun l => List.filter _ l) (fun l => List.filter _ l)). Qed.

Lemma bulkDeleteUrls_run now ids ls :
  bulkDeleteUrls now [] ids ls
  = (Returns (List.filter (fun u => negb (bool_decide (id u ∈ ids))) (urlsOf ls)),
     <[STORAGE_KEY :=
         UrlsJson (List.filter (fun u => negb (bool_decide (id u ∈ ids))) (urlsOf ls))]> ls).
Proof. apply (then_save_run now (fun l => List.filter _ l) (fun l => List.filter _ l)). Qed.

Lemma filter_idemp {A} (f : A → bool) l :
  List.filter f (List.filter f l) = List.filter f l.
Proof.
  induction l as [|x l IH]; simpl; [reflexivity|].
  destruct (f x) eqn:E; simpl; [rewrite E, IH|]; auto.
Qed.

Lemma filter_filter {A} (f g : A → bool) l :
  List.filter f (List.filter g l) = List.filter (fun x => g x && f x) l.
Proof.
  induction l as [|x l IH]; simpl; [reflexivity|].
  destruct (g x); simpl; [destruct (f x); simpl; rewrite IH|]; auto.
Qed.

Lemma filter_sublist {A} (f : A → bool) l : List.filter f l `sublist_of` l.
Proof.
  induction l as [|x l IH]; simpl; [constructor|].
  destruct (f x); [apply sublist_skip|apply sublist_cons]; exact IH.
Qed.

Lemma filter_all {A} (f : A → bool) l :
  (∀ x, x ∈ l → f x = true) → List.filter f l = l.
Proof.
  induction l as [|x l IH]; simpl; intros H; [reflexivity|].
  rewrite (H x) by apply list_elem_of_here.
  f_equal. apply IH. intros y Hy. apply H. apply list_elem_of_further, Hy.
Qed.

(** X7. [deleteUrl] returns, whether or not its write succeeds, the
    stored records whose id is not the given one, in their order: a
    record is in the result exactly when it was stored under another
    id. An id that no record carries leaves the list as it was. When
    the write succeeds the store holds the returned list, and deleting
    the same id once more returns it again. *)
Theorem deleteUrl_removes (now : Z) (faults : list JsError) (target : string)
    (ls : gmap string Item) :
  ∃ l, result (deleteUrl now faults target) ls = Returns l
    ∧ (∀ u, u ∈ l ↔ u ∈ urlsOf ls ∧ id u ≠ target)
    ∧ l `sublist_of` urlsOf ls
    ∧ ((∀ u, u ∈ urlsOf ls → id u ≠ target) → l = urlsOf ls)
    ∧ urlsOf (after (deleteUrl now [] target) ls) = l
    ∧ result (deleteUrl now [] target) (after (deleteUrl now [] target) ls)
      = Returns l.
Proof.
  set (keep := fun u => negb (String.eqb (id u) target)).
  assert (Hstore : urlsOf (after (deleteUrl now [] target) ls)
                   = List.filter keep (urlsOf ls)).
  { unfold after. rewrite deleteUrl_run. cbn [snd].
    rewrite urlsOf_insert. apply filter_migrated. reflexivity. }
  exists (List.filter keep (urlsOf ls)).
  split; [apply (then_save_result now faults (fun l => List.filter _ l)
                   (fun l => List.filter _ l))|].
  split; [|split; [apply filter_sublist|split; [|split; [exact Hstore|]]]].
  - intros u. rewrite !list_elem_of_In, List.filter_In. unfold keep.
    rewrite negb_true_iff, String.eqb_neq. reflexivity.
  - intros H. apply filter_all. intros u Hu. unfold keep.
    apply negb_true_iff, String.eqb_neq, H, Hu.
  - unfold result. rewrite deleteUrl_run. cbn [fst]. rewrite Hstore.
    fold keep. rewrite filter_idemp. reflexivity.
Qed.

(** X8. Deleting several ids one call after the other and deleting
    them in one [bulkDeleteUrls] call come to the same: the same
    returned list and the same store. *)
Theorem bulkDeleteUrls_is_repeated_deleteUrl (now : Z) (first : string)
    (others : list string) (ls : gmap string Item) :
  deleteEach now first others ls
  = bulkDeleteUrls now [] (list_to_set (first :: others)) ls.
Proof.
  revert first ls. induction others as [|next rest IH]; intros first ls.
  - cbn [deleteEach]. rewrite deleteUrl_run, bulkDeleteUrls_run.
    assert (Hf : ∀ l : list ShortenedUrl,
               List.filter (fun u => negb (String.eqb (id u) first)) l
               = List.filter (fun u => negb (bool_decide
                                 (id u ∈ (list_to_set [first] : gset string)))) l).
    { intros l. apply List.filter_ext. intros u. f_equal.
      destruct (String.eqb (id u) first) eqn:E.
      - apply String.eqb_eq in E. symmetry. apply bool_decide_eq_true.
        apply elem_of_list_to_set, list_elem_of_singleton, E.
      - apply String.eqb_neq in E. symmetry. apply bool_decide_eq_false.
        rewrite elem_of_list_to_set, list_elem_of_singleton. exact E. }
    rewrite Hf. reflexivity.
  - cbn [deleteEach]. unfold mbind at 1, M_bind.
    rewrite deleteUrl_run, IH, !bulkDeleteUrls_run.
    rewrite urlsOf_insert, filter_migrated by reflexivity.
    rewrite insert_insert_eq, filter_filter.
    assert (Hf : ∀ l : list ShortenedUrl,
               List.filter (fun u => negb (String.eqb (id u) first)
                              && negb (bool_decide
                                   (id u ∈ (list_to_set (next :: rest) : gset string)))) l
               = List.filter (fun u => negb (bool_decide
                                 (id u ∈ (list_to_set (first :: next :: rest)
                                          : gset string)))) l).
    { intros l. apply List.filter_ext. intros u. rewrite <- negb_orb. f_equal.
      destruct (String.eqb (id u) first) eqn:E; cbn [orb].
      - apply String.eqb_eq in E. symmetry. apply bool_decide_eq_true.
        apply elem_of_list_to_set. rewrite E. apply list_elem_of_here.
      - apply String.eqb_neq in E. apply bool_decide_ext.
        rewrite !elem_of_list_to_set, (elem_of_cons _ (id u) first). tauto. }
    rewrite Hf. reflexivity.
Qed.

(** ** Visits *)

Lemma recordClick_visited now client u : visited now u (recordClick now client u).
Proof.
  unfold visited, recordClick. cbn. repeat split.
  eexists. split; reflexivity.
Qed.

Lemma sumClicks_visit (hit : ShortenedUrl → bool) (f : ShortenedUrl → ShortenedUrl) l :
  (∀ u, clicks (f u) = clicks u + 1) →
  sumClicks (map (fun u => if hit u then f u else u) l)
  = sumClicks l + Z.of_nat (length (List.filter hit l)).
Proof.
  intros Hf. induction l as [|u l IH]; cbn; [reflexivity|].
  fold (sumClicks (map (fun u => if hit u then f u else u) l)).
  fold (sumClicks l). rewrite IH.
  destruct (hit u); cbn [length]; [rewrite Hf|]; lia.
Qed.

(** X9. [incrementClicks] returns, whether or not its write succeeds,
    the stored list with every record of the given id visited once:
    its counter one higher and one event, stamped with the current
    time, added at the end of its history; every other record and
    every other field is unchanged and the order is kept. So the sum
    of the counters grows by the number of records that carry the id,
    and an id that no record carries changes nothing. When the write
    succeeds the store holds the returned list. *)
Theorem incrementClicks_effect (now : Z) (faults : list JsError)
    (client : ClientInfo) (target : string) (ls : gmap string Item) :
  ∃ l, result (incrementClicks now faults client target) ls = Returns l
    ∧ Forall2 (fun u v => if String.eqb (id u) target then visited now u v
                          else v = u) (urlsOf ls) l
    ∧ sumClicks l
      = sumClicks (urlsOf ls)
        + Z.of_nat (length (List.filter (fun u => String.eqb (id u) target)
                                        (urlsOf ls)))
    ∧ ((∀ u, u ∈ urlsOf ls → id u ≠ target) → l = urlsOf ls)
    ∧ urlsOf (after (incrementClicks now [] client target) ls) = l.
Proof.
  set (visit := fun u => if String.eqb (id u) target
                         then recordClick now client u else u).
  exists (map visit (urlsOf ls)).
  split; [apply (then_save_result now faults (fun l => map _ l)
                   (fun l => map _ l))|].
  split; [|split; [|split]].
  - induction (urlsOf ls) as [|u l IH]; cbn [map]; constructor; [|exact IH].
    unfold visit. destruct (String.eqb (id u) target);
      [apply recordClick_visited|reflexivity].
  - apply (sumClicks_visit (fun u => String.eqb (id u) target)
             (recordClick now client)). reflexivity.
  - intros H. rewrite <- (map_id (urlsOf ls)) at 2.
    apply map_ext_in. intros u Hu. unfold visit.
    destruct (String.eqb (id u) target) eqn:E; [|reflexivity].
    apply String.eqb_eq in E. exfalso.
    apply (H u); [apply list_elem_of_In, Hu|exact E].
  - unfold after, incrementClicks. rewrite then_save_run. cbn [snd].
    rewrite urlsOf_insert. fold visit.
    rewrite <- (urlsOf_migrated ls) at 2. rewrite !map_map.
    apply map_ext. intros u. unfold visit. cbn [migrate id].
    destruct (String.eqb (id u) target); [|reflexivity].
    unfold migrate, recordClick. cbn. reflexivity.
Qed.

(** ** Histories and counters *)

Lemma historyWithinClicks_migrate u :
  historyWithinClicks u → historyWithinClicks (migrate u).
Proof. exact (fun H => H). Qed.

Lemma historyWithinClicks_trimUrl u :
  historyWithinClicks u → historyWithinClicks (trimUrl u).
Proof.
  unfold historyWithinClicks, trimUrl.
  destruct (historyTooLong u); [|exact (fun H => H)].
  cbn. unfold slice_last. rewrite length_drop. lia.
Qed.

Lemma historyWithinClicks_recordClick now client u :
  historyWithinClicks u → historyWithinClicks (recordClick now client u).
Proof.
  unfold historyWithinClicks, recordClick. cbn.
  rewrite length_app. cbn. lia.
Qed.

Lemma Forall_map_preserved {A} (P : A → Prop) (f : A → A) l :
  (∀ x, P x → P (f x)) → Forall P l → Forall P (map f l).
Proof.
  intros Hf H. induction H as [|x l Hx _ IH]; cbn; constructor; auto.
Qed.

Lemma Forall_filter_preserved {A} (P : A → Prop) (f : A → bool) l :
  Forall P l → Forall P (List.filter f l).
Proof.
  intros H. induction H as [|x l Hx _ IH]; cbn; [constructor|].
  destruct (f x); [constructor|]; auto.
Qed.

(** Whatever [saveUrls] is given and however its writes fail, a
    property of records that migration and trimming keep holds in the
    store afterwards when it holds of the stored records and of the
    records given. *)
Lemma saveUrls_Forall (P : ShortenedUrl → Prop) now faults l ls :
  (∀ u, P u → P (migrate u)) → (∀ u, P u → P (trimUrl u)) →
  Forall P (urlsOf ls) → Forall P l →
  Forall P (urlsOf (after (saveUrls now faults l) ls)).
Proof.
  intros Hm Ht Hls Hl.
  destruct (saveUrls_cases now faults l ls) as [->|[->| ->]].
  - exact Hls.
  - rewrite urlsOf_insert. apply Forall_map_preserved; assumption.
  - rewrite urlsOf_insert. apply Forall_map_preserved; [exact Hm|].
    unfold sweepList. apply Forall_map_preserved; [exact Ht|].
    apply Forall_filter_preserved, Hls.
Qed.

Lemma step_historyWithinClicks st st' :
  Forall historyWithinClicks (urlsOf (storage st)) → step st st' →
  Forall historyWithinClicks (urlsOf (storage st')).
Proof.
  intros Hinv Hstep.
  pose proof historyWithinClicks_migrate as Hm.
  pose proof historyWithinClicks_trimUrl as Ht.
  destruct Hstep; cbn [storage] in *.
  - apply handleSubmit_creating in H as [-> _]. exact Hinv.
  - rewrite createUrl_after, addUrl_after.
    apply saveUrls_Forall; try assumption.
    constructor; [|exact Hinv]. unfold historyWithinClicks. cbn. lia.
  - rewrite deleteUrl_after. apply saveUrls_Forall; try assumption.
    apply Forall_filter_preserved, Hinv.
  - rewrite bulkDeleteUrls_after. apply saveUrls_Forall; try assumption.
    apply Forall_filter_preserved, Hinv.
  - rewrite incrementClicks_after. apply saveUrls_Forall; try assumption.
    apply Forall_map_preserved; [|exact Hinv].
    intros u Hu. destruct (String.eqb (id u) target);
      [apply historyWithinClicks_recordClick|]; exact Hu.
  - rewrite cleanup_after. destruct (sweepChanges now (urlsOf ls)); [|exact Hinv].
    apply saveUrls_Forall; try assumption.
    unfold sweepList. apply Forall_map_preserved; [exact Ht|].
    apply Forall_filter_preserved, Hinv.
Qed.

(** X10. In every state reachable through submissions, their timers,
    deletions, visits and sweeps, in any order and with any write
    failures, the history of each stored record has no more events
    than its click counter says: a visit adds one to both, and
    trimming only shortens the history. *)
Theorem history_within_clicks_in_reachable_states (st : AppState) :
  reachable st →
  Forall (fun u => Z.of_nat (length (clickHistory u)) ≤ clicks u)
         (urlsOf (storage st)).
Proof.
  induction 1 as [ls Hempty|st st' _ IH Hstep].
  - cbn [storage]. rewrite Hempty. constructor.
  - exact (step_historyWithinClicks st st' IH Hstep).
Qed.

Lemma history_within_clicks_in_reachable_states_witness :
  reachable
    {| storage := after (incrementClicks 3000 [] sampleClient "uuid-1")
                        (storage sampleState);
       creating := [] |}
  ∧ Forall (fun u => Z.of_nat (length (clickHistory u)) ≤ clicks u)
      (urlsOf (after (incrementClicks 3000 [] sampleClient "uuid-1")
                     (storage sampleState))).
Proof.
  assert (Hreach : reachable
    {| storage := after (incrementClicks 3000 [] sampleClient "uuid-1")
                        (storage sampleState);
       creating := [] |}).
  { eapply reachable_step;
      [|apply (step_visit 3000 [] sampleClient "uuid-1" (storage sampleState) [])].
    eapply reachable_step;
      [|apply (step_create 2000 [] None "uuid-1" sampleForm samplePending ∅ [] [])].
    eapply reachable_step; [apply (reachable_init ∅); reflexivity|].
    apply (step_submit parseURL (fun _ => true) (fun _ => false) 1000
             (fun _ => {| randomByte := fun _ => 0; timingEntropy := 0 |})
             sampleForm ∅ (Creating samplePending) ∅ []).
    vm_compute. reflexivity. }
  split; [exact Hreach|].
  exact (history_within_clicks_in_reachable_states _ Hreach).
Defined.

(** ** Insertion, lookup and deletion *)

Lemma addUrl_run now url ls :
  addUrl now [] url ls
  = (Returns (url :: urlsOf ls), <[STORAGE_KEY := UrlsJson (url :: urlsOf ls)]> ls).
Proof. unfold addUrl. rewrite bind_loadUrls. reflexivity. Qed.

Lemma urlsOf_after_addUrl now url ls :
  urlsOf (after (addUrl now [] url) ls) = migrate url :: urlsOf ls.
Proof.
  unfold after. rewrite addUrl_run. cbn [snd]. rewrite urlsOf_insert.
  cbn [map]. rewrite urlsOf_migrated. reflexivity.
Qed.

(** X11. After an insertion whose write succeeds, the lookups see the
    new record: its code is no longer unique, and the duplicate search
    for its normalized URL returns the record itself, ahead of any
    older record with the same normalized URL. *)
Theorem addUrl_then_lookup (now : Z) (url : ShortenedUrl) (ls : gmap string Item) :
  String.eqb (normalizedUrl url) "" = false →
  let ls' := after (addUrl now [] url) ls in
  isShortCodeUnique (shortCode url) ls' = (Returns false, ls')
  ∧ findDuplicateUrl (normalizedUrl url) ls' = (Returns (Some url), ls').
Proof.
  intros Hn ls'.
  assert (Hl : urlsOf ls' = url :: urlsOf ls).
  { unfold ls'. rewrite urlsOf_after_addUrl, migrate_fixed by exact Hn. reflexivity. }
  split.
  - rewrite isShortCodeUnique_run. unfold codeFree. rewrite Hl. cbn [existsb].
    rewrite String.eqb_refl. reflexivity.
  - rewrite findDuplicateUrl_run, Hl. cbn [List.find].
    rewrite String.eqb_refl. reflexivity.
Qed.

Lemma addUrl_then_lookup_witness :
  let url := sampleUrl "id-9" "fresh01" None None [] in
  let ls' := after (addUrl 1000 [] url) (storage sampleState) in
  isShortCodeUnique (shortCode url) ls' = (Returns false, ls')
  ∧ findDuplicateUrl (normalizedUrl url) ls' = (Returns (Some url), ls').
Proof.
  apply (addUrl_then_lookup 1000 (sampleUrl "id-9" "fresh01" None None [])
           (storage sampleState)).
  reflexivity.
Defined.

(** X12. Inserting a record and then deleting its id, both writes
    succeeding, gives back the list that was stored before, provided
    no stored record already had that id. *)
Theorem addUrl_then_deleteUrl (now : Z) (url : ShortenedUrl) (ls : gmap string Item) :
  forallb (fun u => negb (String.eqb (id u) (id url))) (urlsOf ls) = true →
  result (addUrl now [] url;; deleteUrl now [] (id url)) ls = Returns (urlsOf ls)
  ∧ urlsOf (after (addUrl now [] url;; deleteUrl now [] (id url)) ls) = urlsOf ls.
Proof.
  intros Hfresh.
  assert (Hrun : (addUrl now [] url;; deleteUrl now [] (id url)) ls
                 = deleteUrl now [] (id url) (after (addUrl now [] url) ls)).
  { unfold after, mbind at 1, M_bind. rewrite addUrl_run. reflexivity. }
  assert (Hkeep : List.filter (fun u => negb (String.eqb (id u) (id url)))
                    (migrate url :: urlsOf ls) = urlsOf ls).
  { cbn [List.filter migrate id]. rewrite String.eqb_refl. cbn [negb].
    apply filter_all. intros u Hu.
    rewrite forallb_forall in Hfresh. apply Hfresh, list_elem_of_In, Hu. }
  unfold result, after at 1. rewrite Hrun, deleteUrl_run, urlsOf_after_addUrl.
  cbn [fst snd]. rewrite Hkeep. split; [reflexivity|].
  rewrite urlsOf_insert. apply urlsOf_migrated.
Qed.

Lemma addUrl_then_deleteUrl_witness :
  let url := sampleUrl "id-9" "fresh01" None None [] in
  result (addUrl 1000 [] url;; deleteUrl 1000 [] (id url)) (storage sampleState)
  = Returns (urlsOf (storage sampleState)).
Proof.
  apply (addUrl_then_deleteUrl 1000 (sampleUrl "id-9" "fresh01" None None [])
           (storage sampleState)).
  vm_compute. reflexivity.
Defined.

(** ** Repeated sweeps *)

Lemma keepUrl_mono now now' u :
  now ≤ now' → keepUrl now' u = true → keepUrl now u = true.
Proof.
  intros Hle. rewrite !keepUrl_pastGrace, !negb_true_iff. unfold pastGrace.
  destruct (expiresAt u) as [e|]; [|reflexivity].
  destruct (e =? 0); cbn [negb andb]; [reflexivity|].
  rewrite !Z.leb_gt. lia.
Qed.

Lemma keepUrl_trimUrl now u : keepUrl now (trimUrl u) = keepUrl now u.
Proof. unfold trimUrl. destruct (historyTooLong u); reflexivity. Qed.

Lemma historyTooLong_trimUrl u : historyTooLong (trimUrl u) = false.
Proof.
  unfold trimUrl. destruct (historyTooLong u) eqn:E; [|exact E].
  unfold historyTooLong in *. cbn [clickHistory]. unfold slice_last.
  rewrite length_drop. apply Nat.ltb_lt in E. apply Nat.ltb_ge. lia.
Qed.

Lemma trimUrl_idemp u : trimUrl (trimUrl u) = trimUrl u.
Proof.
  unfold trimUrl at 1. rewrite historyTooLong_trimUrl. reflexivity.
Qed.

Lemma filter_map_commute {A} (f : A → bool) (g : A → A) l :
  (∀ x, f (g x) = f x) → List.filter f (map g l) = map g (List.filter f l).
Proof.
  intros H. induction l as [|x l IH]; cbn [map List.filter]; [reflexivity|].
  rewrite H. destruct (f x); cbn [map]; rewrite IH; reflexivity.
Qed.

Lemma sweepList_sweepList now now' l :
  now ≤ now' → sweepList now' (sweepList now l) = sweepList now' l.
Proof.
  intros Hle. unfold sweepList.
  rewrite filter_map_commute by apply keepUrl_trimUrl.
  rewrite map_map, filter_filter.
  rewrite (List.filter_ext (fun u => keepUrl now u && keepUrl now' u) (keepUrl now')).
  - apply map_ext. intros u. apply trimUrl_idemp.
  - intros u. destruct (keepUrl now' u) eqn:E.
    + rewrite (keepUrl_mono now now' u Hle E). reflexivity.
    + apply andb_false_r.
Qed.

Lemma filter_tooLong_trimmed k : List.filter historyTooLong (map trimUrl k) = [].
Proof.
  induction k as [|u k IH]; cbn [map List.filter]; [reflexivity|].
  rewrite historyTooLong_trimUrl. exact IH.
Qed.

Lemma sweepChanges_sweepList now l : sweepChanges now (sweepList now l) = false.
Proof.
  unfold sweepChanges.
  assert (Hkeep : List.filter (keepUrl now) (sweepList now l) = sweepList now l).
  { unfold sweepList. rewrite filter_map_commute by apply keepUrl_trimUrl.
    rewrite filter_idemp. reflexivity. }
  rewrite Hkeep, Nat.sub_diag. unfold sweepList.
  rewrite filter_tooLong_trimmed. reflexivity.
Qed.

(** X13. Sweeps compose. After a sweep at [now] whose write succeeded,
    a second sweep at the same time finds nothing to do: it reports 0
    removed and 0 trimmed, returns the stored list and writes nothing.
    A sweep at a later time [now'] returns and leaves the same records
    as it would have without the earlier sweep. *)
Theorem sweep_then_sweep (now now' : Z) (faults : list JsError)
    (ls : gmap string Item) :
  now ≤ now' →
  let ls1 := after (cleanupExpiredUrls now []) ls in
  result (cleanupExpiredUrls now faults) ls1
    = Returns {| removed := 0; trimmed := 0; urls := urlsOf ls1 |}
  ∧ after (cleanupExpiredUrls now faults) ls1 = ls1
  ∧ (∃ r1 r, result (cleanupExpiredUrls now' faults) ls1 = Returns r1
        ∧ result (cleanupExpiredUrls now' faults) ls = Returns r
        ∧ urls r1 = urls r)
  ∧ urlsOf (after (cleanupExpiredUrls now' []) ls1)
    = urlsOf (after (cleanupExpiredUrls now' []) ls).
Proof.
  intros Hle ls1.
  assert (H1 : urlsOf ls1 = sweepList now (urlsOf ls)) by apply cleanup_store.
  assert (Hsame : sweepChanges now (urlsOf ls1) = false)
    by (rewrite H1; apply sweepChanges_sweepList).
  split; [|split; [|split]].
  - rewrite cleanup_run. f_equal. unfold sweepResult.
    rewrite (sweep_unchanged now (urlsOf ls1) Hsame).
    unfold sweepChanges in Hsame. apply orb_false_iff in Hsame as [Hr Ht].
    apply Nat.ltb_ge in Hr, Ht. f_equal; lia.
  - rewrite cleanup_after, Hsame. reflexivity.
  - exists (sweepResult now' (urlsOf ls1)), (sweepResult now' (urlsOf ls)).
    split; [apply cleanup_run|]. split; [apply cleanup_run|].
    unfold sweepResult. cbn [urls]. rewrite H1.
    apply sweepList_sweepList, Hle.
  - rewrite !cleanup_store, H1. apply sweepList_sweepList, Hle.
Qed.

Lemma sweep_then_sweep_witness :
  let ls := storeOf [sampleUrl "id-1" "old0001" None (Some 1000) [];
                     sampleUrl "id-2" "new0002" None None (sampleHistory 1001)] in
  let ls1 := after (cleanupExpiredUrls (1000 + gracePeriod) []) ls in
  result (cleanupExpiredUrls (1000 + gracePeriod) []) ls1
    = Returns {| removed := 0; trimmed := 0; urls := urlsOf ls1 |}.
Proof.
  intros ls ls1.
  apply (sweep_then_sweep (1000 + gracePeriod) (1000 + gracePeriod) [] ls).
  lia.
Defined.

(** ** Rate limiter: the status and the window *)

Lemma Math_min_spec t rest :
  In (Math_min t rest) (t :: rest)
  ∧ Forall (fun x => Math_min t rest ≤ x) (t :: rest).
Proof.
  unfold Math_min. revert t. induction rest as [|x rest IH]; intros t; cbn [fold_left].
  - split; [left; reflexivity|constructor; [lia|constructor]].
  - destruct (IH (Z.min t x)) as [Hin Hall].
    remember (fold_left Z.min rest (Z.min t x)) as m eqn:Em. clear Em. split.
    + destruct Hin as [Hin|Hin]; [|right; right; exact Hin].
      destruct (Z.min_spec t x) as [[_ Hm]|[_ Hm]]; rewrite Hm in Hin;
        [left|right; left]; exact Hin.
    + apply Forall_cons_1 in Hall as [Hm Hall].
      constructor; [lia|]. constructor; [lia|exact Hall].
Qed.

Lemma checkRateLimit_full now ls ts :
  windowOf ls = Some ts →
  checkRateLimit now ls
  = (Returns
       (match List.filter (inWindow now) ts with
        | [] => {| allowed := recentCount now ts <? RATE_LIMIT_MAX;
                   remaining := Z.max 0 (RATE_LIMIT_MAX - recentCount now ts);
                   resetIn := 0; nextAvailable := None |}
        | t :: rest =>
            {| allowed := recentCount now ts <? RATE_LIMIT_MAX;
               remaining := Z.max 0 (RATE_LIMIT_MAX - recentCount now ts);
               resetIn := ceil_div (RATE_LIMIT_WINDOW - (now - Math_min t rest)) 1000;
               nextAvailable :=
                 if negb (recentCount now ts <? RATE_LIMIT_MAX)
                    && (recentCount now ts =? RATE_LIMIT_MAX)
                 then Some (Math_min t rest + RATE_LIMIT_WINDOW) else None |}
        end), ls).
Proof.
  intros Hw. unfold checkRateLimit, recentCount.
  rewrite (bind_run _ _ _ _ _ (loadRateLimit_run ls)). cbn [timestamps]. rewrite Hw.
  destruct (List.filter (inWindow now) ts); reflexivity.
Qed.

Lemma oldest_in_window now ts t rest :
  List.filter (inWindow now) ts = t :: rest →
  now - Math_min t rest < RATE_LIMIT_WINDOW
  ∧ In (Math_min t rest) ts
  ∧ Forall (fun x => inWindow now x = true → Math_min t rest ≤ x) ts.
Proof.
  intros Hf. destruct (Math_min_spec t rest) as [Hin Hall].
  rewrite <- Hf in Hin, Hall. apply List.filter_In in Hin as [Hin Hw].
  split; [apply Z.ltb_lt, Hw|]. split; [exact Hin|].
  apply Forall_forall. intros x Hx Hwx.
  rewrite Forall_forall in Hall. apply Hall.
  apply list_elem_of_In, List.filter_In. split; [apply list_elem_of_In, Hx|exact Hwx].
Qed.

(** X14. The status [checkRateLimit] returns, for any stored window:
    [remaining] is 10 less the number of timestamps of the last 60 s,
    never below 0; [allowed] says that a slot remains; [nextAvailable]
    is given exactly when that number is 10 (not when the window holds
    more), and is then a time after [now]; [resetIn] is 0 exactly when
    the window is empty, and from 1 to 60 seconds otherwise provided no
    stored timestamp lies in the future. *)
Theorem checkRateLimit_status (now : Z) (ls : gmap string Item) (ts : list Z) :
  windowOf ls = Some ts →
  ∃ s, checkRateLimit now ls = (Returns s, ls)
    ∧ remaining s = Z.max 0 (RATE_LIMIT_MAX - recentCount now ts)
    ∧ (allowed s = true ↔ 0 < remaining s)
    ∧ (allowed s = true ↔ recentCount now ts < RATE_LIMIT_MAX)
    ∧ (is_Some (nextAvailable s) ↔ recentCount now ts = RATE_LIMIT_MAX)
    ∧ (∀ t, nextAvailable s = Some t → now < t)
    ∧ (resetIn s = 0 ↔ recentCount now ts = 0)
    ∧ (Forall (fun t => t ≤ now) ts → 0 ≤ resetIn s ≤ 60).
Proof.
  intros Hw. eexists. split; [apply checkRateLimit_full, Hw|].
  unfold recentCount, RATE_LIMIT_MAX, RATE_LIMIT_WINDOW, ceil_div.
  destruct (List.filter (inWindow now) ts) as [|t rest] eqn:Hf.
  - cbn. repeat split; try lia; try discriminate.
    intros [x Hx]; discriminate.
  - destruct (oldest_in_window now ts t rest Hf) as (Hold & Hin & _).
    unfold RATE_LIMIT_WINDOW in Hold.
    set (oldest := Math_min t rest) in *.
    set (n := Z.of_nat (length (t :: rest))).
    assert (Hn : 0 < n) by (unfold n; cbn [length]; lia).
    cbn [allowed remaining resetIn nextAvailable].
    assert (Hceil : 1 ≤ - (- (60000 - (now - oldest)) / 1000)).
    { pose proof (Z.div_lt_upper_bound (- (60000 - (now - oldest))) 1000 0). lia. }
    split; [reflexivity|]. split; [rewrite Z.ltb_lt; lia|].
    split; [apply Z.ltb_lt|].
    split; [|split; [|split; [lia|]]].
    + destruct (n <? 10) eqn:E1; cbn [negb andb].
      { apply Z.ltb_lt in E1. split; [intros [x Hx]; discriminate|lia]. }
      destruct (n =? 10) eqn:E2.
      * apply Z.eqb_eq in E2. split; [intros _; exact E2|intros _; eexists; reflexivity].
      * apply Z.eqb_neq in E2. split; [intros [x Hx]; discriminate|contradiction].
    + intros x Hx. destruct (negb (n <? 10) && (n =? 10)); [|discriminate].
      injection Hx as <-. lia.
    + intros Hpast. split; [lia|].
      rewrite Forall_forall in Hpast.
      assert (oldest ≤ now) by (apply Hpast, list_elem_of_In, Hin).
      pose proof (Z.div_le_lower_bound (- (60000 - (now - oldest))) 1000 (-60)). lia.
Qed.

Lemma checkRateLimit_status_witness :
  ∃ s, checkRateLimit 1010 {[ RATE_LIMIT_KEY := RateJson [1000; 1005] ]}
       = (Returns s, {[ RATE_LIMIT_KEY := RateJson [1000; 1005] ]})
    ∧ remaining s = Z.max 0 (RATE_LIMIT_MAX - recentCount 1010 [1000; 1005]).
Proof.
  assert (Hw : windowOf {[ RATE_LIMIT_KEY := RateJson [1000; 1005] ]}
               = Some [1000; 1005]) by (vm_compute; reflexivity).
  destruct (checkRateLimit_status 1010 {[ RATE_LIMIT_KEY := RateJson [1000; 1005] ]}
              [1000; 1005] Hw) as (s & Hs & Hr & _).
  exists s. split; [exact Hs|exact Hr].
Defined.

Lemma filter_drop_one (x : Z) l :
  In x l →
  (length (List.filter (fun y => negb (y =? x)%Z) l) < length l)%nat.
Proof.
  induction l as [|y l IH]; cbn [In List.filter length]; [contradiction|].
  intros [->|Hin].
  - rewrite Z.eqb_refl. cbn [negb].
    pose proof (List.filter_length_le (fun y => negb (y =? x)) l). lia.
  - specialize (IH Hin). destruct (negb (y =? x)); cbn [length]; lia.
Qed.

Lemma filter_length_impl {A} (f g : A → bool) l :
  (∀ x, In x l → f x = true → g x = true) →
  (length (List.filter f l) ≤ length (List.filter g l))%nat.
Proof.
  induction l as [|x l IH]; cbn [List.filter length]; intros H; [lia|].
  assert (IH' := IH (fun y Hy => H y (or_intror Hy))).
  destruct (f x) eqn:E.
  - rewrite (H x (or_introl eq_refl) E). cbn [length]. lia.
  - destruct (g x); cbn [length]; lia.
Qed.

(** X15. [nextAvailable] is exact. When a check at [now] is refused
    with a [nextAvailable] time, every check from [now] up to that
    time, the time itself excluded, is refused as well, and every check
    at that time or later is allowed, as long as no hit is recorded in
    between. *)
Theorem nextAvailable_exact (now : Z) (ls : gmap string Item) (ts : list Z)
    (s : RateLimitStatus) (t : Z) :
  windowOf ls = Some ts →
  result (checkRateLimit now) ls = Returns s →
  nextAvailable s = Some t →
  (∀ t', now ≤ t' < t →
     ∃ s', result (checkRateLimit t') ls = Returns s' ∧ allowed s' = false)
  ∧ (∀ t', t ≤ t' →
     ∃ s', result (checkRateLimit t') ls = Returns s' ∧ allowed s' = true).
Proof.
  intros Hw Hs Ht. unfold result in Hs.
  rewrite (checkRateLimit_full now ls ts Hw) in Hs. cbn [fst] in Hs.
  injection Hs as <-.
  destruct (List.filter (inWindow now) ts) as [|t0 rest] eqn:Hf; [discriminate|].
  cbn [nextAvailable] in Ht.
  destruct (oldest_in_window now ts t0 rest Hf) as (Hold & Hin & Hleast).
  set (oldest := Math_min t0 rest) in *.
  destruct (negb (recentCount now ts <? RATE_LIMIT_MAX)
            && (recentCount now ts =? RATE_LIMIT_MAX)) eqn:E; [|discriminate].
  injection Ht as <-. apply andb_true_iff in E as [_ E]. apply Z.eqb_eq in E.
  rewrite Forall_forall in Hleast.
  split; intros t' Ht'.
  - assert (Hsame : List.filter (inWindow t') ts = List.filter (inWindow now) ts).
    { apply List.filter_ext_in. intros x Hx. unfold inWindow.
      destruct (now - x <? RATE_LIMIT_WINDOW) eqn:Ex.
      - apply Z.ltb_lt.
        assert (oldest ≤ x) by (apply Hleast; [apply list_elem_of_In, Hx|exact Ex]).
        lia.
      - apply Z.ltb_ge in Ex. apply Z.ltb_ge. lia. }
    eexists. unfold result. rewrite (checkRateLimit_full t' ls ts Hw). cbn [fst].
    split; [reflexivity|].
    assert (Hc : recentCount t' ts = RATE_LIMIT_MAX)
      by (unfold recentCount in *; rewrite Hsame; exact E).
    destruct (List.filter (inWindow t') ts); cbn [allowed]; rewrite Hc; reflexivity.
  - eexists. unfold result. rewrite (checkRateLimit_full t' ls ts Hw). cbn [fst].
    split; [reflexivity|].
    assert (Hc : recentCount t' ts < RATE_LIMIT_MAX).
    { rewrite <- E. unfold recentCount.
      pose proof (filter_drop_one oldest (List.filter (inWindow now) ts)) as Hdrop.
      rewrite filter_filter in Hdrop.
      assert (Hle : (length (List.filter (inWindow t') ts)
                     ≤ length (List.filter
                         (fun y => inWindow now y && negb (y =? oldest)%Z) ts))%nat).
      { apply filter_length_impl. intros x Hx Hwx. unfold inWindow in *.
        apply Z.ltb_lt in Hwx. apply andb_true_iff. split.
        - apply Z.ltb_lt. lia.
        - apply negb_true_iff, Z.eqb_neq. lia. }
      assert (In oldest (List.filter (inWindow now) ts)).
      { apply List.filter_In. split; [exact Hin|apply Z.ltb_lt, Hold]. }
      specialize (Hdrop ltac:(assumption)). lia. }
    apply Z.ltb_lt in Hc.
    destruct (List.filter (inWindow t') ts); cbn [allowed]; exact Hc.
Qed.

Lemma nextAvailable_exact_witness :
  let ls : gmap string Item :=
    {[ RATE_LIMIT_KEY :=
         RateJson [1000; 1001; 1002; 1003; 1004; 1005; 1006; 1007; 1008; 1009] ]} in
  (∃ s', result (checkRateLimit 60999) ls = Returns s' ∧ allowed s' = false)
  ∧ (∃ s', result (checkRateLimit 61000) ls = Returns s' ∧ allowed s' = true).
Proof.
  intros ls.
  assert (Hw : windowOf ls
               = Some [1000; 1001; 1002; 1003; 1004; 1005; 1006; 1007; 1008; 1009])
    by (vm_compute; reflexivity).
  assert (Hs : result (checkRateLimit 1010) ls
               = Returns {| allowed := false; remaining := 0; resetIn := 60;
                            nextAvailable := Some 61000 |})
    by (vm_compute; reflexivity).
  destruct (nextAvailable_exact 1010 ls _ _ 61000 Hw Hs eq_refl) as [Hbefore Hafter].
  split; [apply (Hbefore 60999); lia|apply (Hafter 61000); lia].
Defined.

(** X16. [recordRateLimitHit] has no handler of its own: a failing
    write throws the error of [localStorage] and leaves the window as
    it was. A successful one stores the timestamps of the last 60 s
    followed by [now]: every stored timestamp is then inside the
    window, the last one is [now], the stored list has grown by one
    entry at most, and a check at the same time counts one hit more. *)
Theorem recordRateLimitHit_window (now : Z) (ls : gmap string Item) (ts : list Z) :
  windowOf ls = Some ts →
  (∀ e, recordRateLimitHit now (Some e) ls = (Throws e, ls))
  ∧ result (recordRateLimitHit now None) ls = Returns tt
  ∧ ∃ w, windowOf (after (recordRateLimitHit now None) ls) = Some w
      ∧ Forall (fun t => now - t < RATE_LIMIT_WINDOW) w
      ∧ last w = Some now
      ∧ (length w ≤ S (length ts))%nat
      ∧ recentCount now w = recentCount now ts + 1.
Proof.
  intros Hw. unfold result, after. rewrite !recordRateLimitHit_run, Hw.
  split; [intros e; rewrite recordRateLimitHit_run, Hw; reflexivity|].
  split; [reflexivity|].
  exists (List.filter (inWindow now) ts ++ [now]).
  cbn [setItem snd]. split; [apply windowOf_insert|].
  split; [|split; [apply last_snoc|split]].
  - apply Forall_app_2.
    + apply Forall_forall. intros x Hx.
      apply list_elem_of_In, List.filter_In in Hx as [_ Hx]. apply Z.ltb_lt, Hx.
    + constructor; [unfold RATE_LIMIT_WINDOW; lia|constructor].
  - rewrite length_app. cbn [length].
    pose proof (List.filter_length_le (inWindow now) ts). lia.
  - unfold recentCount. rewrite List.filter_app, filter_idemp, length_app.
    cbn [List.filter]. unfold inWindow at 2.
    replace (now - now <? RATE_LIMIT_WINDOW) with true
      by (symmetry; apply Z.ltb_lt; unfold RATE_LIMIT_WINDOW; lia).
    cbn [length]. lia.
Qed.

Lemma recordRateLimitHit_window_witness :
  ∃ w, windowOf (after (recordRateLimitHit 70000 None)
                   {[ RATE_LIMIT_KEY := RateJson [1000; 65000] ]}) = Some w
      ∧ Forall (fun t => 70000 - t < RATE_LIMIT_WINDOW) w
      ∧ last w = Some 70000.
Proof.
  assert (Hw : windowOf {[ RATE_LIMIT_KEY := RateJson [1000; 65000] ]}
               = Some [1000; 65000]) by (vm_compute; reflexivity).
  destruct (recordRateLimitHit_window 70000 _ _ Hw) as (_ & _ & w & H1 & H2 & H3 & _).
  exists w. repeat split; assumption.
Defined.

(** ** The timer callback and the submission *)

(** X17. When the write of the rate-limit window fails in the timer
    callback of [handleSubmit], the callback throws that error after
    [addUrl] has run: with the write of the records succeeding, the
    new record is in the store although the hit is not counted and the
    rest of the callback is skipped. *)
Theorem createUrl_rate_write_failure (now : Z) (e : JsError) (uuid : string)
    (form : FormState) (p : Pending) (ls : gmap string Item) (ts : list Z) :
  windowOf ls = Some ts →
  result (createUrl now [] (Some e) uuid form p) ls = Throws e
  ∧ urlsOf (after (createUrl now [] (Some e) uuid form p) ls)
    = migrate (newUrl now uuid form p) :: urlsOf ls
  ∧ windowOf (after (createUrl now [] (Some e) uuid form p) ls) = Some ts.
Proof.
  intros Hw.
  assert (Hw' : windowOf (<[STORAGE_KEY :=
                   UrlsJson (newUrl now uuid form p :: urlsOf ls)]> ls) = Some ts).
  { unfold windowOf in *. rewrite lookup_insert_ne by apply storage_key_ne. exact Hw. }
  assert (Hrun : createUrl now [] (Some e) uuid form p ls
                 = (Throws e,
                    <[STORAGE_KEY := UrlsJson (newUrl now uuid form p :: urlsOf ls)]> ls)).
  { unfold createUrl. unfold mbind at 1, M_bind. rewrite addUrl_run.
    unfold mbind, M_bind. rewrite recordRateLimitHit_run, Hw'. reflexivity. }
  unfold result, after. rewrite Hrun. cbn [fst snd].
  split; [reflexivity|]. split; [|exact Hw'].
  rewrite urlsOf_insert. cbn [map]. rewrite urlsOf_migrated. reflexivity.
Qed.

Lemma createUrl_rate_write_failure_witness :
  result (createUrl 2000 [] (Some QuotaExceededError) "uuid-1" sampleForm samplePending)
         ∅
  = Throws QuotaExceededError.
Proof.
  assert (Hw : windowOf (∅ : gmap string Item) = Some []) by reflexivity.
  exact (proj1 (createUrl_rate_write_failure 2000 QuotaExceededError "uuid-1"
                  sampleForm samplePending ∅ [] Hw)).
Defined.

(** X18. [handleSubmit] only reads: whatever the form holds and
    whatever it answers, [localStorage] is afterwards as it was; the
    record and the rate-limit hit are written by the timer callback
    alone. When the window already counts ten hits or more it answers
    with the rate-limit refusal for every form, before looking at the
    URL; and a window entry without timestamps makes it throw. *)
Theorem handleSubmit_reads_only (URL_new : string → option URL)
    (isValidUrl isSelfReferencing : string → bool) (now : Z)
    (entropy : nat → Entropy) (form : FormState) (ls : gmap string Item) :
  after (handleSubmit URL_new isValidUrl isSelfReferencing now entropy form) ls = ls
  ∧ (∀ ts, windowOf ls = Some ts → RATE_LIMIT_MAX ≤ recentCount now ts →
       ∃ status,
         result (handleSubmit URL_new isValidUrl isSelfReferencing now entropy form) ls
         = Returns (RateLimited status)
         ∧ allowed status = false ∧ remaining status = 0)
  ∧ (windowOf ls = None →
       result (handleSubmit URL_new isValidUrl isSelfReferencing now entropy form) ls
       = Throws TypeError).
Proof.
  split; [|split].
  - unfold after.
    destruct (handleSubmit URL_new isValidUrl isSelfReferencing now entropy form ls)
      as [[outcome|e] ls'] eqn:H.
    + apply handleSubmit_creating in H as [-> _]. reflexivity.
    + unfold handleSubmit in H.
      pose proof (checkRateLimit_after now ls) as Hc. unfold after in Hc.
      unfold mbind at 1, M_bind in H.
      destruct (checkRateLimit now ls) as [[status|e'] ls0]; cbn [snd] in Hc; subst ls0.
      2:{ injection H as _ <-. reflexivity. }
      exfalso.
      destruct (negb (allowed status)); [discriminate|].
      destruct (String.eqb (trim (form_url form)) ""); [discriminate|].
      destruct (negb (isValidUrl _)); [discriminate|].
      destruct (isSelfReferencing _); [discriminate|].
      rewrite (bind_run _ _ _ _ _ (findDuplicateUrl_run _ ls)) in H.
      assert (Hrest : ∀ m : M SubmitOutcome,
                (∀ o l, m ls ≠ (Throws o, l)) →
                match List.find
                        (fun u => String.eqb (normalizedUrl u)
                           (normalizeUrl URL_new (ensureProtocol (trim (form_url form)))))
                        (urlsOf ls), form_duplicate form with
                | Some existing, None => mret (DuplicateShown existing)
                | _, _ => m
                end ls ≠ (Throws e, ls')).
      { intros m Hm. destruct (List.find _ _); [destruct (form_duplicate form)|];
          try apply Hm. discriminate. }
      revert H. apply Hrest. intros o l.
      destruct (form_useCustomAlias form && _).
      * destruct (negb (isValidAlias _)); [discriminate|].
        rewrite (bind_run _ _ _ _ _ (isShortCodeUnique_run _ ls)).
        destruct (negb _); discriminate.
      * rewrite (bind_run _ _ _ _ _ (generateUniqueShortCode_run _ ls)).
        destruct (negb _); discriminate.
  - intros ts Hw Hfull. unfold result, handleSubmit.
    rewrite (bind_run _ _ _ _ _ (checkRateLimit_full now ls ts Hw)).
    assert (Hlt : (recentCount now ts <? RATE_LIMIT_MAX) = false)
      by (apply Z.ltb_ge, Hfull).
    destruct (List.filter (inWindow now) ts); cbn [allowed]; rewrite Hlt; cbn [negb];
      (eexists; split; [reflexivity|]; cbn [allowed remaining];
       split; [reflexivity|unfold RATE_LIMIT_MAX in *; lia]).
  - intros Hw. unfold result, handleSubmit, checkRateLimit.
    unfold mbind at 1, M_bind. unfold mbind at 1, M_bind.
    rewrite loadRateLimit_run. cbn [timestamps]. rewrite Hw. reflexivity.
Qed.

(** ** The hash route *)

Lemma incrementClicks_result now faults client target ls :
  result (incrementClicks now faults client target) ls
  = Returns (map (fun u => if String.eqb (id u) target
                           then recordClick now client u else u) (urlsOf ls)).
Proof.
  apply (then_save_result now faults (fun l => map _ l) (fun l => map _ l)).
Qed.

Lemma handleHashRoute_run now now' faults client hash view ls :
  handleHashRoute now now' faults client hash view ls
  = match parseShortCode hash with
    | None => (Returns {| view_urls := view_urls view; view_redirect := RedirectNone |}, ls)
    | Some code =>
        match List.find (answersTo code) (urlsOf ls) with
        | None =>
            (Returns {| view_urls := view_urls view; view_redirect := NotFound code |}, ls)
        | Some found =>
            if isExpired now (expiresAt found)
            then (Returns {| view_urls := view_urls view;
                             view_redirect := Expired found code |}, ls)
            else
              (Returns
                 {| view_urls :=
                      map (fun u => if String.eqb (id u) (id found)
                                    then recordClick now' client u else u) (urlsOf ls);
                    view_redirect := Redirecting found code |},
               after (incrementClicks now' faults client (id found)) ls)
        end
    end.
Proof.
  unfold handleHashRoute. destruct (parseShortCode hash) as [code|]; [|reflexivity].
  rewrite bind_loadUrls.
  destruct (List.find (answersTo code) (urlsOf ls)) as [found|]; [|reflexivity].
  destruct (isExpired now (expiresAt found)); [reflexivity|].
  pose proof (incrementClicks_result now' faults client (id found) ls) as R.
  unfold result, after in *. unfold mbind, M_bind.
  destruct (incrementClicks now' faults client (id found) ls) as [[l|e] ls'];
    cbn [fst snd] in *; [|discriminate].
  injection R as ->. reflexivity.
Qed.

(** X19. [handleHashRoute] always returns, and what it sets tells what
    it did. Without a route code in the hash it leaves everything
    alone. A code that no stored record answers to (by its code or its
    alias) gives "not found", and a record that answers but is expired
    gives "expired": in both cases nothing is written, so no click is
    recorded, and the list shown stays. Otherwise it redirects to a
    stored record that answers to the code and is not expired, and
    does what [incrementClicks] does for that record's id: the list
    shown becomes the list [incrementClicks] returns. *)
Theorem handleHashRoute_outcomes (now now' : Z) (faults : list JsError)
    (client : ClientInfo) (hash : string) (view : AppView) (ls : gmap string Item) :
  ∃ view', result (handleHashRoute now now' faults client hash view) ls = Returns view'
    ∧ match view_redirect view' with
      | RedirectNone =>
          parseShortCode hash = None
          ∧ after (handleHashRoute now now' faults client hash view) ls = ls
          ∧ view_urls view' = view_urls view
      | NotFound code =>
          parseShortCode hash = Some code
          ∧ (∀ u, u ∈ urlsOf ls → answersTo code u = false)
          ∧ after (handleHashRoute now now' faults client hash view) ls = ls
          ∧ view_urls view' = view_urls view
      | Expired found code =>
          parseShortCode hash = Some code
          ∧ found ∈ urlsOf ls ∧ answersTo code found = true
          ∧ isExpired now (expiresAt found) = true
          ∧ after (handleHashRoute now now' faults client hash view) ls = ls
          ∧ view_urls view' = view_urls view
      | Redirecting found code =>
          parseShortCode hash = Some code
          ∧ found ∈ urlsOf ls ∧ answersTo code found = true
          ∧ isExpired now (expiresAt found) = false
          ∧ result (incrementClicks now' faults client (id found)) ls
            = Returns (view_urls view')
          ∧ after (handleHashRoute now now' faults client hash view) ls
            = after (incrementClicks now' faults client (id found)) ls
      end.
Proof.
  unfold result at 1, after. rewrite handleHashRoute_run.
  destruct (parseShortCode hash) as [code|] eqn:Hcode.
  2:{ eexists. split; [reflexivity|]. cbn [view_redirect view_urls fst snd].
      repeat split. }
  destruct (List.find (answersTo code) (urlsOf ls)) as [found|] eqn:Hfind.
  2:{ eexists. split; [reflexivity|]. cbn [view_redirect view_urls fst snd].
      repeat split.
      intros u Hu. apply (List.find_none _ _ Hfind), list_elem_of_In, Hu. }
  apply List.find_some in Hfind as [Hin Hans]. apply list_elem_of_In in Hin.
  destruct (isExpired now (expiresAt found)) eqn:Hexp.
  - eexists. split; [reflexivity|]. cbn [view_redirect view_urls fst snd].
    repeat split; assumption.
  - eexists. split; [reflexivity|]. cbn [view_redirect view_urls fst snd].
    repeat split; try assumption. apply incrementClicks_result.
Qed.

(** The route on a store with one live and one expired record. *)
Example handleHashRoute_scenario :
  let live := sampleUrl "id-1" "abc1234" (Some "my-link") (Some 9000) [] in
  let gone := sampleUrl "id-2" "old0002" None (Some 4000) [] in
  let ls := storeOf [live; gone] in
  let view := {| view_urls := []; view_redirect := RedirectNone |} in
  (view_redirect <$> result_value (handleHashRoute 5000 5001 [] sampleClient "#/s/my-link" view) ls)
  = Some (Redirecting live "my-link")
  ∧ map clicks (urlsOf (after (handleHashRoute 5000 5001 [] sampleClient "#/s/my-link" view) ls))
    = [1; 0]
  ∧ (view_redirect <$> result_value (handleHashRoute 5000 5001 [] sampleClient "#/s/old0002" view) ls)
    = Some (Expired gone "old0002")
  ∧ after (handleHashRoute 5000 5001 [] sampleClient "#/s/old0002" view) ls = ls
  ∧ (view_redirect <$> result_value (handleHashRoute 5000 5001 [] sampleClient "#/s/nothing" view) ls)
    = Some (NotFound "nothing")
  ∧ (view_redirect <$> result_value (handleHashRoute 5000 5001 [] sampleClient "#/about" view) ls)
    = Some RedirectNone.
Proof. vm_compute. repeat split; reflexivity. Qed.

(** ** Fragments: short links and normalization *)

Lemma spanS_app_stop p s x :
  cleanStart p x →
  spanS p (s +:+ x) = (fst (spanS p s), snd (spanS p s) +:+ x).
Proof.
  intros Hx. induction s as [|c s IH].
  - rewrite append_nil_l. cbn [spanS fst snd]. destruct x as [|d x]; [reflexivity|].
    cbn [cleanStart] in Hx. cbn [spanS]. rewrite Hx. reflexivity.
  - rewrite append_cons. cbn [spanS]. destruct (p c) eqn:E.
    + rewrite IH. destruct (spanS p s) as [a b]. reflexivity.
    + cbn [fst snd]. rewrite append_cons. reflexivity.
Qed.

Lemma stripStart_app_stop p s x :
  cleanStart p x → stripStart p (s +:+ x) = stripStart p s +:+ x.
Proof.
  intros Hx. induction s as [|c s IH].
  - change (stripStart p x = x). apply stripStart_clean, Hx.
  - rewrite append_cons. cbn [stripStart]. destruct (p c); [exact IH|].
    rewrite append_cons. reflexivity.
Qed.

Lemma parseScheme_app s x scheme rest :
  cleanStart (fun c => isAlnum c || charIn "+-." c) x →
  parseScheme s = Some (scheme, rest) →
  parseScheme (s +:+ x) = Some (scheme, rest +:+ x).
Proof.
  intros Hx. unfold parseScheme. destruct s as [|c s]; [discriminate|].
  rewrite append_cons. destruct (isAlpha c); [|discriminate].
  rewrite <- append_cons, spanS_app_stop by exact Hx.
  destruct (spanS _ (String c s)) as [name tail]. cbn [fst snd].
  destruct tail as [|colon tail]; [discriminate|].
  rewrite append_cons. destruct (Ascii.eqb colon ":"); [|discriminate].
  intros H. injection H as <- <-. reflexivity.
Qed.

Lemma visible_hash_app s f :
  allS visible s = true → allS visible f = true →
  allS visible (s +:+ String "#" f) = true.
Proof.
  intros Hs Hf. rewrite allS_app, Hs. cbn [allS andb]. rewrite Hf. reflexivity.
Qed.

(** The parser on a URL without fragment to which [#] and a fragment
    are appended: the same components, and the fragment encoded. *)
Lemma parseURL_append_fragment s f r :
  allS visible s = true → allS visible f = true →
  parseURL s = Some r → url_fragment r = None →
  parseURL (s +:+ String "#" f)
  = Some (withFragment (Some (percentEncode inFragmentSet f)) r).
Proof.
  intros Hs Hf. unfold parseURL.
  rewrite !visible_input by (try apply visible_hash_app; assumption).
  destruct (parseScheme s) as [[scheme rest]|] eqn:Hscheme; [|discriminate].
  rewrite (parseScheme_app s (String "#" f) scheme rest eq_refl Hscheme).
  destruct (defaultPort scheme) as [d|]; [|discriminate].
  rewrite stripStart_app_stop by reflexivity.
  rewrite spanS_app_stop by reflexivity.
  destruct (spanS _ (stripStart isSlash rest)) as [authority rest1]. cbn [fst snd].
  destruct (negb (allS _ authority)); [discriminate|].
  destruct (spanS _ authority) as [hostPart portPart].
  destruct (parseHost hostPart) as [h|]; [|discriminate].
  destruct (parsePort scheme _) as [port|]; [|discriminate].
  rewrite spanS_app_stop by reflexivity.
  destruct (spanS _ rest1) as [pathPart rest2]. cbn [fst snd].
  rewrite spanS_app_stop by reflexivity.
  destruct (spanS _ rest2) as [queryPart fragmentPart]. cbn [fst snd].
  intros H Hfrag. injection H as <-. cbn [url_fragment] in Hfrag.
  destruct fragmentPart; [|discriminate].
  rewrite append_nil_l. reflexivity.
Qed.

Lemma aliasChar_facts c :
  isAlnum c || charIn "_-" c = true →
  visible c = true ∧ negb (inFragmentSet c) = true
  ∧ negb (Ascii.eqb c (ascii_of_nat 10)) = true
  ∧ negb (Ascii.eqb c (ascii_of_nat 13)) = true
  ∧ negb (Ascii.eqb c (ascii_of_nat 226)) = true.
Proof. by_bytes c; intros H; first [discriminate H|repeat split]. Qed.

Lemma includes_without (d : ascii) needle s :
  allS (fun c => negb (Ascii.eqb c d)) s = true →
  includes s (String d needle) = false.
Proof.
  unfold includes. induction s as [|c s IH]; [reflexivity|].
  cbn [allS existsSuffix startsWith]. intros H.
  apply andb_true_iff in H as [Hc Hs]. apply negb_true_iff in Hc.
  rewrite Ascii.eqb_sym, Hc. exact (IH Hs).
Qed.

Lemma alias_facts code :
  isValidAlias code = true →
  String.eqb code "" = false
  ∧ allS visible code = true
  ∧ allS (fun c => negb (inFragmentSet c)) code = true
  ∧ hasLineTerminator code = false.
Proof.
  unfold isValidAlias. intros H.
  apply andb_true_iff in H as [H Hchars]. apply andb_true_iff in H as [Hmin _].
  apply Nat.leb_le in Hmin.
  split; [destruct code; [cbn in Hmin; lia|reflexivity]|].
  split; [eapply allS_impl; [|exact Hchars]; intros c Hc; apply aliasChar_facts, Hc|].
  split; [eapply allS_impl; [|exact Hchars]; intros c Hc; apply aliasChar_facts, Hc|].
  unfold hasLineTerminator, lineSeparator, paragraphSeparator.
  rewrite !includes_without; [reflexivity|..];
    (eapply allS_impl; [|exact Hchars]); intros c Hc; apply aliasChar_facts, Hc.
Qed.

(** X20. A short link leads back to its code. For a base URL that the
    parser reads and that has no fragment, and a code that passes
    [isValidAlias] (as the custom aliases and the generated codes
    do), the URL [getFullShortUrl] builds parses, and [parseShortCode]
    reads the code back from its [location.hash]. *)
Theorem short_link_round_trip (location : option Location) (code : string) (r : URL) :
  allS visible (getBaseUrl location) = true →
  parseURL (getBaseUrl location) = Some r →
  url_fragment r = None →
  isValidAlias code = true →
  ∃ r', parseURL (getFullShortUrl location code) = Some r'
      ∧ locationHash r' = "#/s/" +:+ code
      ∧ parseShortCode (locationHash r') = Some code.
Proof.
  intros Hbase Hparse Hfrag Hcode.
  destruct (alias_facts code Hcode) as (Hne & Hvis & Hsafe & Hline).
  assert (Hf : allS visible ("/s/" +:+ code) = true) by exact Hvis.
  assert (He : percentEncode inFragmentSet ("/s/" +:+ code) = "/s/" +:+ code)
    by (apply percentEncode_fixed; exact Hsafe).
  eexists. split; [|split].
  - unfold getFullShortUrl.
    apply (parseURL_append_fragment (getBaseUrl location) ("/s/" +:+ code) r);
      assumption.
  - unfold locationHash, withFragment. cbn [url_fragment]. rewrite He. reflexivity.
  - unfold locationHash, withFragment. cbn [url_fragment]. rewrite He.
    change (String.eqb ("/s/" +:+ code) "") with false. cbv iota.
    unfold parseShortCode.
    change (dropS 4 ("#" +:+ "/s/" +:+ code)) with code.
    change (startsWith "#/s/" ("#" +:+ "/s/" +:+ code)) with true.
    rewrite Hne, Hline. reflexivity.
Qed.

Lemma short_link_round_trip_witness :
  ∃ r', parseURL (getFullShortUrl None "my-link") = Some r'
      ∧ locationHash r' = "#/s/" +:+ "my-link"
      ∧ parseShortCode (locationHash r') = Some "my-link".
Proof.
  assert (Hparse : parseURL (getBaseUrl None)
                   = Some (specialUrl "https" "sniplink.app" None "/" None))
    by (vm_compute; reflexivity).
  apply (short_link_round_trip None "my-link" _ eq_refl Hparse eq_refl eq_refl).
Defined.

Lemma hasDefaultPort_withFragment f r :
  hasDefaultPort (withFragment f r) = hasDefaultPort r.
Proof. reflexivity. Qed.

(** X21. Normalization drops the fragment: for a URL that the parser
    reads and that has no fragment, appending [#] and any fragment
    gives the same normalized URL. *)
Theorem normalizeUrl_drops_fragment (s f : string) (r : URL) :
  allS visible s = true → allS visible f = true →
  parseURL s = Some r → url_fragment r = None →
  normalizeUrl parseURL (s +:+ "#" +:+ f) = normalizeUrl parseURL s.
Proof.
  intros Hs Hf Hparse Hfrag. unfold normalizeUrl.
  change (s +:+ "#" +:+ f) with (s +:+ String "#" f).
  rewrite (parseURL_append_fragment s f r Hs Hf Hparse Hfrag), Hparse.
  f_equal. rewrite !canonicalize_fields. reflexivity.
Qed.

Lemma normalizeUrl_drops_fragment_witness :
  normalizeUrl parseURL ("https://example.com/docs?x=1" +:+ "#" +:+ "section-2")
  = normalizeUrl parseURL "https://example.com/docs?x=1".
Proof.
  assert (Hparse : parseURL "https://example.com/docs?x=1"
                   = Some (specialUrl "https" "example.com" None "/docs" (Some "x=1")))
    by (vm_compute; reflexivity).
  apply (normalizeUrl_drops_fragment "https://example.com/docs?x=1" "section-2" _
           eq_refl eq_refl Hparse eq_refl).
Defined.

(** ** The order of query parameters *)

Lemma string_compare_refl s : String.compare s s = Eq.
Proof.
  induction s as [|c s IH]; cbn; [reflexivity|].
  unfold Ascii.compare. rewrite N.compare_refl. exact IH.
Qed.

Lemma string_compare_lt_trans a : ∀ b c,
  String.compare a b = Lt → String.compare b c = Lt → String.compare a c = Lt.
Proof.
  induction a as [|x a IH]; intros [|y b] [|z c]; cbn; try discriminate; auto.
  unfold Ascii.compare.
  destruct (N.compare_spec (N_of_ascii x) (N_of_ascii y)) as [Hxy|Hxy|Hxy];
    try discriminate;
    destruct (N.compare_spec (N_of_ascii y) (N_of_ascii z)) as [Hyz|Hyz|Hyz];
    try discriminate; intros H1 H2.
  - rewrite Hxy, Hyz, N.compare_refl. eapply IH; eassumption.
  - rewrite Hxy. apply N.compare_lt_iff in Hyz. rewrite Hyz. reflexivity.
  - rewrite <- Hyz. apply N.compare_lt_iff in Hxy. rewrite Hxy. reflexivity.
  - assert (Hxz : (N_of_ascii x < N_of_ascii z)%N) by lia.
    apply N.compare_lt_iff in Hxz. rewrite Hxz. reflexivity.
Qed.

Lemma string_leb_trans a b c :
  String.leb a b = true → String.leb b c = true → String.leb a c = true.
Proof.
  unfold String.leb.
  destruct (String.compare a b) eqn:Hab; try discriminate;
    destruct (String.compare b c) eqn:Hbc; try discriminate; intros _ _.
  - apply String.compare_eq_iff in Hab, Hbc. subst.
    rewrite string_compare_refl. reflexivity.
  - apply String.compare_eq_iff in Hab. subst. rewrite Hbc. reflexivity.
  - apply String.compare_eq_iff in Hbc. subst. rewrite Hab. reflexivity.
  - rewrite (string_compare_lt_trans a b c Hab Hbc). reflexivity.
Qed.

(** Two insertions commute unless the two entries are different and
    have the same key. *)
Lemma insertEntry_comm x y s :
  (entryKey x = entryKey y → x = y) →
  insertEntry x (insertEntry y s) = insertEntry y (insertEntry x s).
Proof.
  intros Hkey. induction s as [|z s IH].
  - cbn [insertEntry].
    destruct (String.leb (entryKey x) (entryKey y)) eqn:Exy,
             (String.leb (entryKey y) (entryKey x)) eqn:Eyx; try reflexivity.
    + rewrite (Hkey (String.leb_antisym _ _ Exy Eyx)). reflexivity.
    + destruct (String.leb_total (entryKey x) (entryKey y)); congruence.
  - cbn [insertEntry].
    destruct (String.leb (entryKey y) (entryKey z)) eqn:Eyz,
             (String.leb (entryKey x) (entryKey z)) eqn:Exz; cbn [insertEntry].
    + rewrite Exz, Eyz.
      destruct (String.leb (entryKey x) (entryKey y)) eqn:Exy,
               (String.leb (entryKey y) (entryKey x)) eqn:Eyx; try reflexivity.
      * rewrite (Hkey (String.leb_antisym _ _ Exy Eyx)). reflexivity.
      * destruct (String.leb_total (entryKey x) (entryKey y)); congruence.
    + rewrite Exz, Eyz.
      destruct (String.leb (entryKey x) (entryKey y)) eqn:Exy; [|reflexivity].
      rewrite (string_leb_trans _ _ _ Exy Eyz) in Exz. discriminate.
    + rewrite Exz, Eyz.
      destruct (String.leb (entryKey y) (entryKey x)) eqn:Eyx; [|reflexivity].
      rewrite (string_leb_trans _ _ _ Eyx Exz) in Eyz. discriminate.
    + rewrite Exz, Eyz, IH. reflexivity.
Qed.

Lemma entryKey_inj n1 : ∀ n2 v1 v2,
  allS (fun c => negb (Ascii.eqb c ",")) n1 = true →
  allS (fun c => negb (Ascii.eqb c ",")) n2 = true →
  entryKey (n1, v1) = entryKey (n2, v2) → (n1, v1) = (n2, v2).
Proof.
  unfold entryKey. cbn [fst snd].
  induction n1 as [|c n1 IH]; intros [|d n2] v1 v2 H1 H2 H.
  - change (String "," v1 = String "," v2) in H. injection H as ->. reflexivity.
  - change (String "," v1 = String d (n2 +:+ String "," v2)) in H.
    injection H as <- _. cbn in H2. discriminate.
  - change (String c (n1 +:+ String "," v1) = String "," v2) in H.
    injection H as -> _. cbn in H1. discriminate.
  - change (String c (n1 +:+ String "," v1) = String d (n2 +:+ String "," v2)) in H.
    injection H as -> H. cbn [allS] in H1, H2. apply andb_true_iff in H1 as [_ H1], H2 as [_ H2].
    specialize (IH n2 v1 v2 H1 H2 H). injection IH as -> ->. reflexivity.
Qed.

Lemma sortEntries_permutation l1 l2 :
  Permutation l1 l2 → commaFree l1 = true → sortEntries l1 = sortEntries l2.
Proof.
  unfold commaFree. induction 1 as [|x l1 l2 _ IH|x y l|l1 l2 l3 H12 IH12 _ IH23];
    intros Hfree.
  - reflexivity.
  - cbn [sortEntries]. cbn [forallb] in Hfree.
    apply andb_true_iff in Hfree as [_ Hfree]. rewrite (IH Hfree). reflexivity.
  - cbn [sortEntries]. cbn [forallb] in Hfree.
    apply andb_true_iff in Hfree as [Hy Hfree].
    apply andb_true_iff in Hfree as [Hx _].
    apply insertEntry_comm. destruct x as [n1 v1], y as [n2 v2].
    intros Hk. apply entryKey_inj; assumption.
  - rewrite (IH12 Hfree). apply IH23.
    rewrite forallb_forall in Hfree |- *. intros e He. apply Hfree.
    apply list_elem_of_In. rewrite H12. apply list_elem_of_In, He.
Qed.

(** X22. Normalization does not depend on the order of the query
    parameters: two URLs whose parsed forms differ in the query only,
    with the same parameters in another order, have the same normalized
    URL, provided no parameter name contains a comma (the sort compares
    the pairs through the text [name,value]). *)
Theorem normalizeUrl_ignores_param_order (URL_new : string → option URL)
    (a b : string) (ra : URL) (qb : option string) :
  URL_new a = Some ra →
  URL_new b = Some (withQuery qb ra) →
  Permutation (searchParams ra) (searchParams (withQuery qb ra)) →
  commaFree (searchParams ra) = true →
  normalizeUrl URL_new a = normalizeUrl URL_new b.
Proof.
  intros Ha Hb Hperm Hfree. unfold normalizeUrl. rewrite Ha, Hb. f_equal.
  rewrite !canonicalize_fields.
  assert (Hq : normalQuery (url_query ra) = normalQuery qb).
  { unfold normalQuery. unfold searchParams in Hperm, Hfree. cbn [url_query withQuery] in Hperm.
    rewrite (sortEntries_permutation _ _ Hperm Hfree). reflexivity. }
  destruct ra as [sc us pw ho po pa op qu fr].
  cbn [withQuery url_query] in *. rewrite Hq. reflexivity.
Qed.

Lemma normalizeUrl_ignores_param_order_witness :
  normalizeUrl parseURL "https://example.com/p?b=2&a=1&c=3"
  = normalizeUrl parseURL "https://example.com/p?c=3&b=2&a=1".
Proof.
  apply (normalizeUrl_ignores_param_order parseURL
           "https://example.com/p?b=2&a=1&c=3" "https://example.com/p?c=3&b=2&a=1"
           (specialUrl "https" "example.com" None "/p" (Some "b=2&a=1&c=3"))
           (Some "c=3&b=2&a=1")).
  - vm_compute. reflexivity.
  - vm_compute. reflexivity.
  - vm_compute. eapply perm_trans; [apply perm_skip, perm_swap|apply perm_swap].
  - vm_compute. reflexivity.
Defined.

(** With a comma in a name the order can matter: the two pairs below
    have the same text [a,b,c], and the stable sort keeps them in the
    order it found them. *)
Example param_order_with_comma :
  normalizeUrl parseURL "https://example.com/p?a%2Cb=c&a=b%2Cc"
  = "https://example.com/p?a%2Cb=c&a=b%2Cc"
  ∧ normalizeUrl parseURL "https://example.com/p?a=b%2Cc&a%2Cb=c"
    = "https://example.com/p?a=b%2Cc&a%2Cb=c".
Proof. vm_compute. split; reflexivity. Qed.

(** ** Sorting with a comparator *)

Lemma insertSorted_permutation {A} (compare : A → A → Z) x l :
  Permutation (insertSorted compare x l) (x :: l).
Proof.
  induction l as [|y l IH]; cbn [insertSorted]; [reflexivity|].
  destruct (compare x y <=? 0); [reflexivity|].
  rewrite IH. apply perm_swap.
Qed.

Lemma sortArray_permutation {A} (compare : A → A → Z) l :
  Permutation (sortArray compare l) l.
Proof.
  induction l as [|x l IH]; cbn [sortArray]; [reflexivity|].
  rewrite insertSorted_permutation, IH. reflexivity.
Qed.

Section Ordered.

Context {A : Type} (compare : A → A → Z).
Hypothesis compare_total : ∀ a b, compare a b ≤ 0 ∨ compare b a ≤ 0.
Hypothesis compare_trans : ∀ a b c, compare a b ≤ 0 → compare b c ≤ 0 → compare a c ≤ 0.

Lemma insertSorted_ordered x l :
  ordered compare l → ordered compare (insertSorted compare x l).
Proof.
  induction l as [|y l IH]; cbn [insertSorted ordered].
  - intros _. split; constructor.
  - intros [Hy Hl]. destruct (compare x y <=? 0) eqn:E.
    + apply Z.leb_le in E. cbn [ordered]. split; [|split; assumption].
      constructor; [exact E|].
      eapply Forall_impl; [exact Hy|]. cbn beta. intros z Hz.
      eapply compare_trans; eassumption.
    + apply Z.leb_gt in E. cbn [ordered]. split; [|apply IH, Hl].
      rewrite insertSorted_permutation. constructor; [|exact Hy].
      destruct (compare_total x y); [lia|assumption].
Qed.

Lemma sortArray_ordered l : ordered compare (sortArray compare l).
Proof.
  induction l as [|x l IH]; cbn [sortArray]; [exact I|].
  apply insertSorted_ordered, IH.
Qed.

End Ordered.

Lemma ordered_app {A} (compare : A → A → Z) l1 l2 :
  ordered compare (l1 ++ l2) →
  ∀ x y, x ∈ l1 → y ∈ l2 → compare x y ≤ 0.
Proof.
  induction l1 as [|z l1 IH]; cbn [app ordered]; intros H x y Hx Hy.
  - inversion Hx.
  - destruct H as [Hz Hrest]. apply elem_of_cons in Hx as [->|Hx].
    + rewrite Forall_forall in Hz. apply Hz, elem_of_app. right. exact Hy.
    + eapply IH; eassumption.
Qed.

(** ** The list view *)

Lemma includes_empty s : includes s "" = true.
Proof. destruct s; reflexivity. Qed.

Lemma matchesQuery_empty URL_new u : matchesQuery URL_new "" u = true.
Proof. unfold matchesQuery. cbn [toLowerCase]. rewrite includes_empty. reflexivity. Qed.

(** X23. The list [UrlList] shows holds exactly the records that
    match the search, each as often as it is stored; with an empty
    search these are all the records. For the orders by date and by
    clicks it is sorted: newest first, oldest first, or most clicks
    first. *)
Theorem filteredUrls_shown (URL_new : string → option URL)
    (localeCompare : string → string → Z) (all : list ShortenedUrl)
    (searchQuery : string) (sortBy : SortOption) :
  Permutation (filteredUrls URL_new localeCompare all searchQuery sortBy)
              (List.filter (matchesQuery URL_new searchQuery) all)
  ∧ Permutation (filteredUrls URL_new localeCompare all "" sortBy) all
  ∧ ordered (fun a b => createdAt b - createdAt a)
            (filteredUrls URL_new localeCompare all searchQuery SortNewest)
  ∧ ordered (fun a b => createdAt a - createdAt b)
            (filteredUrls URL_new localeCompare all searchQuery SortOldest)
  ∧ ordered (fun a b => clicks b - clicks a)
            (filteredUrls URL_new localeCompare all searchQuery SortClicks).
Proof.
  unfold filteredUrls. split; [apply sortArray_permutation|].
  split.
  - rewrite sortArray_permutation. rewrite filter_all; [reflexivity|].
    intros u _. apply matchesQuery_empty.
  - repeat split; apply sortArray_ordered; cbn [compareUrls]; intros; lia.
Qed.

(** The default order on three records, two of them created at the
    same time: these two stay in the order of the store. *)
Example filteredUrls_newest_first :
  let a := sampleUrl "id-a" "aaaaaaa" None None [] in
  let b := {| id := "id-b"; originalUrl := "https://example.org/";
              normalizedUrl := "https://example.org/"; shortCode := "bbbbbbb";
              customAlias := None; createdAt := 2000; expiresAt := None;
              clicks := 0; clickHistory := []; password := None |} in
  let c := sampleUrl "id-c" "ccccccc" None None [] in
  map id (filteredUrls parseURL (fun _ _ => 0) [a; b; c] "" SortNewest)
  = ["id-b"; "id-a"; "id-c"]
  ∧ map id (filteredUrls parseURL (fun _ _ => 0) [a; b; c] "EXAMPLE.ORG" SortNewest)
    = ["id-b"].
Proof. vm_compute. split; reflexivity. Qed.

(** [toggleSelect] flips the selection of one id and of no
    other: the id is selected afterwards exactly when it was not
    before, every other id keeps its state, and toggling twice gives
    the selection back. *)
Lemma toggleSelect_flips (target : string) (selectedIds : gset string) :
  (target ∈ toggleSelect target selectedIds ↔ target ∉ selectedIds)
  ∧ (∀ other, other ≠ target →
       (other ∈ toggleSelect target selectedIds ↔ other ∈ selectedIds))
  ∧ toggleSelect target (toggleSelect target selectedIds) = selectedIds.
Proof.
  assert (H1 : target ∈ toggleSelect target selectedIds ↔ target ∉ selectedIds).
  { unfold toggleSelect. case_bool_decide as Hin.
    - rewrite elem_of_difference, elem_of_singleton. tauto.
    - rewrite elem_of_union, elem_of_singleton. tauto. }
  assert (H2 : ∀ other, other ≠ target →
             (other ∈ toggleSelect target selectedIds ↔ other ∈ selectedIds)).
  { intros other Hne. unfold toggleSelect. case_bool_decide as Hin.
    - rewrite elem_of_difference, elem_of_singleton. tauto.
    - rewrite elem_of_union, elem_of_singleton. tauto. }
  split; [exact H1|]. split; [exact H2|].
  apply set_eq. intros x. destruct (decide (x = target)) as [->|Hne].
  - unfold toggleSelect at 1. case_bool_decide as Hin.
    + rewrite elem_of_difference, elem_of_singleton. apply H1 in Hin. tauto.
    + rewrite elem_of_union, elem_of_singleton.
      destruct (decide (target ∈ selectedIds)) as [Hs|Hs]; [tauto|].
      exfalso. apply Hin, H1, Hs.
  - unfold toggleSelect at 1. case_bool_decide as Hin.
    + rewrite elem_of_difference, elem_of_singleton, (H2 x Hne). tauto.
    + rewrite elem_of_union, elem_of_singleton, (H2 x Hne). tauto.
Qed.

(** X24. [toggleSelectAll] leaves either no id selected or exactly
    the ids of the records shown; it clears the selection exactly when
    the number of selected ids equals the number of records shown. So
    when the records shown have distinct ids, a second call after one
    that selected everything clears the selection again, and
    [bulkDeleteUrls] with the selection of a first call from an empty
    selection removes every record shown that is stored. *)
Theorem toggleSelectAll_selection (selectedIds : gset string)
    (shown : list ShortenedUrl) (now : Z) (ls : gmap string Item) :
  (toggleSelectAll selectedIds shown = ∅ ∧ size selectedIds = length shown
   ∨ (∀ x, x ∈ toggleSelectAll selectedIds shown ↔ x ∈ map id shown)
     ∧ size selectedIds ≠ length shown)
  ∧ (NoDup (map id shown) → shown ≠ [] →
     toggleSelectAll (toggleSelectAll ∅ shown) shown = ∅)
  ∧ (shown ≠ [] →
     ∃ l, result (bulkDeleteUrls now [] (toggleSelectAll ∅ shown)) ls = Returns l
        ∧ ∀ u, u ∈ l ↔ u ∈ urlsOf ls ∧ id u ∉ map id shown).
Proof.
  assert (Hfirst : shown ≠ [] →
            toggleSelectAll ∅ shown = list_to_set (map id shown)).
  { intros Hne. unfold toggleSelectAll. rewrite size_empty.
    destruct shown; [contradiction|reflexivity]. }
  split; [|split].
  - unfold toggleSelectAll.
    destruct (size selectedIds =? length shown)%nat eqn:E.
    + left. apply Nat.eqb_eq in E. split; [reflexivity|exact E].
    + right. apply Nat.eqb_neq in E. split; [|exact E].
      intros x. apply elem_of_list_to_set.
  - intros Hnd Hne. rewrite (Hfirst Hne). unfold toggleSelectAll.
    rewrite size_list_to_set by exact Hnd. rewrite length_map, Nat.eqb_refl.
    reflexivity.
  - intros Hne. rewrite (Hfirst Hne). eexists.
    unfold result. rewrite bulkDeleteUrls_run. cbn [fst].
    split; [reflexivity|]. intros u.
    rewrite !list_elem_of_In, List.filter_In, negb_true_iff, bool_decide_eq_false.
    rewrite elem_of_list_to_set, <- !list_elem_of_In. reflexivity.
Qed.

(** X25. [topUrls] of the analytics page: the five records with the
    most clicks (all of them when there are fewer), most clicks first;
    no record left out has more clicks than one that is listed. *)
Theorem topUrls_most_clicked (all : list ShortenedUrl) :
  length (topUrls all) = Nat.min 5 (length all)
  ∧ ordered (fun a b => clicks b - clicks a) (topUrls all)
  ∧ ∃ others, Permutation all (topUrls all ++ others)
      ∧ ∀ u v, u ∈ topUrls all → v ∈ others → clicks v ≤ clicks u.
Proof.
  unfold topUrls.
  set (sorted := sortArray (fun a b => clicks b - clicks a) all).
  assert (Hperm : Permutation sorted all) by apply sortArray_permutation.
  assert (Hord : ordered (fun a b => clicks b - clicks a) sorted)
    by (apply sortArray_ordered; intros; lia).
  split; [rewrite length_take, (Permutation_length Hperm); reflexivity|].
  rewrite <- (take_drop 5 sorted) in Hord.
  split.
  - clear Hperm. revert Hord. generalize (drop 5 sorted).
    induction (take 5 sorted) as [|x l IH]; intros rest; cbn [app ordered];
      [intros _; exact I|].
    intros [Hx Hrest]. split; [|eapply IH, Hrest].
    apply Forall_app in Hx as [Hx _]. exact Hx.
  - exists (drop 5 sorted). split; [rewrite take_drop; symmetry; exact Hperm|].
    intros u v Hu Hv.
    pose proof (ordered_app _ _ _ Hord u v Hu Hv) as H. cbn beta in H. lia.
Qed.

(** ** Statistics *)

Lemma fold_left_sumClicks l : ∀ acc,
  fold_left (fun sum u => sum + clicks u) l acc = acc + sumClicks l.
Proof.
  induction l as [|u l IH]; intros acc; cbn [fold_left sumClicks fold_right];
    [lia|].
  fold (sumClicks l). rewrite IH. lia.
Qed.

Lemma best_fold l : ∀ first best,
  fold_left (fun best u => if clicks best <? clicks u then u else best) l first
  = best →
  ∃ before after, first :: l = before ++ best :: after
    ∧ Forall (fun u => clicks u < clicks best) before
    ∧ Forall (fun u => clicks u ≤ clicks best) after.
Proof.
  induction l as [|x l IH]; intros first best Hbest; cbn [fold_left] in Hbest.
  - subst best. exists [], []. repeat split; constructor.
  - destruct (clicks first <? clicks x) eqn:E.
    + apply Z.ltb_lt in E.
      destruct (IH x best Hbest) as (before & after & Heq & Hb & Ha).
      exists (first :: before), after.
      split; [cbn [app]; f_equal; exact Heq|]. split; [|exact Ha].
      constructor; [|exact Hb].
      destruct before as [|b before]; cbn [app] in Heq.
      * injection Heq as <- _. exact E.
      * injection Heq as <- _. apply Forall_cons_1 in Hb as [Hb _]. lia.
    + apply Z.ltb_ge in E.
      destruct (IH first best Hbest) as (before & after & Heq & Hb & Ha).
      destruct before as [|b before]; cbn [app] in Heq.
      * injection Heq as <- <-. exists [], (x :: l).
        split; [reflexivity|]. split; [constructor|].
        constructor; [exact E|exact Ha].
      * injection Heq as <- ->. exists (first :: x :: before), after.
        split; [reflexivity|]. split; [|exact Ha].
        apply Forall_cons_1 in Hb as [Hfirst Hb].
        constructor; [exact Hfirst|]. constructor; [lia|exact Hb].
Qed.

Lemma isActive_false now u :
  isActive now u = false
  ↔ isExpired now (expiresAt u) = true ∨ expiresNow now u = true.
Proof.
  unfold isActive, isExpired, expiresNow, truthyNum.
  destruct (expiresAt u) as [e|]; cbn [negb orb]; [|split; [discriminate|intros [H|H]; discriminate]].
  destruct (e =? 0) eqn:E0; cbn [negb orb andb].
  - split; [discriminate|intros [H|H]; discriminate].
  - rewrite Z.ltb_ge, Z.ltb_lt, Z.eqb_eq. lia.
Qed.

(** X26. The counts of [getUrlStats]. The active and the expired
    records together are all the records; the total of clicks is the
    sum of the counters; a record counts as expired when [isExpired]
    reports it and also when it expires at this very millisecond, so
    the expired count is never below the number of records that
    [isExpired] reports; and the best record, absent only for an empty
    list, is the first record that has the highest counter. *)
Theorem getUrlStats_counts (now : Z) (all : list ShortenedUrl) :
  let stats := getUrlStats now all in
  (stats_activeCount stats + stats_expiredCount stats = stats_total stats)%nat
  ∧ stats_total stats = length all
  ∧ stats_totalClicks stats = sumClicks all
  ∧ stats_expiredCount stats
    = length (List.filter (fun u => isExpired now (expiresAt u) || expiresNow now u) all)
  ∧ (length (List.filter (fun u => isExpired now (expiresAt u)) all)
     ≤ stats_expiredCount stats)%nat
  ∧ match stats_bestUrl stats with
    | None => all = []
    | Some best =>
        ∃ before after, all = before ++ best :: after
          ∧ Forall (fun u => clicks u < clicks best) before
          ∧ Forall (fun u => clicks u ≤ clicks best) after
    end.
Proof.
  cbv zeta. unfold getUrlStats.
  cbn [stats_activeCount stats_expiredCount stats_total stats_totalClicks stats_bestUrl].
  pose proof (List.filter_length (isActive now) all) as Hlen.
  assert (Hexp : (length all - length (List.filter (isActive now) all))%nat
                 = length (List.filter
                     (fun u => isExpired now (expiresAt u) || expiresNow now u) all)).
  { rewrite (List.filter_ext (fun u => isExpired now (expiresAt u) || expiresNow now u)
               (fun u => negb (isActive now u))); [lia|].
    intros u. destruct (isActive now u) eqn:E; cbn [negb].
    - destruct (isExpired now (expiresAt u) || expiresNow now u) eqn:E'; [|reflexivity].
      apply orb_true_iff, isActive_false in E'. congruence.
    - apply orb_true_iff, isActive_false, E. }
  split; [lia|]. split; [reflexivity|].
  split; [rewrite fold_left_sumClicks; lia|]. split; [exact Hexp|].
  split.
  - rewrite Hexp. apply filter_length_impl. intros u _ ->. reflexivity.
  - destruct all as [|first others]; [reflexivity|]. apply best_fold. reflexivity.
Qed.

(** A record expiring at this very millisecond is counted as expired,
    though [isExpired] does not report it. *)
Example getUrlStats_boundary :
  let u := sampleUrl "id-1" "abc1234" None (Some 5000) [] in
  stats_expiredCount (getUrlStats 5000 [u]) = 1%nat
  ∧ isExpired 5000 (expiresAt u) = false.
Proof. vm_compute. split; reflexivity. Qed.

(** ** Toasts *)

Lemma string_of_uint_digits d : allS isDigit (NilZero.string_of_uint d) = true.
Proof.
  assert (H : ∀ d, allS isDigit (NilEmpty.string_of_uint d) = true).
  { intros d'. induction d' as [|d' IH|d' IH|d' IH|d' IH|d' IH|d' IH|d' IH|d' IH|d' IH|d' IH];
      [reflexivity|..]; cbn [NilEmpty.string_of_uint allS]; rewrite IH; reflexivity. }
  destruct d; [reflexivity|..]; apply H.
Qed.

Lemma decimal_digits n : allS isDigit (decimal n) = true.
Proof. apply string_of_uint_digits. Qed.

Lemma N_to_uint_nonnil n : N.to_uint n ≠ Decimal.Nil.
Proof.
  destruct n as [|p]; [discriminate|]. apply DecimalPos.Unsigned.to_uint_nonnil.
Qed.

Lemma decimal_inj n m : decimal n = decimal m → n = m.
Proof.
  unfold decimal. intros H. apply DecimalN.Unsigned.to_uint_inj.
  pose proof (NilZero.usu _ (N_to_uint_nonnil n)) as Hn.
  pose proof (NilZero.usu _ (N_to_uint_nonnil m)) as Hm.
  rewrite H in Hn. rewrite Hn in Hm. injection Hm. auto.
Qed.

Lemma digits_before_dash a : ∀ b x y,
  allS isDigit a = true → allS isDigit b = true →
  a +:+ String "-" x = b +:+ String "-" y → a = b.
Proof.
  induction a as [|c a IH]; intros [|d b] x y Ha Hb H.
  - reflexivity.
  - change (String "-" x = String d (b +:+ String "-" y)) in H.
    injection H as <- _. cbn in Hb. discriminate.
  - change (String c (a +:+ String "-" x) = String "-" y) in H.
    injection H as -> _. cbn in Ha. discriminate.
  - change (String c (a +:+ String "-" x) = String d (b +:+ String "-" y)) in H.
    injection H as -> H. cbn [allS] in Ha, Hb.
    apply andb_true_iff in Ha as [_ Ha], Hb as [_ Hb].
    rewrite (IH b x y Ha Hb H). reflexivity.
Qed.

Lemma toastId_inj k now k' now' :
  0 ≤ k → 0 ≤ k' → toastId k now = toastId k' now' → k = k'.
Proof.
  intros Hk Hk'. unfold toastId, numberToString.
  destruct (k <? 0) eqn:E; [apply Z.ltb_lt in E; lia|].
  destruct (k' <? 0) eqn:E'; [apply Z.ltb_lt in E'; lia|].
  intros H.
  change (String "t" (String "o" (String "a" (String "s" (String "t" (String "-"
            (decimal (Z.to_N k) +:+ String "-"
               (if now <? 0 then "-" +:+ decimal (Z.to_N (- now))
                else decimal (Z.to_N now))))))))
          = String "t" (String "o" (String "a" (String "s" (String "t" (String "-"
            (decimal (Z.to_N k') +:+ String "-"
               (if now' <? 0 then "-" +:+ decimal (Z.to_N (- now'))
                else decimal (Z.to_N now'))))))))) in H.
  injection H as H.
  apply digits_before_dash in H; [|apply decimal_digits..].
  apply decimal_inj in H. lia.
Qed.

Lemma NoDup_map_filter {A B} (f : A → B) (p : A → bool) l :
  NoDup (map f l) → NoDup (map f (List.filter p l)).
Proof.
  intros H. eapply sublist_NoDup; [exact H|].
  apply (fmap_sublist f), filter_sublist.
Qed.

Lemma toastStep_inv st st' : toastInv st → toastStep st st' → toastInv st'.
Proof.
  intros (Hc & Hnd & Hall) Hstep. destruct Hstep as [now message type duration st|ident st].
  - unfold addToast, toastInv. cbn [fst toasts counter].
    fold (toastId (counter st + 1) now).
    split; [lia|]. rewrite map_app. cbn [map toast_id]. split.
    + apply NoDup_app. split; [exact Hnd|]. split; [|apply NoDup_singleton].
      intros x Hx Hx'. apply list_elem_of_singleton in Hx'. subst x.
      apply list_elem_of_In, in_map_iff in Hx as (t & Ht & Hin).
      rewrite Forall_forall in Hall.
      destruct (Hall t (proj2 (list_elem_of_In _ _) Hin)) as (k & n & Hk & Hid).
      rewrite Hid in Ht. apply toastId_inj in Ht; lia.
    + apply Forall_app_2.
      * eapply Forall_impl; [exact Hall|]. cbn beta.
        intros t (k & n & Hk & Hid). exists k, n. split; [lia|exact Hid].
      * constructor; [|constructor]. exists (counter st + 1), now.
        split; [lia|reflexivity].
  - unfold removeToast, toastInv. cbn [toasts counter].
    split; [exact Hc|]. split; [apply NoDup_map_filter, Hnd|].
    apply Forall_filter_preserved, Hall.
Qed.

Lemma filter_one_out {A} (f : A → string) (x : string) l :
  NoDup (map f l) →
  (length l ≤ S (length (List.filter (fun t => negb (String.eqb (f t) x)) l)))%nat.
Proof.
  induction l as [|t l IH]; cbn [map List.filter length]; [lia|].
  intros Hnd. apply NoDup_cons in Hnd as [Hnotin Hnd].
  destruct (String.eqb (f t) x) eqn:E; cbn [negb length]; [|specialize (IH Hnd); lia].
  apply String.eqb_eq in E. subst x.
  rewrite filter_all; [lia|].
  intros u Hu. apply negb_true_iff, String.eqb_neq. intros Heq.
  apply Hnotin. rewrite <- Heq. apply list_elem_of_In, in_map, list_elem_of_In, Hu.
Qed.

(** X27. In every state of the toast hook reached by adding and
    removing toasts, by the buttons or by the timers and in any order,
    the toasts have distinct ids (the counter makes them differ, also
    within one millisecond); so a removal takes away one toast at
    most, and none with another id. *)
Theorem toast_ids_unique (st : ToastState) :
  toastReachable st →
  NoDup (map toast_id (toasts st))
  ∧ ∀ ident,
      (length (toasts st) ≤ S (length (toasts (removeToast ident st))))%nat
      ∧ ∀ t, t ∈ toasts st → toast_id t ≠ ident → t ∈ toasts (removeToast ident st).
Proof.
  intros Hreach.
  assert (Hinv : toastInv st).
  { induction Hreach as [|st st' _ IH Hstep].
    - split; [cbn; lia|]. split; constructor.
    - eapply toastStep_inv; eassumption. }
  destruct Hinv as (_ & Hnd & _). split; [exact Hnd|].
  intros ident. split.
  - unfold removeToast. cbn [toasts]. apply filter_one_out, Hnd.
  - intros t Ht Hne. unfold removeToast. cbn [toasts].
    apply list_elem_of_In, List.filter_In. split; [apply list_elem_of_In, Ht|].
    apply negb_true_iff, String.eqb_neq, Hne.
Qed.

Lemma toast_ids_unique_witness :
  let st0 := {| toasts := []; counter := 0 |} in
  let st1 := fst (addToast 1700000000000 "URL deleted" (Some ToastSuccess) None st0) in
  let st2 := fst (addToast 1700000000000 "URL deleted" (Some ToastSuccess) None st1) in
  toastReachable st2 ∧ NoDup (map toast_id (toasts st2)).
Proof.
  intros st0 st1 st2.
  assert (Hreach : toastReachable st2).
  { eapply toast_next; [|apply toast_add].
    eapply toast_next; [|apply toast_add]. apply toast_init. }
  split; [exact Hreach|]. exact (proj1 (toast_ids_unique st2 Hreach)).
Defined.

(** ** From the creation to the redirect *)

Lemma attempts_valid entropy code :
  In code (attempts (fun k => generateShortCode (entropy k))) →
  isValidAlias code = true.
Proof.
  unfold attempts, tier. cbn [map seq app Nat.add]. intros H.
  repeat (destruct H as [<-|H]; [apply generated_code_alias; cbn; lia|]).
  contradiction.
Qed.

(** The code [handleSubmit] settles on passes [isValidAlias]: an alias
    has been checked, a generated code is made of the alphabet. *)
Lemma handleSubmit_code_valid URL_new isValidUrl isSelfReferencing now entropy
    form ls p ls' :
  handleSubmit URL_new isValidUrl isSelfReferencing now entropy form ls
    = (Returns (Creating p), ls') →
  isValidAlias (pending_shortCode p) = true.
Proof.
  unfold handleSubmit. intros H.
  unfold mbind at 1, M_bind in H.
  destruct (checkRateLimit now ls) as [[status|e] ls0]; [|discriminate].
  destruct (negb (allowed status)); [discriminate|].
  destruct (String.eqb (trim (form_url form)) ""); [discriminate|].
  destruct (negb (isValidUrl _)); [discriminate|].
  destruct (isSelfReferencing _); [discriminate|].
  rewrite (bind_run _ _ _ _ _ (findDuplicateUrl_run _ ls0)) in H.
  set (finalUrl := ensureProtocol _) in *.
  set (normalized := normalizeUrl URL_new finalUrl) in *.
  assert (Hrest :
    (if form_useCustomAlias form
        && negb (String.eqb (trim (form_customAlias form)) "")
     then
       if negb (isValidAlias (trim (form_customAlias form))) then mret AliasInvalid
       else
         free ← isShortCodeUnique (trim (form_customAlias form));
         if negb free then mret AliasTaken
         else mret (Creating {| pending_finalUrl := finalUrl;
                                pending_normalized := normalized;
                                pending_shortCode := trim (form_customAlias form) |})
     else
       generated ←
         generateUniqueShortCode (fun k => generateShortCode (entropy k)) 5;
       if negb (truthyStr generated) then mret GenerationFailed
       else mret (Creating {| pending_finalUrl := finalUrl;
                              pending_normalized := normalized;
                              pending_shortCode := default "" generated |})) ls0
    = (Returns (Creating p), ls')).
  { destruct (List.find _ (urlsOf ls0)) as [existing|];
      [destruct (form_duplicate form)|]; first [exact H|discriminate H]. }
  clear H. destruct (form_useCustomAlias form && _).
  - destruct (isValidAlias (trim (form_customAlias form))) eqn:Hvalid;
      cbn [negb] in Hrest; [|discriminate].
    rewrite (bind_run _ _ _ _ _ (isShortCodeUnique_run _ ls0)) in Hrest.
    destruct (negb _); [discriminate|].
    injection Hrest as <- _. exact Hvalid.
  - rewrite (bind_run _ _ _ _ _ (generateUniqueShortCode_run _ ls0)) in Hrest.
    destruct (List.find _ _) as [code|] eqn:Hfind; cbn [truthyStr negb] in Hrest;
      [|discriminate].
    destruct (negb (negb _)); [discriminate|].
    injection Hrest as <- _. cbn [pending_shortCode default from_option Datatypes.id].
    apply List.find_some in Hfind as [Hin _].
    eapply attempts_valid, Hin.
Qed.

(** X28. A link that has just been created resolves. When
    [handleSubmit] has accepted a form and its timer callback has
    stored the record, both writes succeeding, the hash route of the
    new code redirects to the new record, at any time at which the
    record has not expired, and whatever older records the store
    holds. *)
Theorem created_link_resolves (URL_new : string → option URL)
    (isValidUrl isSelfReferencing : string → bool) (now created visit visit' : Z)
    (entropy : nat → Entropy) (form : FormState) (p : Pending) (uuid : string)
    (faults : list JsError) (client : ClientInfo) (view : AppView)
    (ls : gmap string Item) :
  handleSubmit URL_new isValidUrl isSelfReferencing now entropy form ls
    = (Returns (Creating p), ls) →
  isExpired visit (getExpirationTime created (form_expiration form)) = false →
  ∃ view',
    result (handleHashRoute visit visit' faults client
              ("#/s/" +:+ pending_shortCode p) view)
           (after (createUrl created [] None uuid form p) ls)
    = Returns view'
    ∧ view_redirect view'
      = Redirecting (migrate (newUrl created uuid form p)) (pending_shortCode p).
Proof.
  intros Hsubmit Hlive.
  pose proof (handleSubmit_code_valid _ _ _ _ _ _ _ _ _ Hsubmit) as Hvalid.
  destruct (alias_facts _ Hvalid) as (Hne & _ & _ & Hline).
  set (ls1 := after (createUrl created [] None uuid form p) ls).
  assert (Hurls : urlsOf ls1 = migrate (newUrl created uuid form p) :: urlsOf ls).
  { unfold ls1. rewrite createUrl_after. apply urlsOf_after_addUrl. }
  assert (Hcode : parseShortCode ("#/s/" +:+ pending_shortCode p)
                  = Some (pending_shortCode p)).
  { unfold parseShortCode.
    change (dropS 4 ("#/s/" +:+ pending_shortCode p)) with (pending_shortCode p).
    change (startsWith "#/s/" ("#/s/" +:+ pending_shortCode p)) with true.
    rewrite Hne, Hline. reflexivity. }
  unfold result. rewrite handleHashRoute_run, Hcode, Hurls.
  cbn [List.find]. unfold answersTo at 1. cbn [migrate shortCode newUrl].
  rewrite String.eqb_refl. cbn [orb].
  change (expiresAt (migrate (newUrl created uuid form p)))
    with (getExpirationTime created (form_expiration form)).
  rewrite Hlive. eexists. split; reflexivity.
Qed.

Lemma created_link_resolves_witness :
  ∃ view',
    result (handleHashRoute 5000 5001 [] sampleClient ("#/s/" +:+ "my-link")
              {| view_urls := []; view_redirect := RedirectNone |})
           (after (createUrl 2000 [] None "uuid-1" sampleForm samplePending) ∅)
    = Returns view'
    ∧ view_redirect view'
      = Redirecting (migrate (newUrl 2000 "uuid-1" sampleForm samplePending)) "my-link".
Proof.
  assert (Hsubmit :
    handleSubmit parseURL (fun _ => true) (fun _ => false) 1000
      (fun _ => {| randomByte := fun _ => 0; timingEntropy := 0 |}) sampleForm ∅
    = (Returns (Creating samplePending), ∅)) by (vm_compute; reflexivity).
  apply (created_link_resolves parseURL (fun _ => true) (fun _ => false)
           1000 2000 5000 5001
           (fun _ => {| randomByte := fun _ => 0; timingEntropy := 0 |})
           sampleForm samplePending "uuid-1" [] sampleClient
           {| view_urls := []; view_redirect := RedirectNone |} ∅ Hsubmit).
  reflexivity.
Defined.

(** ** The duplicate warning *)

(** X29. The duplicate warning of [handleSubmit]. As long as the user
    has not been shown a duplicate ([duplicate] is not set), a
    submission goes on to create a record only when no stored record
    has the normalized URL of the input; when one has, the first such
    record is shown instead and nothing is created. The normalized URL
    the new record gets is the one that was looked up. *)
Theorem handleSubmit_duplicate_warning (URL_new : string → option URL)
    (isValidUrl isSelfReferencing : string → bool) (now : Z)
    (entropy : nat → Entropy) (form : FormState) (ls ls' : gmap string Item)
    (outcome : SubmitOutcome) :
  handleSubmit URL_new isValidUrl isSelfReferencing now entropy form ls
    = (Returns outcome, ls') →
  form_duplicate form = None →
  match outcome with
  | Creating p =>
      pending_normalized p
        = normalizeUrl URL_new (ensureProtocol (trim (form_url form)))
      ∧ ∀ u, u ∈ urlsOf ls → normalizedUrl u ≠ pending_normalized p
  | DuplicateShown existing =>
      existing ∈ urlsOf ls
      ∧ normalizedUrl existing
        = normalizeUrl URL_new (ensureProtocol (trim (form_url form)))
  | _ => True
  end.
Proof.
  unfold handleSubmit. intros H Hdup.
  pose proof (checkRateLimit_after now ls) as Hc. unfold after in Hc.
  unfold mbind at 1, M_bind in H.
  destruct (checkRateLimit now ls) as [[status|e] ls0]; cbn [snd] in Hc; subst ls0;
    [|discriminate].
  destruct (negb (allowed status)); [injection H as <- _; exact I|].
  destruct (String.eqb (trim (form_url form)) ""); [injection H as <- _; exact I|].
  destruct (negb (isValidUrl _)); [injection H as <- _; exact I|].
  destruct (isSelfReferencing _); [injection H as <- _; exact I|].
  rewrite (bind_run _ _ _ _ _ (findDuplicateUrl_run _ ls)) in H.
  set (finalUrl := ensureProtocol _) in *.
  set (normalized := normalizeUrl URL_new finalUrl) in *.
  rewrite Hdup in H.
  destruct (List.find _ (urlsOf ls)) as [existing|] eqn:Hfind.
  { injection H as <- _. apply List.find_some in Hfind as [Hin Heq].
    split; [apply list_elem_of_In, Hin|apply String.eqb_eq, Heq]. }
  assert (Hnone : ∀ u, u ∈ urlsOf ls → normalizedUrl u ≠ normalized).
  { intros u Hu. apply String.eqb_neq.
    apply (List.find_none _ _ Hfind), list_elem_of_In, Hu. }
  destruct (form_useCustomAlias form && _).
  - destruct (negb (isValidAlias _)); [injection H as <- _; exact I|].
    rewrite (bind_run _ _ _ _ _ (isShortCodeUnique_run _ ls)) in H.
    destruct (negb _); injection H as <- _; [exact I|].
    split; [reflexivity|exact Hnone].
  - rewrite (bind_run _ _ _ _ _ (generateUniqueShortCode_run _ ls)) in H.
    destruct (negb _); injection H as <- _; [exact I|].
    split; [reflexivity|exact Hnone].
Qed.

Lemma handleSubmit_duplicate_warning_witness :
  let form := {| form_url := " HTTPS://Example.com/page/ ";
                 form_customAlias := "other";
                 form_useCustomAlias := true;
                 form_expiration := "never";
                 form_duplicate := None;
                 form_password := "";
                 form_usePassword := false |} in
  ∃ existing,
    handleSubmit parseURL (fun _ => true) (fun _ => false) 3000
      (fun _ => {| randomByte := fun _ => 0; timingEntropy := 0 |}) form
      (storage sampleState)
    = (Returns (DuplicateShown existing), storage sampleState)
    ∧ existing ∈ urlsOf (storage sampleState).
Proof.
  intros form.
  assert (Hrun :
    handleSubmit parseURL (fun _ => true) (fun _ => false) 3000
      (fun _ => {| randomByte := fun _ => 0; timingEntropy := 0 |}) form
      (storage sampleState)
    = (Returns (DuplicateShown (newUrl 2000 "uuid-1" sampleForm samplePending)),
       storage sampleState)) by (vm_compute; reflexivity).
  exists (newUrl 2000 "uuid-1" sampleForm samplePending).
  split; [exact Hrun|].
  exact (proj1 (handleSubmit_duplicate_warning parseURL (fun _ => true) (fun _ => false)
                  3000 (fun _ => {| randomByte := fun _ => 0; timingEntropy := 0 |})
                  form (storage sampleState) (storage sampleState)
                  (DuplicateShown (newUrl 2000 "uuid-1" sampleForm samplePending))
                  Hrun eq_refl)).
Defined.

(** ** Passwords and the hash route *)

Lemma find_projected (g : ShortenedUrl → ShortenedUrl) (p : ShortenedUrl → bool) :
  (∀ u, p (g u) = p u) →
  ∀ l l', map g l = map g l' →
  option_map g (List.find p l) = option_map g (List.find p l').
Proof.
  intros Hp. induction l as [|u l IH]; intros [|u' l'] Heq; try discriminate.
  - reflexivity.
  - cbn [map] in Heq. injection Heq as Hu Hl. cbn [List.find].
    rewrite <- (Hp u), <- (Hp u'), Hu.
    destruct (p (g u')); [cbn [option_map]; rewrite Hu; reflexivity|].
    apply IH, Hl.
Qed.

(** X30. [handleHashRoute] never looks at the password of a record.
    Two stores whose records agree in everything but their passwords
    get the same answer from the route (no code, not found, expired or
    redirecting, with the same record up to its password): a record
    with a password is redirected to like any other. *)
Theorem handleHashRoute_ignores_password (now now' : Z) (faults : list JsError)
    (client : ClientInfo) (hash : string) (view : AppView)
    (ls ls' : gmap string Item) :
  map withoutPassword (urlsOf ls) = map withoutPassword (urlsOf ls') →
  ∃ v v',
    result (handleHashRoute now now' faults client hash view) ls = Returns v
    ∧ result (handleHashRoute now now' faults client hash view) ls' = Returns v'
    ∧ mapRedirect withoutPassword (view_redirect v)
      = mapRedirect withoutPassword (view_redirect v').
Proof.
  intros Hsame. unfold result. rewrite !handleHashRoute_run.
  destruct (parseShortCode hash) as [code|]; [|eexists _, _; repeat split].
  pose proof (find_projected withoutPassword (answersTo code) (fun u => eq_refl)
                _ _ Hsame) as Hfind.
  destruct (List.find (answersTo code) (urlsOf ls)) as [found|],
           (List.find (answersTo code) (urlsOf ls')) as [found'|];
    cbn [option_map] in Hfind; try discriminate;
    [|eexists _, _; repeat split].
  apply (inj Some) in Hfind. rename Hfind into Hfound.
  assert (Hexp : expiresAt found = expiresAt found')
    by exact (f_equal expiresAt Hfound).
  rewrite Hexp.
  destruct (isExpired now (expiresAt found')); eexists _, _;
    (split; [reflexivity|]); (split; [reflexivity|]);
    cbn [view_redirect mapRedirect fst]; rewrite Hfound; reflexivity.
Qed.

Lemma handleHashRoute_ignores_password_witness :
  let open := sampleUrl "id-1" "abc1234" None None [] in
  let locked := {| id := "id-1"; originalUrl := "https://example.com/page";
                   normalizedUrl := "https://example.com/page";
                   shortCode := "abc1234"; customAlias := None; createdAt := 1000;
                   expiresAt := None; clicks := 0; clickHistory := [];
                   password := Some "secret" |} in
  let view := {| view_urls := []; view_redirect := RedirectNone |} in
  ∃ v v',
    result (handleHashRoute 5000 5001 [] sampleClient "#/s/abc1234" view)
           (storeOf [open]) = Returns v
    ∧ result (handleHashRoute 5000 5001 [] sampleClient "#/s/abc1234" view)
             (storeOf [locked]) = Returns v'
    ∧ mapRedirect withoutPassword (view_redirect v)
      = mapRedirect withoutPassword (view_redirect v').
Proof.
  intros open locked view.
  apply (handleHashRoute_ignores_password 5000 5001 [] sampleClient "#/s/abc1234"
           view (storeOf [open]) (storeOf [locked])).
  vm_compute. reflexivity.
Defined.

(** A record with a password is redirected to without any question. *)
Example password_not_asked :
  let locked := {| id := "id-1"; originalUrl := "https://example.com/page";
                   normalizedUrl := "https://example.com/page";
                   shortCode := "abc1234"; customAlias := None; createdAt := 1000;
                   expiresAt := None; clicks := 0; clickHistory := [];
                   password := Some "secret" |} in
  view_redirect
    <$> result_value
          (handleHashRoute 5000 5001 [] sampleClient "#/s/abc1234"
             {| view_urls := []; view_redirect := RedirectNone |})
          (storeOf [locked])
  = Some (Redirecting locked "abc1234").
Proof. vm_compute. reflexivity. Qed.
